(** * CtrlZ: the NTFS engine of [src/native/usnscanner/addon.cpp]

    A shallow embedding of the native add-on: the shared binary decoders,
    the run-list decoder, the MFT file-record parser, the USN journal
    scanner with its path reconstruction, the host bridge argument parsing
    and the raw-cluster recovery writer, followed by the properties the
    specification states about them.

    Conventions.
    - A buffer is a [list byte]; a pointer into it is an offset in [Z].
      Reading past the end of the list yields a zero byte (the add-on's
      buffers are zero-initialised vectors).
    - Fixed-width integers are [Z] with the wrap-around written out
      ([wrap_u32], [wrap_u64], [wrap_i64]).
    - [std::string] is [string]; [std::wstring] is a list of UTF-16 code
      units in [Z]. *)

From Stdlib Require Import ZArith List Lia Bool QArith.
From Stdlib Require Import Strings.String Strings.Ascii Strings.Byte.
From Stdlib Require Import DecimalString DecimalPos.
From stdpp Require Import gmap strings list.

Import ListNotations.
Local Open Scope Z_scope.

(** ** Machine integers *)

Module Machine.

Definition wrap_u32 (z : Z) : Z := z mod 2 ^ 32.
Definition wrap_u64 (z : Z) : Z := z mod 2 ^ 64.
Definition wrap_i64 (z : Z) : Z := (z + 2 ^ 63) mod 2 ^ 64 - 2 ^ 63.

(** [x << n] on a [long long]. *)
Definition shl_i64 (x n : Z) : Z := wrap_i64 (Z.shiftl x n).

Definition u8 (b : byte) : Z := Z.of_N (Byte.to_N b).

Definition byte_of_Z (z : Z) : byte :=
  match Byte.of_N (Z.to_N (z mod 256)) with
  | Some b => b
  | None => x00
  end.

(** [buf[off]] as an unsigned value. *)
Definition rd8 (buf : list byte) (off : Z) : Z :=
  u8 (nth (Z.to_nat off) buf x00).

(** A little-endian field of [n] bytes at [off], as the packed structures
    of the add-on are read on the target. *)
Fixpoint rdLE (n : nat) (buf : list byte) (off : Z) : Z :=
  match n with
  | O => 0
  | S n' => rd8 buf off + 256 * rdLE n' buf (off + 1)
  end.

Definition rd16 := rdLE 2.
Definition rd32 := rdLE 4.
Definition rd64 := rdLE 8.

(** [count] bytes of memory starting at [off]. *)
Definition read_bytes (buf : list byte) (off : Z) (count : Z) : list byte :=
  map (fun i => nth (Z.to_nat off + i)%nat buf x00) (seq 0 (Z.to_nat count)).

(** The little-endian encoding of [z] on [n] bytes (two's complement for a
    negative [z]); used to author buffers. *)
Fixpoint le_bytes (n : nat) (z : Z) : list byte :=
  match n with
  | O => []
  | S n' => byte_of_Z z :: le_bytes n' (z / 256)
  end.

(** The unsigned value of a little-endian byte string. *)
Fixpoint le_unsigned (bs : list byte) : Z :=
  match bs with
  | [] => 0
  | b :: bs' => u8 b + 256 * le_unsigned bs'
  end.

End Machine.
Export Machine.

(** ** Shared decoders *)

(** The loop [for (i = 0; i < size; ++i) value |= (long long)data[i] << (8 * i)]
    of [ReadSignedValue] and of the length field of [ParseRunList], entered
    at index [i] with [n] iterations left. A shift by 64 bits or more, which
    [ParseRunList] asks for when the length field is wider than eight bytes,
    is undefined in the source; here the bits shifted out are lost. No
    property below depends on that case. *)
Fixpoint le_or_loop (buf : list byte) (data : Z) (i : Z) (n : nat) (value : Z) : Z :=
  match n with
  | O => value
  | S n' =>
      le_or_loop buf data (i + 1) n'
        (Z.lor value (shl_i64 (rd8 buf (data + i)) (8 * i)))
  end.

Definition ReadSignedValue (buf : list byte) (data : Z) (size : Z) : Z :=
  if (size <=? 0) || (8 <? size) then 0
  else
    let value := le_or_loop buf data 0 (Z.to_nat size) 0 in
    if (size <? 8) && negb (Z.land (rd8 buf (data + (size - 1))) 128 =? 0)
    then Z.lor value (shl_i64 (-1) (size * 8))
    else value.

(** A wide string literal, [L"..."]. *)
Definition L (s : string) : list Z :=
  map (fun a => Z.of_N (N_of_ascii a)) (list_ascii_of_string s).

Definition string_of_bytes (bs : list byte) : string := string_of_list_byte bs.

(** [std::to_string] of an integer. *)
Definition to_string (z : Z) : string := NilZero.string_of_int (Z.to_int z).

(** *** Platform routines

    [WideCharToMultiByte(CP_UTF8, 0, ...)] of the platform: UTF-16 to UTF-8,
    an unpaired surrogate becoming U+FFFD. *)
Definition utf8_encode (cp : Z) : list byte :=
  if cp <? 128 then [byte_of_Z cp]
  else if cp <? 2048 then
    [byte_of_Z (192 + cp / 64); byte_of_Z (128 + cp mod 64)]
  else if cp <? 65536 then
    [byte_of_Z (224 + cp / 4096); byte_of_Z (128 + (cp / 64) mod 64);
     byte_of_Z (128 + cp mod 64)]
  else
    [byte_of_Z (240 + cp / 262144); byte_of_Z (128 + (cp / 4096) mod 64);
     byte_of_Z (128 + (cp / 64) mod 64); byte_of_Z (128 + cp mod 64)].

Definition is_high_surrogate (w : Z) : bool := (55296 <=? w) && (w <? 56320).
Definition is_low_surrogate (w : Z) : bool := (56320 <=? w) && (w <? 57344).

Fixpoint utf16_to_utf8 (input : list Z) : list byte :=
  match input with
  | [] => []
  | w :: rest =>
      if is_high_surrogate w then
        match rest with
        | w2 :: rest' =>
            if is_low_surrogate w2
            then utf8_encode (65536 + (w - 55296) * 1024 + (w2 - 56320))
                 ++ utf16_to_utf8 rest'
            else utf8_encode 65533 ++ utf16_to_utf8 rest
        | [] => utf8_encode 65533
        end
      else if is_low_surrogate w then utf8_encode 65533 ++ utf16_to_utf8 rest
      else utf8_encode w ++ utf16_to_utf8 rest
  end.

(** [towupper] and [toupper] in the "C" locale. *)
Definition towupper (c : Z) : Z :=
  if (97 <=? c) && (c <=? 122) then c - 32 else c.

Definition WideToUtf8 (input : list Z) : string :=
  match input with
  | [] => EmptyString
  | _ => string_of_bytes (utf16_to_utf8 input)
  end.

Definition base64_alphabet : list ascii :=
  list_ascii_of_string "ABCDEFGHIJKLMNOPQRSTUVWXYZabcdefghijklmnopqrstuvwxyz0123456789+/".

Definition base64_char (index : Z) : ascii :=
  nth (Z.to_nat (Z.land index 63)) base64_alphabet "="%char.

Fixpoint Base64Encode (data : list byte) : string :=
  match data with
  | [] => EmptyString
  | [a] =>
      let triple := Z.shiftl (u8 a) 16 in
      String (base64_char (Z.shiftr triple 18))
        (String (base64_char (Z.shiftr triple 12)) "==")
  | [a; b] =>
      let triple := Z.lor (Z.shiftl (u8 a) 16) (Z.shiftl (u8 b) 8) in
      String (base64_char (Z.shiftr triple 18))
        (String (base64_char (Z.shiftr triple 12))
           (String (base64_char (Z.shiftr triple 6)) "="))
  | a :: b :: c :: rest =>
      let triple := Z.lor (Z.lor (Z.shiftl (u8 a) 16) (Z.shiftl (u8 b) 8)) (u8 c) in
      String (base64_char (Z.shiftr triple 18))
        (String (base64_char (Z.shiftr triple 12))
           (String (base64_char (Z.shiftr triple 6))
              (String (base64_char triple) (Base64Encode rest))))
  end.

(** The [long long] result before its conversion to [double]. *)
Definition FileTimeToUnixMilliseconds (fileTime : Z) : Z :=
  Z.quot fileTime 10000 - 11644473600000.

Definition AttributeTypeToString (type : Z) : string :=
  match type with
  | 16 => "StandardInformation"
  | 32 => "AttributeList"
  | 48 => "FileName"
  | 64 => "ObjectId"
  | 80 => "SecurityDescriptor"
  | 96 => "VolumeName"
  | 112 => "VolumeInformation"
  | 128 => "Data"
  | 144 => "IndexRoot"
  | 160 => "IndexAllocation"
  | 176 => "Bitmap"
  | 192 => "ReparsePoint"
  | 208 => "EAInformation"
  | 224 => "EA"
  | 240 => "PropertySet"
  | 256 => "LoggedUtilityStream"
  | _ => "Unknown"
  end.

(** [std::wstring(ptr, count)]: [count] UTF-16 code units at [off]. *)
Definition read_wide (buf : list byte) (off : Z) (count : Z) : list Z :=
  map (fun i => rd16 buf (off + 2 * Z.of_nat i)) (seq 0 (Z.to_nat count)).

(** The value the specification assigns to a [width]-byte signed field whose
    highest byte is [hi] and whose unsigned little-endian value is [u]:
    when the top bit of [hi] is set, [u] OR-ed with [-1 << (width * 8)]. *)
Definition sign_extend_spec (width : Z) (hi : byte) (u : Z) : Z :=
  if Z.testbit (u8 hi) 7 then Z.lor u (Z.shiftl (-1) (width * 8)) else u.

(** The two's-complement reading of a [width]-byte unsigned value. *)
Definition twos_complement (width u : Z) : Z :=
  if u <? 2 ^ (8 * width - 1) then u else u - 2 ^ (8 * width).

(** ** On-disk structures

    The packed structures of the add-on, as field offsets from the start of
    the structure ([#pragma pack(push, 1)] is in force for all of them). *)

Module FileRecordHeader.
Definition Magic (buf : list byte) (p : Z) : Z := rd32 buf p.
Definition HardLinkCount (buf : list byte) (p : Z) : Z := rd16 buf (p + 18).
Definition FirstAttributeOffset (buf : list byte) (p : Z) : Z := rd16 buf (p + 20).
Definition Flags (buf : list byte) (p : Z) : Z := rd16 buf (p + 22).
Definition BaseFileRecord (buf : list byte) (p : Z) : Z := rd64 buf (p + 32).
Definition sizeof : Z := 48.
End FileRecordHeader.

Module AttributeRecordHeader.
Definition Type_ (buf : list byte) (p : Z) : Z := rd32 buf p.
Definition Length (buf : list byte) (p : Z) : Z := rd32 buf (p + 4).
Definition NonResident (buf : list byte) (p : Z) : Z := rd8 buf (p + 8).
Definition NameLength (buf : list byte) (p : Z) : Z := rd8 buf (p + 9).
Definition NameOffset (buf : list byte) (p : Z) : Z := rd16 buf (p + 10).
(* Resident *)
Definition ValueLength (buf : list byte) (p : Z) : Z := rd32 buf (p + 16).
Definition ValueOffset (buf : list byte) (p : Z) : Z := rd16 buf (p + 20).
(* NonResidentData *)
Definition LowestVcn (buf : list byte) (p : Z) : Z := rd64 buf (p + 16).
Definition HighestVcn (buf : list byte) (p : Z) : Z := rd64 buf (p + 24).
Definition RunOffset (buf : list byte) (p : Z) : Z := rd16 buf (p + 32).
Definition AllocatedSize (buf : list byte) (p : Z) : Z := rd64 buf (p + 40).
Definition DataSize (buf : list byte) (p : Z) : Z := rd64 buf (p + 48).
Definition sizeof : Z := 72.
End AttributeRecordHeader.

(** [NTFS_FILE_RECORD_OUTPUT_BUFFER] as the add-on declares it. *)
Module NtfsFileRecordOutputBuffer.
Definition FileReferenceNumber (buf : list byte) : Z := rd64 buf 0.
Definition FileRecordLength (buf : list byte) : Z := rd32 buf 8.
Definition FileRecordBuffer : Z := 12.
Definition sizeof : Z := 13.
End NtfsFileRecordOutputBuffer.

(** [USN_RECORD_V2] of the platform headers (natural alignment). *)
Module USN_RECORD_V2.
Definition RecordLength (buf : list byte) (p : Z) : Z := rd32 buf p.
Definition FileReferenceNumber (buf : list byte) (p : Z) : Z := rd64 buf (p + 8).
Definition ParentFileReferenceNumber (buf : list byte) (p : Z) : Z := rd64 buf (p + 16).
Definition TimeStamp (buf : list byte) (p : Z) : Z := wrap_i64 (rd64 buf (p + 32)).
Definition Reason (buf : list byte) (p : Z) : Z := rd32 buf (p + 40).
Definition FileAttributes (buf : list byte) (p : Z) : Z := rd32 buf (p + 52).
Definition FileNameLength (buf : list byte) (p : Z) : Z := rd16 buf (p + 56).
Definition FileName : Z := 60.
Definition sizeof : Z := 64.
End USN_RECORD_V2.

(** The field [length] of the source is [seg_length] here ([length] is the
    length of a list). *)
Record DataRunSegment := {
  vcnStart : Z;
  lcn : Z;
  seg_length : Z;
  sparse : bool
}.

(** ** The run-list decoder *)

(** The [while (runPtr < end && *runPtr != 0)] loop of [ParseRunList]. Every
    iteration that emits a segment advances [runPtr] by at least two bytes, so
    [fuel] = [end_ - runPtr] iterations are never exhausted
    ([run_loop_fuel]). *)
Fixpoint run_loop (fuel : nat) (buf : list byte) (end_ runPtr currentVCN currentLCN : Z)
  : list DataRunSegment :=
  match fuel with
  | O => []
  | S fuel' =>
      if (runPtr <? end_) && negb (rd8 buf runPtr =? 0) then
        let headerByte := rd8 buf runPtr in
        let runPtr := runPtr + 1 in
        let lengthFieldSize := Z.land headerByte 15 in
        let offsetFieldSize := Z.land (Z.shiftr headerByte 4) 15 in
        if (lengthFieldSize <=? 0) || (offsetFieldSize <? 0)
           || (end_ <? runPtr + lengthFieldSize + offsetFieldSize)
        then []
        else
          let runLength := le_or_loop buf runPtr 0 (Z.to_nat lengthFieldSize) 0 in
          let runPtr := runPtr + lengthFieldSize in
          let sparse := offsetFieldSize =? 0 in
          let runOffset := ReadSignedValue buf runPtr offsetFieldSize in
          let runPtr := runPtr + offsetFieldSize in
          let currentLCN := wrap_i64 (currentLCN + runOffset) in
          {| vcnStart := currentVCN; lcn := currentLCN;
             seg_length := runLength; sparse := sparse |}
          :: run_loop fuel' buf end_ runPtr (wrap_i64 (currentVCN + runLength)) currentLCN
      else []
  end.

(** [header] is the offset of the attribute record in [buf]. *)
Definition ParseRunList (buf : list byte) (header : Z) : list DataRunSegment :=
  if AttributeRecordHeader.NonResident buf header =? 0 then []
  else
    let base := header in
    let runPtr := base + AttributeRecordHeader.RunOffset buf header in
    let end_ := base + AttributeRecordHeader.Length buf header in
    let currentVCN := wrap_i64 (AttributeRecordHeader.LowestVcn buf header) in
    let currentLCN := 0 in
    run_loop (Z.to_nat (end_ - runPtr)) buf end_ runPtr currentVCN currentLCN.

(** ** The MFT file-record parser *)

Definition ExtractAttributeName (buf : list byte) (header : Z) : string :=
  if AttributeRecordHeader.NameLength buf header =? 0 then EmptyString
  else
    let namePtr := header + AttributeRecordHeader.NameOffset buf header in
    WideToUtf8 (read_wide buf namePtr (AttributeRecordHeader.NameLength buf header)).

Module AttributeInfo.
Record t := {
  type : Z;
  typeName : string;
  nonResident : bool;
  name : string;
  dataSize : Z;
  allocatedSize : Z;
  runs : list DataRunSegment;
  residentData : list byte
}.
End AttributeInfo.

Module FileRecordDetails.
Record t := {
  inUse : bool;
  isDirectory : bool;
  baseReference : Z;
  hardLinkCount : Z;
  flags : Z;
  attributes : list AttributeInfo.t;
  bytesPerSector : Z;
  sectorsPerCluster : Z;
  clusterSize : Z
}.
End FileRecordDetails.

(** The body of the attribute walk for the attribute at [attr]. *)
Definition parse_attribute (buf : list byte) (attr : Z) : AttributeInfo.t :=
  let nonResident := negb (AttributeRecordHeader.NonResident buf attr =? 0) in
  if nonResident then
    {| AttributeInfo.type := AttributeRecordHeader.Type_ buf attr;
       AttributeInfo.typeName := AttributeTypeToString (AttributeRecordHeader.Type_ buf attr);
       AttributeInfo.nonResident := nonResident;
       AttributeInfo.name := ExtractAttributeName buf attr;
       AttributeInfo.dataSize := AttributeRecordHeader.DataSize buf attr;
       AttributeInfo.allocatedSize := AttributeRecordHeader.AllocatedSize buf attr;
       AttributeInfo.runs := ParseRunList buf attr;
       AttributeInfo.residentData := [] |}
  else
    let valueOffset := AttributeRecordHeader.ValueOffset buf attr in
    let valueLength := AttributeRecordHeader.ValueLength buf attr in
    {| AttributeInfo.type := AttributeRecordHeader.Type_ buf attr;
       AttributeInfo.typeName := AttributeTypeToString (AttributeRecordHeader.Type_ buf attr);
       AttributeInfo.nonResident := nonResident;
       AttributeInfo.name := ExtractAttributeName buf attr;
       AttributeInfo.dataSize := valueLength;
       AttributeInfo.allocatedSize := valueLength;
       AttributeInfo.runs := [];
       AttributeInfo.residentData :=
         if (wrap_u32 (valueOffset + valueLength) <=? AttributeRecordHeader.Length buf attr)
            && (0 <? valueLength)
         then read_bytes buf (attr + valueOffset) valueLength
         else [] |}.

(** The [while (attrPtr + sizeof(AttributeRecordHeader) <= end)] loop of
    [ParseFileRecord]; every iteration advances [attrPtr] by [Length] > 0. *)
Fixpoint attribute_loop (fuel : nat) (buf : list byte) (end_ attrPtr : Z)
  : list AttributeInfo.t :=
  match fuel with
  | O => []
  | S fuel' =>
      if attrPtr + AttributeRecordHeader.sizeof <=? end_ then
        if (AttributeRecordHeader.Type_ buf attrPtr =? 4294967295)
           || (AttributeRecordHeader.Length buf attrPtr =? 0)
        then []
        else if end_ <? attrPtr + AttributeRecordHeader.Length buf attrPtr then []
        else
          parse_attribute buf attrPtr
          :: attribute_loop fuel' buf end_ (attrPtr + AttributeRecordHeader.Length buf attrPtr)
      else []
  end.

(** [buffer] is the offset of the record in [buf]; [None] is the [false] of
    the source. The geometry fields are zero until the caller fills them. *)
Definition ParseFileRecord (buf : list byte) (buffer : Z) (length : Z)
  : option FileRecordDetails.t :=
  if length <? FileRecordHeader.sizeof then None
  else if negb (FileRecordHeader.Magic buf buffer =? 1162627398) then None
  else
    let flags := FileRecordHeader.Flags buf buffer in
    let attrPtr := buffer + FileRecordHeader.FirstAttributeOffset buf buffer in
    let end_ := buffer + length in
    Some {| FileRecordDetails.inUse := negb (Z.land flags 1 =? 0);
            FileRecordDetails.isDirectory := negb (Z.land flags 2 =? 0);
            FileRecordDetails.baseReference := FileRecordHeader.BaseFileRecord buf buffer;
            FileRecordDetails.hardLinkCount := FileRecordHeader.HardLinkCount buf buffer;
            FileRecordDetails.flags := flags;
            FileRecordDetails.attributes :=
              attribute_loop (Z.to_nat (end_ - attrPtr)) buf end_ attrPtr;
            FileRecordDetails.bytesPerSector := 0;
            FileRecordDetails.sectorsPerCluster := 0;
            FileRecordDetails.clusterSize := 0 |}.

(** ** The operating system

    The add-on drives the volume through blocking system calls. A call
    either succeeds with a value or fails with the error number
    [GetLastError] reports. *)

Inductive io (A : Type) : Type :=
| IoOk (a : A)
| IoFail (err : Z).
Arguments IoOk {A} a.
Arguments IoFail {A} err.

(** What an [AsyncWorker] leaves behind: a result, or the message given to
    [SetError]. *)
Inductive outcome (A : Type) : Type :=
| Done (a : A)
| SetError (msg : string).
Arguments Done {A} a.
Arguments SetError {A} msg.

Module Os.
Record t := {
  (** root path to (sectorsPerCluster, bytesPerSector) *)
  GetDiskFreeSpaceW : list Z -> io (Z * Z);
  (** opening a raw volume for reading *)
  OpenVolume : list Z -> io unit;
  (** creating the output file, truncating an existing one *)
  CreateOutput : list Z -> io unit;
  (** [FSCTL_GET_NTFS_FILE_RECORD]: volume path, file reference to
      (bytesReturned, output buffer) *)
  GetNtfsFileRecord : list Z -> Z -> io (Z * list byte);
  (** [FSCTL_ENUM_USN_DATA]: volume path, StartFileReferenceNumber to
      (bytesReturned, output buffer) *)
  EnumUsnData : list Z -> Z -> io (Z * list byte);
  (** absolute seek on the volume *)
  SetFilePointerEx : Z -> io unit;
  (** the number of bytes a read of [n] bytes at volume position [pos]
      transfers *)
  ReadCount : Z -> Z -> io Z;
  (** the number of bytes a write of [n] bytes transfers when the output
      file holds [size] bytes *)
  WriteCount : Z -> Z -> io Z;
  (** the bytes of the raw volume, by absolute offset *)
  volume : Z -> byte;
  (** the last-error value left by the last failing call *)
  last_error : Z
}.
End Os.

Definition ERROR_HANDLE_EOF : Z := 38.
Definition USN_REASON_FILE_DELETE : Z := 512.
Definition FILE_ATTRIBUTE_DIRECTORY : Z := 16.

Definition char_code (c : ascii) : Z := Z.of_N (N_of_ascii c).
Definition char_of_code (z : Z) : ascii := ascii_of_N (Z.to_N (z mod 256)).

(** ** getFileRecord *)

Definition FileRecordWorker_volumePath (c : ascii) : list Z :=
  let driveChar := towupper (char_code c) in
  L "\\.\" ++ [driveChar] ++ [char_code ":"].

Definition FileRecordWorker_Execute (os : Os.t) (drive_ : string) (fileRef_ : Z)
  : outcome FileRecordDetails.t :=
  match drive_ with
  | EmptyString => SetError "Drive letter is required"
  | String c _ =>
      let driveChar := towupper (char_code c) in
      let volumePath := FileRecordWorker_volumePath c in
      let rootPath := [driveChar] ++ L ":\" in
      let geometry :=
        match Os.GetDiskFreeSpaceW os rootPath with
        | IoOk g => g
        | IoFail _ => (0, 0)
        end in
      let sectorsPerCluster := fst geometry in
      let bytesPerSector := snd geometry in
      match Os.OpenVolume os volumePath with
      | IoFail err => SetError ("CreateFile failed with error " ++ to_string err)
      | IoOk _ =>
          match Os.GetNtfsFileRecord os volumePath fileRef_ with
          | IoFail err =>
              SetError ("FSCTL_GET_NTFS_FILE_RECORD failed with error " ++ to_string err)
          | IoOk (bytesReturned, buffer) =>
              if bytesReturned <? NtfsFileRecordOutputBuffer.sizeof
              then SetError "File record response too small"
              else
                match ParseFileRecord buffer NtfsFileRecordOutputBuffer.FileRecordBuffer
                        (NtfsFileRecordOutputBuffer.FileRecordLength buffer) with
                | None => SetError "Failed to parse file record"
                | Some details =>
                    Done {| FileRecordDetails.inUse := FileRecordDetails.inUse details;
                            FileRecordDetails.isDirectory := FileRecordDetails.isDirectory details;
                            FileRecordDetails.baseReference := FileRecordDetails.baseReference details;
                            FileRecordDetails.hardLinkCount := FileRecordDetails.hardLinkCount details;
                            FileRecordDetails.flags := FileRecordDetails.flags details;
                            FileRecordDetails.attributes := FileRecordDetails.attributes details;
                            FileRecordDetails.bytesPerSector := bytesPerSector;
                            FileRecordDetails.sectorsPerCluster := sectorsPerCluster;
                            FileRecordDetails.clusterSize := bytesPerSector * sectorsPerCluster |}
                end
          end
      end
  end.

(** The objects [OnOK] hands to the callback; an optional property is an
    [option]. *)
Module RunObject.
Record t := { vcn : string; lcn : string; length : string; sparse : bool }.
End RunObject.

Module AttributeObject.
Record t := {
  type : Z;
  typeName : string;
  nonResident : bool;
  name : option string;
  dataSize : string;
  allocatedSize : string;
  runs : option (list RunObject.t);
  residentDataBase64 : option string
}.
End AttributeObject.

Module RecordObject.
Record t := {
  inUse : bool;
  isDirectory : bool;
  baseReference : string;
  hardLinkCount : Z;
  flags : Z;
  bytesPerSector : Z;
  sectorsPerCluster : Z;
  clusterSize : string;
  attributes : list AttributeObject.t
}.
End RecordObject.

Definition run_object (run : DataRunSegment) : RunObject.t :=
  {| RunObject.vcn := to_string (vcnStart run);
     RunObject.lcn := to_string (lcn run);
     RunObject.length := to_string (seg_length run);
     RunObject.sparse := sparse run |}.

Definition is_nil {A : Type} (l : list A) : bool :=
  match l with [] => true | _ => false end.

Definition string_empty (s : string) : bool :=
  match s with EmptyString => true | _ => false end.

(** The body of the attribute loop of [OnOK]. *)
Definition attribute_object (attr : AttributeInfo.t) : AttributeObject.t :=
  {| AttributeObject.type := AttributeInfo.type attr;
     AttributeObject.typeName := AttributeInfo.typeName attr;
     AttributeObject.nonResident := AttributeInfo.nonResident attr;
     AttributeObject.name :=
       if string_empty (AttributeInfo.name attr) then None
       else Some (AttributeInfo.name attr);
     AttributeObject.dataSize := to_string (AttributeInfo.dataSize attr);
     AttributeObject.allocatedSize := to_string (AttributeInfo.allocatedSize attr);
     AttributeObject.runs :=
       if negb (is_nil (AttributeInfo.runs attr))
       then Some (map run_object (AttributeInfo.runs attr))
       else None;
     AttributeObject.residentDataBase64 :=
       if negb (is_nil (AttributeInfo.runs attr)) then None
       else if negb (is_nil (AttributeInfo.residentData attr))
       then Some (Base64Encode (AttributeInfo.residentData attr))
       else None |}.

Definition FileRecordWorker_OnOK (details_ : FileRecordDetails.t) : RecordObject.t :=
  {| RecordObject.inUse := FileRecordDetails.inUse details_;
     RecordObject.isDirectory := FileRecordDetails.isDirectory details_;
     RecordObject.baseReference := to_string (FileRecordDetails.baseReference details_);
     RecordObject.hardLinkCount := FileRecordDetails.hardLinkCount details_;
     RecordObject.flags := FileRecordDetails.flags details_;
     RecordObject.bytesPerSector := FileRecordDetails.bytesPerSector details_;
     RecordObject.sectorsPerCluster := FileRecordDetails.sectorsPerCluster details_;
     RecordObject.clusterSize := to_string (FileRecordDetails.clusterSize details_);
     RecordObject.attributes := map attribute_object (FileRecordDetails.attributes details_) |}.

(** The operation as the host sees it: the callback receives the record
    object, or the error. *)
Definition getFileRecord (os : Os.t) (drive : string) (fileRef : Z) : outcome RecordObject.t :=
  match FileRecordWorker_Execute os drive fileRef with
  | Done details => Done (FileRecordWorker_OnOK details)
  | SetError msg => SetError msg
  end.

(** ** scan: the USN journal scanner *)

Module FileEntry.
Record t := { parentRef : Z; name : string; isDirectory : bool }.
End FileEntry.

Module DeletedRecord.
Record t := {
  fileRef : Z;
  parentRef : Z;
  name : string;
  isDirectory : bool;
  (** the [long long] the source converts to [double] *)
  timestampMs : Z;
  reason : Z
}.
End DeletedRecord.

Module ScanResult.
Record t := {
  fileRef : Z;
  parentRef : Z;
  name : string;
  fullPath : string;
  isDirectory : bool;
  timestampMs : Z;
  reason : Z
}.
End ScanResult.

(** The state of the enumeration: [med.StartFileReferenceNumber], the file
    table and the deleted records found so far. *)
Module ScanState.
Record t := {
  StartFileReferenceNumber : Z;
  fileTable : gmap Z FileEntry.t;
  deleted : list DeletedRecord.t
}.
End ScanState.

Definition ScanUsnWorker_volumePath (c : ascii) : list Z :=
  let driveChar := towupper (char_code c) in
  L "\.\" ++ [driveChar] ++ [char_code ":"].

(** The [while (recordBytes > 0)] loop over the records of one batch; every
    iteration consumes [RecordLength] > 0 bytes. *)
Fixpoint record_loop (fuel : nat) (buf : list byte) (recordPtr recordBytes : Z)
    (fileTable : gmap Z FileEntry.t) (deleted : list DeletedRecord.t)
  : gmap Z FileEntry.t * list DeletedRecord.t :=
  match fuel with
  | O => (fileTable, deleted)
  | S fuel' =>
      if 0 <? recordBytes then
        if recordBytes <? USN_RECORD_V2.sizeof then (fileTable, deleted)
        else
          let RecordLength := USN_RECORD_V2.RecordLength buf recordPtr in
          if (RecordLength =? 0) || (recordBytes <? RecordLength) then (fileTable, deleted)
          else
            let fileRef := USN_RECORD_V2.FileReferenceNumber buf recordPtr in
            let parentRef := USN_RECORD_V2.ParentFileReferenceNumber buf recordPtr in
            let wName := read_wide buf (recordPtr + USN_RECORD_V2.FileName)
                           (USN_RECORD_V2.FileNameLength buf recordPtr / 2) in
            let name := WideToUtf8 wName in
            let isDirectory :=
              negb (Z.land (USN_RECORD_V2.FileAttributes buf recordPtr)
                      FILE_ATTRIBUTE_DIRECTORY =? 0) in
            let fileTable :=
              <[ fileRef := {| FileEntry.parentRef := parentRef;
                               FileEntry.name := name;
                               FileEntry.isDirectory := isDirectory |} ]> fileTable in
            let deleted :=
              if negb (Z.land (USN_RECORD_V2.Reason buf recordPtr) USN_REASON_FILE_DELETE =? 0)
              then deleted ++
                   [ {| DeletedRecord.fileRef := fileRef;
                        DeletedRecord.parentRef := parentRef;
                        DeletedRecord.name := name;
                        DeletedRecord.isDirectory := isDirectory;
                        DeletedRecord.timestampMs :=
                          FileTimeToUnixMilliseconds (USN_RECORD_V2.TimeStamp buf recordPtr);
                        DeletedRecord.reason := USN_RECORD_V2.Reason buf recordPtr |} ]
              else deleted in
            record_loop fuel' buf (recordPtr + RecordLength) (recordBytes - RecordLength)
              fileTable deleted
      else (fileTable, deleted)
  end.

(** One turn of the [while (true)] loop, on the answer of the journal
    control to the request made with the state's start reference. *)
Inductive enum_step_result : Type :=
| Reissue (st : ScanState.t)      (* the loop goes round with this state *)
| EndOfJournal (st : ScanState.t) (* [break] *)
| EnumFailed (msg : string).      (* [SetError] and [return] *)

Definition enum_step (st : ScanState.t) (answer : io (Z * list byte)) : enum_step_result :=
  match answer with
  | IoFail err =>
      if err =? ERROR_HANDLE_EOF then EndOfJournal st
      else EnumFailed ("FSCTL_ENUM_USN_DATA failed with error " ++ to_string err)
  | IoOk (bytesReturned, buffer) =>
      if bytesReturned <=? 8 then Reissue st
      else
        let nextUsn := rd64 buffer 0 in
        let recordPtr := 8 in
        let recordBytes := bytesReturned - 8 in
        let '(fileTable, deleted) :=
          record_loop (Z.to_nat recordBytes) buffer recordPtr recordBytes
            (ScanState.fileTable st) (ScanState.deleted st) in
        Reissue {| ScanState.StartFileReferenceNumber := nextUsn;
                   ScanState.fileTable := fileTable;
                   ScanState.deleted := deleted |}
  end.

(** The enumeration; [None] when [fuel] turns do not reach the end of the
    journal. *)
Fixpoint enum_loop (fuel : nat) (os : Os.t) (volumePath : list Z) (st : ScanState.t)
  : option (outcome ScanState.t) :=
  match fuel with
  | O => None
  | S fuel' =>
      match enum_step st
              (Os.EnumUsnData os volumePath (ScanState.StartFileReferenceNumber st)) with
      | Reissue st' => enum_loop fuel' os volumePath st'
      | EndOfJournal st' => Some (Done st')
      | EnumFailed msg => Some (SetError msg)
      end
  end.

(** *** Path reconstruction *)

Definition backslash : ascii := "\"%char.

(** [s.back()], if [s] is not empty. *)
Fixpoint back (s : string) : option ascii :=
  match s with
  | EmptyString => None
  | String c EmptyString => Some c
  | String _ rest => back rest
  end.

(** The parent walk: [while (current != 0 && guard < maxDepth)], with
    [fuel] = [maxDepth - guard]. *)
Fixpoint collect_segments (fuel : nat) (fileTable : gmap Z FileEntry.t)
    (current : Z) (segments : list string) : list string :=
  match fuel with
  | O => segments
  | S fuel' =>
      if current =? 0 then segments
      else
        match fileTable !! current with
        | None => segments
        | Some entry =>
            let segments :=
              if string_empty (FileEntry.name entry) then segments
              else segments ++ [FileEntry.name entry] in
            if current =? FileEntry.parentRef entry then segments
            else collect_segments fuel' fileTable (FileEntry.parentRef entry) segments
        end
  end.

Definition maxDepth : nat := 1024.

(** One turn of the loop that appends the segments, last one first. *)
Definition append_segment (fullPath segment : string) : string :=
  (if negb (string_empty fullPath)
      && negb (match back fullPath with
               | Some c => Ascii.eqb c backslash
               | None => false
               end)
   then fullPath ++ "\"
   else fullPath) ++ segment.

Definition upperDriveChar (drive_ : string) : ascii :=
  match drive_ with
  | EmptyString => "?"%char
  | String c _ => char_of_code (towupper (char_code c))
  end.

Definition reconstruct_path (drive_ : string) (fileTable : gmap Z FileEntry.t)
    (item : DeletedRecord.t) : string :=
  let fullPath := String (upperDriveChar drive_) ":\" in
  let segments :=
    collect_segments maxDepth fileTable (DeletedRecord.parentRef item)
      [DeletedRecord.name item] in
  fold_left append_segment (rev segments) fullPath.

Definition scan_result (drive_ : string) (fileTable : gmap Z FileEntry.t)
    (item : DeletedRecord.t) : ScanResult.t :=
  {| ScanResult.fileRef := DeletedRecord.fileRef item;
     ScanResult.parentRef := DeletedRecord.parentRef item;
     ScanResult.name := DeletedRecord.name item;
     ScanResult.fullPath := reconstruct_path drive_ fileTable item;
     ScanResult.isDirectory := DeletedRecord.isDirectory item;
     ScanResult.timestampMs := DeletedRecord.timestampMs item;
     ScanResult.reason := DeletedRecord.reason item |}.

Definition ScanUsnWorker_Execute (fuel : nat) (os : Os.t) (drive_ : string)
  : option (outcome (list ScanResult.t)) :=
  match drive_ with
  | EmptyString => Some (SetError "Drive letter is required")
  | String c _ =>
      let volumePath := ScanUsnWorker_volumePath c in
      match Os.OpenVolume os volumePath with
      | IoFail err => Some (SetError ("CreateFile failed with error " ++ to_string err))
      | IoOk _ =>
          match enum_loop fuel os volumePath
                  {| ScanState.StartFileReferenceNumber := 0;
                     ScanState.fileTable := ∅;
                     ScanState.deleted := [] |} with
          | None => None
          | Some (SetError msg) => Some (SetError msg)
          | Some (Done st) =>
              Some (Done (map (scan_result drive_ (ScanState.fileTable st))
                            (ScanState.deleted st)))
          end
      end
  end.

(** *** The path the specification describes

    The ancestors of a deleted entry, nearest first, from [current] at
    [depth]: the walk ends at reference 0, at the depth cap, at a missing
    entry, and after an entry that is its own parent; an empty name adds no
    segment. *)
Definition name_segment (entry : FileEntry.t) : list string :=
  if string_empty (FileEntry.name entry) then [] else [FileEntry.name entry].

Inductive ancestors (fileTable : gmap Z FileEntry.t) : Z -> nat -> list string -> Prop :=
| ancestors_zero depth :
    ancestors fileTable 0 depth []
| ancestors_cap current :
    current <> 0 -> ancestors fileTable current maxDepth []
| ancestors_missing current depth :
    current <> 0 -> (depth < maxDepth)%nat -> fileTable !! current = None ->
    ancestors fileTable current depth []
| ancestors_self current depth entry :
    current <> 0 -> (depth < maxDepth)%nat -> fileTable !! current = Some entry ->
    FileEntry.parentRef entry = current ->
    ancestors fileTable current depth (name_segment entry)
| ancestors_parent current depth entry segments :
    current <> 0 -> (depth < maxDepth)%nat -> fileTable !! current = Some entry ->
    FileEntry.parentRef entry <> current ->
    ancestors fileTable (FileEntry.parentRef entry) (S depth) segments ->
    ancestors fileTable current depth (name_segment entry ++ segments).

Definition ends_with_backslash (s : string) : bool :=
  match back s with
  | Some c => Ascii.eqb c backslash
  | None => false
  end.

(** The segments joined by a backslash. *)
Fixpoint join_backslash (segments : list string) : string :=
  match segments with
  | [] => EmptyString
  | [s] => s
  | s :: rest => s ++ "\" ++ join_backslash rest
  end.

(** The segments joined by a backslash, none being added after a segment
    that already ends in one. *)
Fixpoint join_path (segments : list string) : string :=
  match segments with
  | [] => EmptyString
  | [s] => s
  | s :: rest =>
      s ++ (if ends_with_backslash s then EmptyString else "\") ++ join_path rest
  end.

(** ** Integer parsing of the host bridge

    [std::stoull] and [std::stoll] in base 10, as the C++ library defines
    them over [strtoull] and [strtoll]: leading white space is skipped, one
    sign is accepted, the digits that follow are converted, and the index of
    the first unconverted character is reported. No digits is
    [invalid_argument]; a value out of range is [out_of_range]. A minus sign
    negates the converted value in the result type. *)

Definition isspace (c : ascii) : bool :=
  let n := char_code c in (n =? 32) || ((9 <=? n) && (n <=? 13)).

Definition digit_of (c : ascii) : option Z :=
  let n := char_code c in
  if (48 <=? n) && (n <=? 57) then Some (n - 48) else None.

Fixpoint skip_space (s : string) (idx : Z) : string * Z :=
  match s with
  | String c rest => if isspace c then skip_space rest (idx + 1) else (s, idx)
  | EmptyString => (s, idx)
  end.

(** The value of the leading digits of [s] after [acc], and their number
    after [count]. *)
Fixpoint read_digits (s : string) (acc : Z) (count : Z) : Z * Z :=
  match s with
  | String c rest =>
      match digit_of c with
      | Some d => read_digits rest (acc * 10 + d) (count + 1)
      | None => (acc, count)
      end
  | EmptyString => (acc, count)
  end.

(** Sign, magnitude and end index of the integer at the start of [s]. *)
Definition parse_integer (s : string) : option (bool * Z * Z) :=
  let '(s1, i1) := skip_space s 0 in
  let '(negative, s2, i2) :=
    match s1 with
    | String c rest =>
        if Ascii.eqb c "-" then (true, rest, i1 + 1)
        else if Ascii.eqb c "+" then (false, rest, i1 + 1)
        else (false, s1, i1)
    | EmptyString => (false, s1, i1)
    end in
  let '(magnitude, count) := read_digits s2 0 0 in
  if count =? 0 then None else Some (negative, magnitude, i2 + count).

Inductive sto_result : Type :=
| invalid_argument
| out_of_range
| Converted (value : Z) (idx : Z).

Definition stoull (input : string) : sto_result :=
  match parse_integer input with
  | None => invalid_argument
  | Some (negative, magnitude, idx) =>
      if 2 ^ 64 <=? magnitude then out_of_range
      else Converted (if negative then wrap_u64 (- magnitude) else magnitude) idx
  end.

Definition stoll (input : string) : sto_result :=
  match parse_integer input with
  | None => invalid_argument
  | Some (negative, magnitude, idx) =>
      if negative then
        if 2 ^ 63 <? magnitude then out_of_range else Converted (- magnitude) idx
      else
        if 2 ^ 63 <=? magnitude then out_of_range else Converted magnitude idx
  end.

Definition string_size (s : string) : Z := Z.of_nat (String.length s).

(** The returned flag and the value of [output] after the call. *)
Definition TryParseUnsigned (input : string) (output : Z) : bool * Z :=
  match stoull input with
  | Converted value idx => (idx =? string_size input, value)
  | _ => (false, output)
  end.

Definition TryParseSigned (input : string) (output : Z) : bool * Z :=
  match stoll input with
  | Converted value idx => (idx =? string_size input, value)
  | _ => (false, output)
  end.

(** ** Values of the host

    A number is a finite double, hence a rational; NaN and the infinities are
    outside the model. Property lookup is on plain objects: getters,
    prototypes and own properties of arrays and functions are outside the
    model. A string is held in UTF-8. *)
#[local] Set Warnings "-register-all".
Inductive JsValue : Type :=
| JsUndefined
| JsNull
| JsBoolean (b : bool)
| JsNumber (q : Q)
| JsString (s : string)
| JsFunction
| JsArray (items : list JsValue)
| JsObject (fields : list (string * JsValue)).

Definition IsString (v : JsValue) : bool := match v with JsString _ => true | _ => false end.
Definition IsNumber (v : JsValue) : bool := match v with JsNumber _ => true | _ => false end.
Definition IsBoolean (v : JsValue) : bool := match v with JsBoolean _ => true | _ => false end.
Definition IsArray (v : JsValue) : bool := match v with JsArray _ => true | _ => false end.
Definition IsFunction (v : JsValue) : bool := match v with JsFunction => true | _ => false end.
Definition IsObject (v : JsValue) : bool :=
  match v with JsObject _ | JsArray _ | JsFunction => true | _ => false end.

Fixpoint lookup_field (fields : list (string * JsValue)) (key : string) : JsValue :=
  match fields with
  | [] => JsUndefined
  | (k, v) :: rest => if String.eqb k key then v else lookup_field rest key
  end.

(** [obj.Get(key)]. *)
Definition Get (obj : JsValue) (key : string) : JsValue :=
  match obj with
  | JsObject fields => lookup_field fields key
  | JsArray items =>
      if String.eqb key "length" then JsNumber (inject_Z (Z.of_nat (length items)))
      else JsUndefined
  | _ => JsUndefined
  end.

(** A double converted to an integer type: the fraction is dropped. *)
Definition truncate (q : Q) : Z := Z.quot (Qnum q) (Zpos (Qden q)).
Definition double_to_i64 (q : Q) : Z := wrap_i64 (truncate q).
Definition double_to_u64 (q : Q) : Z := wrap_u64 (truncate q).

(** [MultiByteToWideChar(CP_UTF8, 0, ...)] of the platform: UTF-8 to UTF-16,
    a byte that starts no well-formed sequence becoming U+FFFD. *)
Definition utf16_encode (cp : Z) : list Z :=
  if cp <? 65536 then [cp]
  else [55296 + (cp - 65536) / 1024; 56320 + (cp - 65536) mod 1024].

Definition is_continuation (b : Z) : bool := (128 <=? b) && (b <? 192).

Fixpoint utf8_to_utf16 (fuel : nat) (input : list Z) : list Z :=
  match fuel with
  | O => []
  | S fuel' =>
      match input with
      | [] => []
      | b0 :: rest =>
          if b0 <? 128 then b0 :: utf8_to_utf16 fuel' rest
          else
            match rest with
            | b1 :: rest1 =>
                if (192 <=? b0) && (b0 <? 224) && is_continuation b1 then
                  utf16_encode ((b0 - 192) * 64 + (b1 - 128)) ++ utf8_to_utf16 fuel' rest1
                else
                  match rest1 with
                  | b2 :: rest2 =>
                      if (224 <=? b0) && (b0 <? 240) && is_continuation b1
                         && is_continuation b2 then
                        utf16_encode ((b0 - 224) * 4096 + (b1 - 128) * 64 + (b2 - 128))
                        ++ utf8_to_utf16 fuel' rest2
                      else
                        match rest2 with
                        | b3 :: rest3 =>
                            if (240 <=? b0) && (b0 <? 248) && is_continuation b1
                               && is_continuation b2 && is_continuation b3 then
                              utf16_encode ((b0 - 240) * 262144 + (b1 - 128) * 4096
                                            + (b2 - 128) * 64 + (b3 - 128))
                              ++ utf8_to_utf16 fuel' rest3
                            else 65533 :: utf8_to_utf16 fuel' rest
                        | [] => 65533 :: utf8_to_utf16 fuel' rest
                        end
                  | [] => 65533 :: utf8_to_utf16 fuel' rest
                  end
            | [] => [65533]
            end
      end
  end.

Definition Utf8ToWide (input : string) : list Z :=
  let bytes := map char_code (list_ascii_of_string input) in
  utf8_to_utf16 (length bytes) bytes.

(** ** recoverDataRuns: the raw-cluster recovery writer *)

Module DataRunRecoveryWorker.
Record t := {
  drive_ : string;
  runs_ : list DataRunSegment;
  clusterSize_ : Z;
  fileSize_ : Z;
  outputPath_ : list Z
}.
End DataRunRecoveryWorker.

(** How the worker ends: the output file's bytes after a success; or the
    error message and the output file's bytes, if the file was created. *)
Inductive recovery_result : Type :=
| Recovered (output : list byte)
| RecoveryFailed (msg : string) (output : option (list byte)).

(** A step of the copy: the new state, or the error and the output so far. *)
Inductive copied (A : Type) : Type :=
| Copied (a : A)
| CopyFailed (msg : string) (output : list byte).
Arguments Copied {A} a.
Arguments CopyFailed {A} msg output.

(** [WriteFile] of the first [n] bytes of [data]: the number of bytes
    written, at most [n], and the output file afterwards. *)
Definition WriteFile (os : Os.t) (output : list byte) (data : list byte) (n : Z)
  : io (Z * list byte) :=
  match Os.WriteCount os (Z.of_nat (length output)) n with
  | IoFail err => IoFail err
  | IoOk count =>
      let written := Z.max 0 (Z.min count n) in
      IoOk (written, output ++ firstn (Z.to_nat written) data)
  end.

(** [ReadFile] of [n] bytes at volume position [pos]: the bytes read, at
    most [n] of them. *)
Definition ReadFile (os : Os.t) (pos : Z) (n : Z) : io (list byte) :=
  match Os.ReadCount os pos n with
  | IoFail err => IoFail err
  | IoOk count =>
      let read := Z.max 0 (Z.min count n) in
      IoOk (map (fun i => Os.volume os (pos + Z.of_nat i)) (seq 0 (Z.to_nat read)))
  end.

Definition DataRunRecoveryWorker_volumePath (c : ascii) : list Z :=
  let driveChar := towupper (char_code c) in
  L "\\.\" ++ [driveChar] ++ [char_code ":"].

(** The [while (produced < bytesToCopy)] loop of a sparse run; [None] when
    [fuel] turns do not end it. *)
Fixpoint write_zeros (fuel : nat) (os : Os.t) (zeroBuffer : list byte)
    (bytesToCopy produced : Z) (output : list byte) : option (copied (list byte)) :=
  match fuel with
  | O => None
  | S fuel' =>
      if produced <? bytesToCopy then
        let chunk := Z.min (bytesToCopy - produced) (Z.of_nat (length zeroBuffer)) in
        match WriteFile os output zeroBuffer (wrap_u32 chunk) with
        | IoFail err =>
            Some (CopyFailed ("WriteFile (sparse) failed with error " ++ to_string err) output)
        | IoOk (written, output') =>
            write_zeros fuel' os zeroBuffer bytesToCopy (wrap_u64 (produced + written)) output'
        end
      else Some (Copied output)
  end.

(** The [while (processed < bytesToCopy)] loop of a mapped run, from volume
    position [pos]. *)
Fixpoint copy_clusters (fuel : nat) (os : Os.t) (bufferSize : Z)
    (bytesToCopy processed : Z) (pos : Z) (output : list byte)
  : option (copied (list byte)) :=
  match fuel with
  | O => None
  | S fuel' =>
      if processed <? bytesToCopy then
        let chunk := Z.min (bytesToCopy - processed) bufferSize in
        match ReadFile os pos (wrap_u32 chunk) with
        | IoFail err =>
            Some (CopyFailed ("ReadFile failed with error " ++ to_string err) output)
        | IoOk data =>
            let read := Z.of_nat (length data) in
            if read =? 0 then
              Some (CopyFailed "Unexpected end of volume data while reading run" output)
            else
              match WriteFile os output data read with
              | IoFail err =>
                  Some (CopyFailed ("WriteFile failed with error " ++ to_string err) output)
              | IoOk (written, output') =>
                  if negb (written =? read) then
                    Some (CopyFailed
                            ("WriteFile failed with error " ++ to_string (Os.last_error os))
                            output')
                  else
                    copy_clusters fuel' os bufferSize bytesToCopy
                      (wrap_u64 (processed + read)) (pos + read) output'
              end
        end
      else Some (Copied output)
  end.

(** The [for (const auto &run : runs_)] loop: the bytes still to produce
    and the output file after it. *)
Fixpoint copy_runs (fuel : nat) (os : Os.t) (clusterSize_ : Z) (zeroBuffer : list byte)
    (runs : list DataRunSegment) (remaining : Z) (output : list byte)
  : option (copied (Z * list byte)) :=
  match runs with
  | [] => Some (Copied (remaining, output))
  | run :: rest =>
      if remaining =? 0 then Some (Copied (remaining, output))
      else if seg_length run <=? 0 then
        copy_runs fuel os clusterSize_ zeroBuffer rest remaining output
      else
        let runBytesTotal := wrap_u64 (wrap_u64 (seg_length run) * clusterSize_) in
        let bytesToCopy := Z.min runBytesTotal remaining in
        let copied_run :=
          if sparse run || (lcn run <=? 0) then
            write_zeros fuel os zeroBuffer bytesToCopy 0 output
          else
            let absoluteOffset := wrap_i64 (lcn run * wrap_i64 clusterSize_) in
            match Os.SetFilePointerEx os absoluteOffset with
            | IoFail err =>
                Some (CopyFailed ("SetFilePointerEx failed with error " ++ to_string err)
                        output)
            | IoOk _ =>
                copy_clusters fuel os (Z.of_nat (length zeroBuffer)) bytesToCopy 0
                  absoluteOffset output
            end in
        match copied_run with
        | None => None
        | Some (CopyFailed msg output') => Some (CopyFailed msg output')
        | Some (Copied output') =>
            copy_runs fuel os clusterSize_ zeroBuffer rest (remaining - bytesToCopy) output'
        end
  end.

(** The padding loop [while (remaining > 0)]. *)
Fixpoint write_padding (fuel : nat) (os : Os.t) (zeroBuffer : list byte)
    (remaining : Z) (output : list byte) : option (copied (list byte)) :=
  match fuel with
  | O => None
  | S fuel' =>
      if 0 <? remaining then
        let chunk := Z.min remaining (Z.of_nat (length zeroBuffer)) in
        match WriteFile os output zeroBuffer (wrap_u32 chunk) with
        | IoFail err =>
            Some (CopyFailed ("WriteFile (padding) failed with error " ++ to_string err)
                    output)
        | IoOk (written, output') =>
            write_padding fuel' os zeroBuffer (wrap_u64 (remaining - written)) output'
        end
      else Some (Copied output)
  end.

(** [Execute]; [None] when one of its loops does not end within [fuel]
    turns. The two buffers have [clusterSize_ * 16] bytes. *)
Definition DataRunRecoveryWorker_Execute (fuel : nat) (os : Os.t)
    (w : DataRunRecoveryWorker.t) : option recovery_result :=
  match DataRunRecoveryWorker.drive_ w with
  | EmptyString => Some (RecoveryFailed "Drive letter is required" None)
  | String c _ =>
      let clusterSize_ := DataRunRecoveryWorker.clusterSize_ w in
      let fileSize_ := DataRunRecoveryWorker.fileSize_ w in
      if clusterSize_ =? 0 then Some (RecoveryFailed "Cluster size is required" None)
      else if fileSize_ =? 0 then Some (RecoveryFailed "Target file size is zero" None)
      else if is_nil (DataRunRecoveryWorker.outputPath_ w)
      then Some (RecoveryFailed "Output path is required" None)
      else
        match Os.OpenVolume os (DataRunRecoveryWorker_volumePath c) with
        | IoFail err =>
            Some (RecoveryFailed ("CreateFile (volume) failed with error " ++ to_string err)
                    None)
        | IoOk _ =>
            match Os.CreateOutput os (DataRunRecoveryWorker.outputPath_ w) with
            | IoFail err =>
                Some (RecoveryFailed
                        ("CreateFile (output) failed with error " ++ to_string err) None)
            | IoOk _ =>
                let chunkClusters := 16 in
                let zeroBuffer :=
                  repeat x00 (Z.to_nat (wrap_u64 (clusterSize_ * chunkClusters))) in
                match copy_runs fuel os clusterSize_ zeroBuffer
                        (DataRunRecoveryWorker.runs_ w) fileSize_ [] with
                | None => None
                | Some (CopyFailed msg output) => Some (RecoveryFailed msg (Some output))
                | Some (Copied (remaining, output)) =>
                    match write_padding fuel os zeroBuffer remaining output with
                    | None => None
                    | Some (CopyFailed msg output') =>
                        Some (RecoveryFailed msg (Some output'))
                    | Some (Copied output') => Some (Recovered output')
                    end
                end
            end
        end
  end.

(** *** The host bridge *)

(** A numeric-or-string field of a run entry that must be present. *)
Definition signed_field (v : JsValue) (invalid missing : string) : outcome Z :=
  match v with
  | JsString text =>
      let '(ok, value) := TryParseSigned text 0 in
      if ok then Done value else SetError invalid
  | JsNumber q => Done (double_to_i64 q)
  | _ => SetError missing
  end.

(** The body of the loop of [ParseRunsArray] for one entry. *)
Definition parse_run_entry (value : JsValue) : outcome DataRunSegment :=
  if negb (IsObject value) then SetError "Run entry must be an object"
  else
    match signed_field (Get value "length") "Invalid run length" "Run length missing" with
    | SetError msg => SetError msg
    | Done lengthClusters =>
        match signed_field (Get value "lcn") "Invalid run LCN" "Run LCN missing" with
        | SetError msg => SetError msg
        | Done lcnValue =>
            let sparse :=
              match Get value "sparse" with
              | JsBoolean b => b
              | _ => false
              end in
            let vcnValue :=
              match Get value "vcn" with
              | JsString text => snd (TryParseSigned text 0)
              | JsNumber q => double_to_i64 q
              | _ => 0
              end in
            Done {| vcnStart := vcnValue; lcn := lcnValue;
                    seg_length := lengthClusters; sparse := sparse |}
        end
    end.

Fixpoint ParseRunsArray (array : list JsValue) : outcome (list DataRunSegment) :=
  match array with
  | [] => Done []
  | value :: rest =>
      match parse_run_entry value with
      | SetError msg => SetError msg
      | Done segment =>
          match ParseRunsArray rest with
          | SetError msg => SetError msg
          | Done out => Done (segment :: out)
          end
      end
  end.

(** What a call of the bridge does: it throws a [TypeError], or queues the
    worker. *)
Inductive bridge_result : Type :=
| Threw (msg : string)
| Queued (w : DataRunRecoveryWorker.t).

Definition RecoverDataRuns (info : list JsValue) : bridge_result :=
  match info with
  | info0 :: info1 :: info2 :: info3 :: info4 :: info5 :: _ =>
      if negb (IsString info0) then Threw "Drive letter must be a string"
      else if negb (IsArray info1) then Threw "Runs must be an array"
      else
        let clusterSize :=
          match info2 with
          | JsString text =>
              let '(ok, value) := TryParseUnsigned text 0 in
              if ok then Done value else SetError "Invalid cluster size"
          | JsNumber value =>
              if Qle_bool value 0 then SetError "Cluster size must be positive"
              else Done (double_to_u64 value)
          | _ => SetError "Cluster size must be numeric"
          end in
        match clusterSize with
        | SetError msg => Threw msg
        | Done clusterSize =>
            let fileSize :=
              match info3 with
              | JsString text =>
                  let '(ok, value) := TryParseUnsigned text 0 in
                  if ok then Done value else SetError "Invalid file size"
              | JsNumber value =>
                  if negb (Qle_bool 0 value) then SetError "File size must be positive"
                  else Done (double_to_u64 value)
              | _ => SetError "File size must be numeric"
              end in
            match fileSize with
            | SetError msg => Threw msg
            | Done fileSize =>
                if negb (IsString info4) then Threw "Output path must be a string"
                else if negb (IsFunction info5) then Threw "Callback must be a function"
                else
                  match ParseRunsArray (match info1 with JsArray items => items | _ => [] end) with
                  | SetError parseError => Threw parseError
                  | Done runs =>
                      Queued
                        {| DataRunRecoveryWorker.drive_ :=
                             match info0 with JsString text => text | _ => EmptyString end;
                           DataRunRecoveryWorker.runs_ := runs;
                           DataRunRecoveryWorker.clusterSize_ := clusterSize;
                           DataRunRecoveryWorker.fileSize_ := fileSize;
                           DataRunRecoveryWorker.outputPath_ :=
                             Utf8ToWide
                               (match info4 with JsString text => text | _ => EmptyString end) |}
                  end
            end
        end
  | _ => Threw "Expected drive, runs, cluster size, file size, output path, and callback"
  end.

(** The operation as the host sees it: an exception from the call, or the
    worker's end; [None] when the worker does not end within [fuel] turns
    of a loop. *)
Inductive call_result : Type :=
| TypeError (msg : string)
| Worker (result : recovery_result).

Definition recoverDataRuns (fuel : nat) (os : Os.t) (info : list JsValue) : option call_result :=
  match RecoverDataRuns info with
  | Threw msg => Some (TypeError msg)
  | Queued w =>
      match DataRunRecoveryWorker_Execute fuel os w with
      | None => None
      | Some result => Some (Worker result)
      end
  end.

(** *** The run-list format, as the specification describes it

    One run of the list: the two field widths of the header byte, the cluster
    count and the signed cluster delta. *)
Record EncodedRun := {
  lengthFieldSize : Z;
  lengthClusters : Z;
  offsetFieldSize : Z;
  signedDelta : Z
}.

Definition encode_run (r : EncodedRun) : list byte :=
  byte_of_Z (offsetFieldSize r * 16 + lengthFieldSize r)
  :: le_bytes (Z.to_nat (lengthFieldSize r)) (lengthClusters r)
  ++ le_bytes (Z.to_nat (offsetFieldSize r)) (signedDelta r).

Definition encode_runs (rs : list EncodedRun) : list byte :=
  concat (map encode_run rs).

(** A run is well formed when both fields fit the widths of its header byte,
    widths of at most eight bytes, and the count fits a signed 64-bit
    integer; a run without offset field carries no delta. *)
Definition valid_run (r : EncodedRun) : Prop :=
  1 <= lengthFieldSize r <= 8
  /\ 0 <= lengthClusters r < 2 ^ (8 * lengthFieldSize r)
  /\ lengthClusters r < 2 ^ 63
  /\ 0 <= offsetFieldSize r <= 8
  /\ (offsetFieldSize r = 0 -> signedDelta r = 0)
  /\ (1 <= offsetFieldSize r ->
      - 2 ^ (8 * offsetFieldSize r - 1) <= signedDelta r < 2 ^ (8 * offsetFieldSize r - 1)).

Definition sum_deltas (rs : list EncodedRun) : Z :=
  fold_right (fun r acc => signedDelta r + acc) 0 rs.

Definition sum_lengths (rs : list EncodedRun) : Z :=
  fold_right (fun r acc => lengthClusters r + acc) 0 rs.

(** Every running total of the list is a signed 64-bit value. *)
Definition totals_fit (lowestVcn : Z) (rs : list EncodedRun) : Prop :=
  forall n : nat,
    - 2 ^ 63 <= sum_deltas (firstn n rs) < 2 ^ 63
    /\ lowestVcn + sum_lengths (firstn n rs) < 2 ^ 63.

(** The segments the specification expects, from running totals [vcn] and [lcn]. *)
Fixpoint expected_segments (vcn lcn : Z) (rs : list EncodedRun) : list DataRunSegment :=
  match rs with
  | [] => []
  | r :: rs' =>
      {| vcnStart := vcn; lcn := lcn + signedDelta r;
         seg_length := lengthClusters r; sparse := offsetFieldSize r =? 0 |}
      :: expected_segments (vcn + lengthClusters r) (lcn + signedDelta r) rs'
  end.

(** The non-resident attribute at [header] in [buf] carries the encoding of
    [rs] as its run list: the list starts at [RunOffset], lies within
    [Length], and ends at a zero byte or at the end of the attribute. *)
Definition encodes_run_list (buf : list byte) (header : Z)
    (pre : list byte) (rs : list EncodedRun) (post : list byte) : Prop :=
  buf = pre ++ encode_runs rs ++ post
  /\ AttributeRecordHeader.NonResident buf header <> 0
  /\ Z.of_nat (length pre) = header + AttributeRecordHeader.RunOffset buf header
  /\ Z.of_nat (length pre) + Z.of_nat (length (encode_runs rs))
      <= header + AttributeRecordHeader.Length buf header
  /\ (header + AttributeRecordHeader.Length buf header
        = Z.of_nat (length pre) + Z.of_nat (length (encode_runs rs))
      \/ nth 0 post x00 = x00)
  /\ Forall valid_run rs
  /\ totals_fit (AttributeRecordHeader.LowestVcn buf header) rs.

(** *** Fixtures: hand-authored attribute records *)

(** A non-resident attribute record header of 72 bytes followed by the run
    list bytes [runs]; [Length] covers both. *)
Definition nonresident_attribute (type lowestVcn allocatedSize dataSize : Z)
    (runs : list byte) : list byte :=
  le_bytes 4 type ++ le_bytes 4 (72 + Z.of_nat (length runs))
  ++ [x01; x00] ++ le_bytes 2 0 ++ le_bytes 2 0 ++ le_bytes 2 0
  ++ le_bytes 8 lowestVcn ++ le_bytes 8 0 ++ le_bytes 2 72 ++ le_bytes 2 0
  ++ le_bytes 4 0 ++ le_bytes 8 allocatedSize ++ le_bytes 8 dataSize
  ++ le_bytes 8 dataSize ++ le_bytes 8 0
  ++ runs.

(** The run list [length=3, lcn=+1000], [length=2, sparse] of the
    specification's second scenario. *)
Definition scenario_runs : list EncodedRun :=
  [ {| lengthFieldSize := 1; lengthClusters := 3; offsetFieldSize := 2; signedDelta := 1000 |};
    {| lengthFieldSize := 1; lengthClusters := 2; offsetFieldSize := 0; signedDelta := 0 |} ].

Definition scenario_attribute : list byte :=
  nonresident_attribute 128 0 20480 20480 (encode_runs scenario_runs ++ [x00; x00]).

(** A run whose one-byte length field is zero: header [0x11], length [00],
    delta [05], then the terminator. *)
Definition zero_length_attribute : list byte :=
  nonresident_attribute 128 0 0 0 [x11; x00; x05; x00; x00; x00; x00; x00].

(** A resident attribute record: a 24-byte header followed by the value. *)
Definition resident_attribute (type : Z) (value : list byte) : list byte :=
  le_bytes 4 type ++ le_bytes 4 (24 + Z.of_nat (length value))
  ++ [x00; x00] ++ le_bytes 2 0 ++ le_bytes 2 0 ++ le_bytes 2 0
  ++ le_bytes 4 (Z.of_nat (length value)) ++ le_bytes 2 24 ++ [x00; x00]
  ++ value.

(** A file record of [size] bytes: the 48-byte header with the [FILE] magic,
    the attribute records [attrs], the end marker and zero padding. *)
Definition file_record (flags : Z) (attrs : list byte) (size : nat) : list byte :=
  let body :=
    le_bytes 4 1162627398 ++ le_bytes 2 0 ++ le_bytes 2 0 ++ le_bytes 8 0
    ++ le_bytes 2 1 ++ le_bytes 2 1 ++ le_bytes 2 48 ++ le_bytes 2 flags
    ++ le_bytes 4 (48 + Z.of_nat (length attrs) + 8) ++ le_bytes 4 (Z.of_nat size)
    ++ le_bytes 8 0 ++ le_bytes 2 0 ++ le_bytes 2 0 ++ le_bytes 4 0
    ++ attrs ++ le_bytes 4 4294967295 ++ le_bytes 4 0 in
  body ++ repeat x00 (size - length body).

(** The output buffer of the file-record control for [record]. *)
Definition file_record_response (fileRef : Z) (record : list byte) : list byte :=
  le_bytes 8 fileRef ++ le_bytes 4 (Z.of_nat (length record)) ++ record.

(** A volume of 4096-byte clusters whose file-record control answers
    [response], whose journal is at its end, and whose bytes are [content];
    every read and write transfers what is asked. *)
Definition fixture_os (response : list byte) (content : Z -> byte) : Os.t :=
  {| Os.GetDiskFreeSpaceW := fun _ => IoOk (8, 512);
     Os.OpenVolume := fun _ => IoOk tt;
     Os.CreateOutput := fun _ => IoOk tt;
     Os.GetNtfsFileRecord := fun _ _ => IoOk (Z.of_nat (length response), response);
     Os.EnumUsnData := fun _ _ => IoFail ERROR_HANDLE_EOF;
     Os.SetFilePointerEx := fun _ => IoOk tt;
     Os.ReadCount := fun _ n => IoOk n;
     Os.WriteCount := fun _ n => IoOk n;
     Os.volume := content;
     Os.last_error := 0 |}.

(** The record of an empty file: a resident [Data] attribute without value;
    and a record whose non-resident [Data] attribute has an empty run list. *)
Definition empty_streams_record : list byte :=
  file_record 1
    (resident_attribute 128 []
     ++ nonresident_attribute 128 0 0 0 [x00; x00; x00; x00; x00; x00; x00; x00])
    1024.

(** The fourth scenario of the specification: a resident [FileName]
    attribute. *)
Definition resident_name_record : list byte :=
  file_record 1 (resident_attribute 48 (le_bytes 8 5 ++ le_bytes 56 0)) 1024.

(** *** Fixtures: file tables *)

Definition file_entry (parentRef : Z) (name : string) (isDirectory : bool) : FileEntry.t :=
  {| FileEntry.parentRef := parentRef; FileEntry.name := name;
     FileEntry.isDirectory := isDirectory |}.

Definition deleted_file (parentRef : Z) (name : string) : DeletedRecord.t :=
  {| DeletedRecord.fileRef := 42; DeletedRecord.parentRef := parentRef;
     DeletedRecord.name := name; DeletedRecord.isDirectory := false;
     DeletedRecord.timestampMs := 0; DeletedRecord.reason := USN_REASON_FILE_DELETE |}.

(** The table of the specification: A = 10 is the directory [dir] under
    B = 11, which has no name and no parent. *)
Definition dir_table : gmap Z FileEntry.t :=
  <[ 10 := file_entry 11 "dir" true ]> (<[ 11 := file_entry 0 EmptyString false ]> ∅).

(** [{A -> (A, "x", true)}]: an entry that is its own parent. *)
Definition cycle_table : gmap Z FileEntry.t :=
  <[ 10 := file_entry 10 "x" true ]> ∅.

(** A directory whose name ends in a backslash. *)
Definition backslash_table : gmap Z FileEntry.t :=
  <[ 7 := file_entry 0 "a\" true ]> ∅.

(** *** The content the specification describes

    [n] bytes of the volume from byte offset [off]. *)
Definition volume_bytes (os : Os.t) (off n : Z) : list byte :=
  map (fun i => Os.volume os (off + Z.of_nat i)) (seq 0 (Z.to_nat n)).

Definition zeros (n : Z) : list byte := repeat x00 (Z.to_nat n).

(** The output for [runs] when [remaining] bytes are still to be produced:
    in run order over the runs of positive length and while bytes remain,
    [min (length * clusterSize) remaining] bytes per run, zero for a sparse
    run or one with [lcn <= 0] and the volume bytes at [lcn * clusterSize]
    otherwise; then zero bytes up to the file size. *)
Fixpoint expected_content (os : Os.t) (clusterSize : Z) (runs : list DataRunSegment)
    (remaining : Z) : list byte :=
  match runs with
  | [] => zeros remaining
  | run :: rest =>
      if remaining <=? 0 then []
      else if seg_length run <=? 0 then expected_content os clusterSize rest remaining
      else
        let toCopy := Z.min (seg_length run * clusterSize) remaining in
        (if sparse run || (lcn run <=? 0) then zeros toCopy
         else volume_bytes os (lcn run * clusterSize) toCopy)
        ++ expected_content os clusterSize rest (remaining - toCopy)
  end.

(** Two run entries of the host that differ at most in their [vcn] field. *)
Definition same_but_vcn (v1 v2 : JsValue) : Prop :=
  IsObject v1 = IsObject v2
  /\ forall key : string, key <> "vcn"%string -> Get v1 key = Get v2 key.

(** Two segments that differ at most in [vcnStart]. *)
Definition same_extent (s1 s2 : DataRunSegment) : Prop :=
  lcn s1 = lcn s2 /\ seg_length s1 = seg_length s2 /\ sparse s1 = sparse s2.

(** Two results of the bridge's parsing that end alike: in the same error,
    or in values related by [R]. *)
Definition agree_but_vcn {A : Type} (R : A -> A -> Prop) (r1 r2 : outcome A) : Prop :=
  match r1, r2 with
  | SetError m1, SetError m2 => m1 = m2
  | Done a1, Done a2 => R a1 a2
  | _, _ => False
  end.

(** The products the writer forms for [run] do not overflow: the byte count
    of a run of positive length fits an unsigned 64-bit integer and, when the
    run is mapped, its byte offset fits a signed one. *)
Definition products_fit (clusterSize : Z) (run : DataRunSegment) : Prop :=
  (0 < seg_length run -> seg_length run * clusterSize < 2 ^ 64)
  /\ (0 < seg_length run -> sparse run = false -> 0 < lcn run ->
      lcn run * clusterSize < 2 ^ 63).

(** The same for a segment whose length is a [long long]. *)
Definition run_in_range (clusterSize : Z) (run : DataRunSegment) : Prop :=
  seg_length run < 2 ^ 63
  /\ (0 < seg_length run -> seg_length run * clusterSize < 2 ^ 64)
  /\ (0 < seg_length run -> sparse run = false -> 0 < lcn run ->
      lcn run * clusterSize < 2 ^ 63).

(** An operating system on which every call of the recovery succeeds and
    every read and write transfers all the bytes asked for. *)
Definition cooperative (os : Os.t) : Prop :=
  (forall path, Os.OpenVolume os path = IoOk tt)
  /\ (forall path, Os.CreateOutput os path = IoOk tt)
  /\ (forall distance, Os.SetFilePointerEx os distance = IoOk tt)
  /\ (forall pos n, Os.ReadCount os pos n = IoOk n)
  /\ (forall size n, Os.WriteCount os size n = IoOk n).

(** *** Fixtures: volumes and calls *)

(** A volume whose byte at offset [off] is [off / 512 + 1] (modulo 256). *)
Definition numbered_volume (off : Z) : byte := byte_of_Z (off / 512 + 1).

Definition data_run (lcn length : Z) (sparse : bool) : DataRunSegment :=
  {| vcnStart := 0; lcn := lcn; seg_length := length; sparse := sparse |}.

Definition recovery_worker (runs : list DataRunSegment) (clusterSize fileSize : Z)
  : DataRunRecoveryWorker.t :=
  {| DataRunRecoveryWorker.drive_ := "c";
     DataRunRecoveryWorker.runs_ := runs;
     DataRunRecoveryWorker.clusterSize_ := clusterSize;
     DataRunRecoveryWorker.fileSize_ := fileSize;
     DataRunRecoveryWorker.outputPath_ := L "out.bin" |}.

(** A run of 2^55 clusters of 512 bytes: 2^64 bytes. *)
Definition overflowing_run : DataRunSegment := data_run 1 36028797018963968 false.

Definition js_run (vcn lcn length : string) (sparse : bool) : JsValue :=
  JsObject [ ("vcn"%string, JsString vcn); ("lcn"%string, JsString lcn);
             ("length"%string, JsString length); ("sparse"%string, JsBoolean sparse) ].

(** A journal batch of eight bytes: the next start reference 5 and no
    record. *)
Definition empty_batch : list byte := le_bytes 8 5.

Definition initial_scan_state : ScanState.t :=
  {| ScanState.StartFileReferenceNumber := 0;
     ScanState.fileTable := ∅;
     ScanState.deleted := [] |}.

(** A volume whose journal control answers every request with [batch]. *)
Definition journal_os (bytesReturned : Z) (batch : list byte) : Os.t :=
  {| Os.GetDiskFreeSpaceW := fun _ => IoOk (8, 512);
     Os.OpenVolume := fun _ => IoOk tt;
     Os.CreateOutput := fun _ => IoOk tt;
     Os.GetNtfsFileRecord := fun _ _ => IoFail 1;
     Os.EnumUsnData := fun _ _ => IoOk (bytesReturned, batch);
     Os.SetFilePointerEx := fun _ => IoOk tt;
     Os.ReadCount := fun _ n => IoOk n;
     Os.WriteCount := fun _ n => IoOk n;
     Os.volume := fun _ => x00;
     Os.last_error := 0 |}.

(** *** Fixtures: journal batches *)

(** The UTF-16LE bytes of an ASCII name. *)
Definition wide_bytes (name : string) : list byte :=
  concat (map (fun c => le_bytes 2 (char_code c)) (list_ascii_of_string name)).

(** A [USN_RECORD_V2] with the name behind its 60-byte header, padded to a
    multiple of eight bytes. *)
Definition usn_record (fileRef parentRef timeStamp reason fileAttributes : Z)
    (name : string) : list byte :=
  let nameBytes := wide_bytes name in
  let used := (60 + length nameBytes)%nat in
  let recordLength := (8 * ((used + 7) / 8))%nat in
  le_bytes 4 (Z.of_nat recordLength) ++ le_bytes 2 2 ++ le_bytes 2 0
  ++ le_bytes 8 fileRef ++ le_bytes 8 parentRef ++ le_bytes 8 0
  ++ le_bytes 8 timeStamp ++ le_bytes 4 reason ++ le_bytes 4 0 ++ le_bytes 4 0
  ++ le_bytes 4 fileAttributes ++ le_bytes 2 (Z.of_nat (length nameBytes))
  ++ le_bytes 2 60 ++ nameBytes ++ repeat x00 (recordLength - used).

(** The journal of the specification's first scenario: the directory
    [docs] (reference 5, under 0) and the deletion of [note.txt]
    (reference 42, under 5). *)
Definition scenario_batch : list byte :=
  le_bytes 8 43
  ++ usn_record 5 0 116444736000000000 256 FILE_ATTRIBUTE_DIRECTORY "docs"
  ++ usn_record 42 5 132000000000000000 USN_REASON_FILE_DELETE 32 "note.txt".

(** A volume whose journal holds [batch] for the request that starts at
    reference 0 and ends after it. *)
Definition one_batch_os (batch : list byte) : Os.t :=
  {| Os.GetDiskFreeSpaceW := fun _ => IoOk (8, 512);
     Os.OpenVolume := fun _ => IoOk tt;
     Os.CreateOutput := fun _ => IoOk tt;
     Os.GetNtfsFileRecord := fun _ _ => IoFail 1;
     Os.EnumUsnData := fun _ start =>
       if start =? 0 then IoOk (Z.of_nat (length batch), batch)
       else IoFail ERROR_HANDLE_EOF;
     Os.SetFilePointerEx := fun _ => IoOk tt;
     Os.ReadCount := fun _ n => IoOk n;
     Os.WriteCount := fun _ n => IoOk n;
     Os.volume := fun _ => x00;
     Os.last_error := 0 |}.

(** *** Base64 decoding

    The standard decoding of the alphabet [Base64Encode] emits, against which
    the encoder is checked: four characters give three bytes, and one or two
    padding characters end the text. *)
Fixpoint base64_find (c : ascii) (alphabet : list ascii) (index : Z) : option Z :=
  match alphabet with
  | [] => None
  | x :: rest => if Ascii.eqb x c then Some index else base64_find c rest (index + 1)
  end.

Definition base64_index (c : ascii) : option Z := base64_find c base64_alphabet 0.

Definition is_padding (c : ascii) : bool := Ascii.eqb c "=".

Fixpoint Base64Decode (text : string) : option (list byte) :=
  match text with
  | EmptyString => Some []
  | String c0 (String c1 (String c2 (String c3 rest))) =>
      match base64_index c0, base64_index c1 with
      | Some i0, Some i1 =>
          let b0 := byte_of_Z (i0 * 4 + i1 / 16) in
          if is_padding c2 then
            if is_padding c3 && string_empty rest then Some [b0] else None
          else
            match base64_index c2 with
            | Some i2 =>
                let b1 := byte_of_Z ((i1 mod 16) * 16 + i2 / 4) in
                if is_padding c3 then
                  if string_empty rest then Some [b0; b1] else None
                else
                  match base64_index c3, Base64Decode rest with
                  | Some i3, Some bytes =>
                      Some (b0 :: b1 :: byte_of_Z ((i2 mod 4) * 64 + i3) :: bytes)
                  | _, _ => None
                  end
            | None => None
            end
      | _, _ => None
      end
  | _ => None
  end.

(** The number of padding characters of a text. *)
Fixpoint padding_count (text : string) : Z :=
  match text with
  | EmptyString => 0
  | String c rest => (if is_padding c then 1 else 0) + padding_count rest
  end.

(** Two memories hold the same bytes from [lo] up to [hi]. *)
Definition agree_on (lo hi : Z) (buf buf' : list byte) : Prop :=
  forall off, lo <= off < hi -> rd8 buf off = rd8 buf' off.

(** The segments continue one another: each starts at the cluster number
    the one before ends at (in 64-bit arithmetic), the first at [vcn]; and a
    sparse segment repeats the cluster address before it, the first
    [prevLcn]. *)
Fixpoint chained (vcn prevLcn : Z) (segs : list DataRunSegment) : Prop :=
  match segs with
  | [] => True
  | s :: rest =>
      vcnStart s = vcn
      /\ (sparse s = true -> lcn s = prevLcn)
      /\ chained (wrap_i64 (vcn + seg_length s)) (lcn s) rest
  end.

(** The attribute records at [ptrs] follow one another from [start] inside a
    file record that ends at [end_]: each is a whole record header with a
    type other than the end marker and a positive [Length] that stays below
    [end_], and the next starts [Length] bytes further. *)
Fixpoint record_walk (buf : list byte) (end_ start : Z) (ptrs : list Z) : Prop :=
  match ptrs with
  | [] => True
  | p :: rest =>
      p = start
      /\ p + AttributeRecordHeader.sizeof <= end_
      /\ AttributeRecordHeader.Type_ buf p <> 4294967295
      /\ 0 < AttributeRecordHeader.Length buf p
      /\ p + AttributeRecordHeader.Length buf p <= end_
      /\ record_walk buf end_ (p + AttributeRecordHeader.Length buf p) rest
  end.

(** The value of the decimal digits [d] read after [acc], as [read_digits]
    accumulates it. *)
Fixpoint uint_value (d : Decimal.uint) (acc : Z) : Z :=
  match d with
  | Decimal.Nil => acc
  | Decimal.D0 l => uint_value l (acc * 10 + 0)
  | Decimal.D1 l => uint_value l (acc * 10 + 1)
  | Decimal.D2 l => uint_value l (acc * 10 + 2)
  | Decimal.D3 l => uint_value l (acc * 10 + 3)
  | Decimal.D4 l => uint_value l (acc * 10 + 4)
  | Decimal.D5 l => uint_value l (acc * 10 + 5)
  | Decimal.D6 l => uint_value l (acc * 10 + 6)
  | Decimal.D7 l => uint_value l (acc * 10 + 7)
  | Decimal.D8 l => uint_value l (acc * 10 + 8)
  | Decimal.D9 l => uint_value l (acc * 10 + 9)
  end.

(** The run object [OnOK] builds, as the host holds it: the four properties
    set on [runObj]. *)
Definition run_value (r : RunObject.t) : JsValue :=
  JsObject [ ("vcn", JsString (RunObject.vcn r));
             ("lcn", JsString (RunObject.lcn r));
             ("length", JsString (RunObject.length r));
             ("sparse", JsBoolean (RunObject.sparse r)) ].

(** The three numbers of a segment are 64-bit signed values. *)
Definition segment_i64 (s : DataRunSegment) : Prop :=
  (- 2 ^ 63 <= vcnStart s < 2 ^ 63)
  /\ (- 2 ^ 63 <= lcn s < 2 ^ 63)
  /\ (- 2 ^ 63 <= seg_length s < 2 ^ 63).

(** ** The other entry points of the host *)

(** What a call of an entry point does: it throws a [TypeError], or queues
    a worker built from [A]. *)
Inductive bridge (A : Type) : Type :=
| Throws (msg : string)
| Queues (a : A).
Arguments Throws {A} msg.
Arguments Queues {A} a.

(** [ScanUsn]: the worker is queued with the drive string. *)
Definition ScanUsn (info : list JsValue) : bridge string :=
  match info with
  | info0 :: info1 :: _ =>
      if negb (IsString info0) then Throws "Drive letter must be a string"
      else if negb (IsFunction info1) then Throws "Callback must be a function"
      else Queues (match info0 with JsString text => text | _ => EmptyString end)
  | _ => Throws "Expected drive letter and callback"
  end.

(** [GetFileRecord]: the worker is queued with the drive string and the
    file reference. The text of a reference goes through [std::stoull]
    alone: where the number ends in the text is not looked at. *)
Definition GetFileRecord (info : list JsValue) : bridge (string * Z) :=
  match info with
  | info0 :: info1 :: info2 :: _ =>
      if negb (IsString info0) then Throws "Drive letter must be a string"
      else
        let fileReference :=
          match info1 with
          | JsString refStr =>
              match stoull refStr with
              | Converted value _ => Done value
              | _ => SetError "Invalid file reference string"
              end
          | JsNumber value =>
              if negb (Qle_bool 0 value) then SetError "File reference must be positive"
              else Done (double_to_u64 value)
          | _ => SetError "File reference must be a string or number"
          end in
        match fileReference with
        | SetError msg => Throws msg
        | Done fileReference =>
            if negb (IsFunction info2) then Throws "Callback must be a function"
            else
              Queues (match info0 with JsString text => text | _ => EmptyString end,
                      fileReference)
        end
  | _ => Throws "Expected drive letter, file reference, and callback"
  end.

(** The object [OnOK] of the scan builds for one result. The two numbers are
    doubles in the source; both are integers a double holds exactly. *)
Definition scan_object (drive_ : string) (res : ScanResult.t) : JsValue :=
  JsObject [ ("name", JsString (ScanResult.name res));
             ("path", JsString (ScanResult.fullPath res));
             ("fileReferenceNumber", JsString (to_string (ScanResult.fileRef res)));
             ("parentReferenceNumber", JsString (to_string (ScanResult.parentRef res)));
             ("isDirectory", JsBoolean (ScanResult.isDirectory res));
             ("timestampMs", JsNumber (inject_Z (ScanResult.timestampMs res)));
             ("reason", JsNumber (inject_Z (ScanResult.reason res)));
             ("drive", JsString drive_) ].

Definition ScanUsnWorker_OnOK (drive_ : string) (results_ : list ScanResult.t) : JsValue :=
  JsArray (map (scan_object drive_) results_).

(** The scan as the host sees it: an exception from the call, or what the
    callback receives, the array of results or the error; [None] when the
    enumeration does not end within [fuel] turns. *)
Definition scan (fuel : nat) (os : Os.t) (info : list JsValue)
  : option (bridge (outcome JsValue)) :=
  match ScanUsn info with
  | Throws msg => Some (Throws msg)
  | Queues drive_ =>
      match ScanUsnWorker_Execute fuel os drive_ with
      | None => None
      | Some (SetError msg) => Some (Queues (SetError msg))
      | Some (Done results_) => Some (Queues (Done (ScanUsnWorker_OnOK drive_ results_)))
      end
  end.

(** What holds of every record the scan keeps: the delete bit of its reason
    is set, its reference is a 64-bit unsigned value, and its time in
    milliseconds is small enough for a double to hold it exactly. *)
Definition reported (fileRef timestampMs reason : Z) : Prop :=
  Z.land reason USN_REASON_FILE_DELETE <> 0
  /\ 0 <= fileRef < 2 ^ 64
  /\ - 2 ^ 53 < timestampMs < 2 ^ 53.

Definition deleted_reported (r : DeletedRecord.t) : Prop :=
  reported (DeletedRecord.fileRef r) (DeletedRecord.timestampMs r) (DeletedRecord.reason r).

Definition starts_with_digit (s : string) : bool :=
  match s with
  | String c _ => match digit_of c with Some _ => true | None => false end
  | EmptyString => false
  end.

(** The size of the output file a recovery leaves, against the file size
    asked for: equal after a success, at most that after a failure that
    follows the creation of the file. *)
Definition output_size_ok (fileSize : Z) (result : recovery_result) : Prop :=
  match result with
  | Recovered output => Z.of_nat (length output) = fileSize
  | RecoveryFailed _ (Some output) => Z.of_nat (length output) <= fileSize
  | RecoveryFailed _ None => True
  end.

(** A run the writer does not read from the volume: sparse, or with a
    cluster address that is not positive. *)
Definition unmapped (run : DataRunSegment) : Prop :=
  sparse run = true \/ lcn run <= 0.

(** The runs of positive length. *)
Definition positive_runs (runs : list DataRunSegment) : list DataRunSegment :=
  List.filter (fun run => 0 <? seg_length run) runs.

(** A resident attribute record whose value length is [2^32 - 1]: the sum
    of its offset 24 and its length wraps to 23. *)
Definition wrapping_resident_attribute : list byte :=
  le_bytes 4 128 ++ le_bytes 4 24
  ++ [x00; x00] ++ le_bytes 2 0 ++ le_bytes 2 0 ++ le_bytes 2 0
  ++ le_bytes 4 4294967295 ++ le_bytes 2 24 ++ [x00; x00].

(** What [ParseFileRecord] takes from the fixed part of an attribute record
    and from its run list, and from the record header. *)
Definition attribute_core (a : AttributeInfo.t) : Z * bool * Z * Z * list DataRunSegment :=
  (AttributeInfo.type a, AttributeInfo.nonResident a, AttributeInfo.dataSize a,
   AttributeInfo.allocatedSize a, AttributeInfo.runs a).

Definition record_core (d : FileRecordDetails.t)
  : bool * bool * Z * Z * Z * list (Z * bool * Z * Z * list DataRunSegment) :=
  (FileRecordDetails.inUse d, FileRecordDetails.isDirectory d,
   FileRecordDetails.baseReference d, FileRecordDetails.hardLinkCount d,
   FileRecordDetails.flags d, map attribute_core (FileRecordDetails.attributes d)).

(** The attribute types [AttributeTypeToString] has a name for. *)
Definition known_types : list Z :=
  [16; 32; 48; 64; 80; 96; 112; 128; 144; 160; 176; 192; 208; 224; 240; 256].

(** A text of 7-bit characters. *)
Definition is_ascii (s : string) : bool :=
  forallb (fun c => char_code c <? 128) (list_ascii_of_string s).

(** A run whose eight-byte length field has its top bit set: header [0x18],
    length bytes [00 .. 00 80], delta [05], then the terminator. *)
Definition negative_length_attribute : list byte :=
  nonresident_attribute 128 0 0 0
    [x18; x00; x00; x00; x00; x00; x00; x00; x80; x05; x00; x00; x00; x00; x00; x00].

(** The length of the segment [s] is read from a length field that lies in
    the memory from [lo] up to [hi]: the header byte at [ptr] gives the width
    [w] of the field, from 1 to 15 bytes, and the field follows it. A field
    of at most seven bytes gives its unsigned little-endian value, one of
    eight bytes that value as a two's-complement 64-bit number; in every case
    the length is a 64-bit signed value. *)
Definition length_field_of (buf : list byte) (lo hi : Z) (s : DataRunSegment) : Prop :=
  exists ptr,
    lo <= ptr < hi
    /\ let w := Z.land (rd8 buf ptr) 15 in
       1 <= w <= 15
       /\ ptr + 1 + w <= hi
       /\ (w <= 7 ->
           seg_length s = rdLE (Z.to_nat w) buf (ptr + 1)
           /\ 0 <= seg_length s < 2 ^ (8 * w))
       /\ (w = 8 -> seg_length s = twos_complement 8 (rdLE 8 buf (ptr + 1)))
       /\ - 2 ^ 63 <= seg_length s < 2 ^ 63.

(** The letter a path starts with, as the specification has it: the first
    character of the drive string with a lower-case letter of the alphabet
    turned into its capital; a question mark for an empty drive string. *)
Definition small_letters : string := "abcdefghijklmnopqrstuvwxyz".
Definition capital_letters : string := "ABCDEFGHIJKLMNOPQRSTUVWXYZ".

(** The character of [upper] at the place [c] has in [lower]; [c] itself
    when it is not there. *)
Fixpoint letter_at (lower upper : string) (c : ascii) : ascii :=
  match lower, upper with
  | String l lower', String u upper' =>
      if Ascii.eqb c l then u else letter_at lower' upper' c
  | _, _ => c
  end.

Definition uppercase (c : ascii) : ascii := letter_at small_letters capital_letters c.

Definition path_drive_letter (drive : string) : ascii :=
  match drive with
  | EmptyString => "?"%char
  | String c _ => uppercase c
  end.

(** Two result objects of a scan that carry the drive strings [d1] and [d2]
    and agree on every other property. *)
Definition same_but_drive (d1 d2 : string) (v1 v2 : JsValue) : Prop :=
  Get v1 "drive" = JsString d1
  /\ Get v2 "drive" = JsString d2
  /\ forall key : string, key <> "drive"%string -> Get v1 key = Get v2 key.

(** Two scans end alike at the host: neither within the fuel, the same
    exception, the same error, or arrays of objects that differ in the
    [drive] property only. *)
Definition scans_agree (d1 d2 : string) (r1 r2 : option (bridge (outcome JsValue))) : Prop :=
  match r1, r2 with
  | None, None => True
  | Some (Throws m1), Some (Throws m2) => m1 = m2
  | Some (Queues (SetError m1)), Some (Queues (SetError m2)) => m1 = m2
  | Some (Queues (Done (JsArray a1))), Some (Queues (Done (JsArray a2))) =>
      Forall2 (same_but_drive d1 d2) a1 a2
  | _, _ => False
  end.

(** The system [os] with other answers to seeking and reading, another
    volume content and another last-error value. *)
Definition with_volume (os : Os.t) (seek : Z -> io unit) (read : Z -> Z -> io Z)
    (volume : Z -> byte) (last_error : Z) : Os.t :=
  {| Os.GetDiskFreeSpaceW := Os.GetDiskFreeSpaceW os;
     Os.OpenVolume := Os.OpenVolume os;
     Os.CreateOutput := Os.CreateOutput os;
     Os.GetNtfsFileRecord := Os.GetNtfsFileRecord os;
     Os.EnumUsnData := Os.EnumUsnData os;
     Os.SetFilePointerEx := seek;
     Os.ReadCount := read;
     Os.WriteCount := Os.WriteCount os;
     Os.volume := volume;
     Os.last_error := last_error |}.

(** * Properties *)

(** ** Machine arithmetic *)

Lemma u8_range (b : byte) : 0 <= u8 b < 256.
Proof.
  unfold u8. pose proof (Byte.to_N_bounded b). lia.
Qed.

Lemma rd8_range buf off : 0 <= rd8 buf off < 256.
Proof. apply u8_range. Qed.

Lemma wrap_i64_small z : - 2 ^ 63 <= z < 2 ^ 63 -> wrap_i64 z = z.
Proof.
  intros Hz. unfold wrap_i64. rewrite Z.mod_small; lia.
Qed.

Lemma wrap_i64_high z : 2 ^ 63 <= z < 2 ^ 64 -> wrap_i64 z = z - 2 ^ 64.
Proof.
  intros Hz. unfold wrap_i64.
  replace (z + 2 ^ 63) with ((z - 2 ^ 63) + 1 * 2 ^ 64) by lia.
  rewrite Z.mod_add by lia. rewrite Z.mod_small; lia.
Qed.

Lemma wrap_i64_range z : - 2 ^ 63 <= wrap_i64 z < 2 ^ 63.
Proof.
  unfold wrap_i64. pose proof (Z.mod_pos_bound (z + 2 ^ 63) (2 ^ 64)). lia.
Qed.

(** Bits that do not overlap add up. *)
Lemma lor_disjoint a c n :
  0 <= n -> 0 <= a < 2 ^ n -> Z.lor a (c * 2 ^ n) = a + c * 2 ^ n.
Proof.
  intros Hn Ha.
  assert (Hland : Z.land a (c * 2 ^ n) = 0).
  { apply Z.bits_inj'. intros m Hm. rewrite Z.land_spec, Z.bits_0.
    destruct (Z.lt_ge_cases m n) as [Hlt | Hge].
    - rewrite Z.mul_pow2_bits_low by lia. apply andb_false_r.
    - destruct (Z.eq_dec a 0) as [-> | Hne]; [now rewrite Z.bits_0 |].
      rewrite (Z.bits_above_log2 a m); [reflexivity | lia |].
      apply Z.lt_le_trans with n; [| lia].
      apply Z.log2_lt_pow2; lia. }
  rewrite <- Z.lxor_lor by exact Hland.
  symmetry. apply Z.add_nocarry_lxor. exact Hland.
Qed.

Lemma rdLE_range n buf off : 0 <= rdLE n buf off < 2 ^ (8 * Z.of_nat n).
Proof.
  revert off. induction n as [| n IH]; intros off.
  - simpl. lia.
  - cbn [rdLE]. specialize (IH (off + 1)). pose proof (rd8_range buf off).
    replace (8 * Z.of_nat (S n)) with (8 + 8 * Z.of_nat n) by lia.
    rewrite Z.pow_add_r by lia. change (2 ^ 8) with 256. nia.
Qed.

(** The field read one byte further: the new byte lands above the others. *)
Lemma rdLE_snoc n buf off :
  rdLE (S n) buf off
  = rdLE n buf off + rd8 buf (off + Z.of_nat n) * 2 ^ (8 * Z.of_nat n).
Proof.
  revert off. induction n as [| n IH]; intros off.
  - cbn [rdLE]. replace (off + Z.of_nat 0) with off by lia.
    change (2 ^ (8 * Z.of_nat 0)) with 1. lia.
  - change (rdLE (S (S n)) buf off) with (rd8 buf off + 256 * rdLE (S n) buf (off + 1)).
    rewrite IH. cbn [rdLE].
    replace (off + 1 + Z.of_nat n) with (off + Z.of_nat (S n)) by lia.
    replace (8 * Z.of_nat (S n)) with (8 + 8 * Z.of_nat n) by lia.
    rewrite Z.pow_add_r by lia. change (2 ^ 8) with 256. ring.
Qed.

Lemma le_or_loop_app buf data i n m value :
  le_or_loop buf data i (n + m) value
  = le_or_loop buf data (i + Z.of_nat n) m (le_or_loop buf data i n value).
Proof.
  revert i value. induction n as [| n IH]; intros i value.
  - simpl. f_equal. lia.
  - cbn [Nat.add le_or_loop]. rewrite IH. f_equal. lia.
Qed.

(** Below the eighth byte nothing wraps: the loop computes the field. *)
Lemma le_or_loop_low buf data n k :
  (k + n <= 7)%nat ->
  le_or_loop buf data (Z.of_nat k) n (rdLE k buf data) = rdLE (k + n) buf data.
Proof.
  revert k. induction n as [| n IH]; intros k Hk.
  - simpl. f_equal. lia.
  - cbn [le_or_loop].
    pose proof (rdLE_range k buf data) as Hr.
    pose proof (rd8_range buf (data + Z.of_nat k)) as Hb.
    assert (Hpow : 2 ^ (8 * Z.of_nat k) * 256 <= 2 ^ 56).
    { change 256 with (2 ^ 8). rewrite <- Z.pow_add_r by lia.
      apply Z.pow_le_mono_r; lia. }
    assert (H0 : 0 < 2 ^ (8 * Z.of_nat k)) by (apply Z.pow_pos_nonneg; lia).
    unfold shl_i64. rewrite Z.shiftl_mul_pow2 by lia.
    rewrite wrap_i64_small by (change (2 ^ 56) with 72057594037927936 in Hpow; nia).
    rewrite lor_disjoint by lia.
    rewrite <- rdLE_snoc.
    replace (Z.of_nat k + 1) with (Z.of_nat (S k)) by lia.
    rewrite IH by lia. f_equal. lia.
Qed.

Lemma le_or_loop_rdLE buf data n :
  (n <= 8)%nat -> le_or_loop buf data 0 n 0 = wrap_i64 (rdLE n buf data).
Proof.
  intros Hn. destruct (Nat.eq_dec n 8%nat) as [-> | Hne].
  - change 8%nat with (7 + 1)%nat at 1. rewrite le_or_loop_app.
    change 0 with (Z.of_nat 0) at 2.
    change (le_or_loop buf data (Z.of_nat 0) 7 0)
      with (le_or_loop buf data (Z.of_nat 0) 7 (rdLE 0 buf data)).
    rewrite le_or_loop_low by lia. cbn [Nat.add le_or_loop].
    pose proof (rdLE_range 7 buf data) as Hr.
    pose proof (rd8_range buf (data + 7)) as Hb.
    rewrite (rdLE_snoc 7).
    change (8 * Z.of_nat 7) with 56 in *. change (Z.of_nat 7) with 7.
    change (Z.of_nat 0) with 0. rewrite !Z.add_0_l.
    unfold shl_i64. rewrite Z.shiftl_mul_pow2 by lia. change (8 * 7) with 56.
    set (b := rd8 buf (data + 7)) in *. set (u := rdLE 7 buf data) in *.
    destruct (Z.lt_ge_cases b 128) as [Hlo | Hhi].
    + rewrite (wrap_i64_small (b * 2 ^ 56)) by lia.
      rewrite lor_disjoint by lia. rewrite wrap_i64_small; lia.
    + rewrite (wrap_i64_high (b * 2 ^ 56)) by lia.
      replace (b * 2 ^ 56 - 2 ^ 64) with ((b - 256) * 2 ^ 56) by lia.
      rewrite lor_disjoint by lia. rewrite wrap_i64_high; lia.
  - change 0 with (Z.of_nat 0) at 1.
    change (le_or_loop buf data (Z.of_nat 0) n 0)
      with (le_or_loop buf data (Z.of_nat 0) n (rdLE 0 buf data)).
    rewrite le_or_loop_low by lia. cbn [Nat.add].
    pose proof (rdLE_range n buf data) as Hr.
    assert (2 ^ (8 * Z.of_nat n) <= 2 ^ 56) by (apply Z.pow_le_mono_r; lia).
    rewrite wrap_i64_small; lia.
Qed.

(** ** Buffers *)

Lemma rd8_app pre l i :
  0 <= i -> rd8 (pre ++ l) (Z.of_nat (length pre) + i) = rd8 l i.
Proof.
  intros Hi. unfold rd8.
  replace (Z.to_nat (Z.of_nat (length pre) + i)) with (length pre + Z.to_nat i)%nat by lia.
  now rewrite app_nth2_plus.
Qed.

Lemma rdLE_app n pre l i :
  0 <= i -> rdLE n (pre ++ l) (Z.of_nat (length pre) + i) = rdLE n l i.
Proof.
  revert i. induction n as [| n IH]; intros i Hi; [reflexivity |].
  cbn [rdLE]. rewrite rd8_app by lia.
  replace (Z.of_nat (length pre) + i + 1) with (Z.of_nat (length pre) + (i + 1)) by lia.
  rewrite IH by lia. reflexivity.
Qed.

Lemma rdLE_le_unsigned bs post :
  rdLE (length bs) (bs ++ post) 0 = le_unsigned bs.
Proof.
  induction bs as [| b bs IH]; [reflexivity |].
  cbn [length rdLE le_unsigned]. rewrite <- IH.
  change ((b :: bs) ++ post) with ([b] ++ (bs ++ post)).
  change (0 + 1) with (Z.of_nat (length [b]) + 0).
  rewrite rdLE_app by lia. reflexivity.
Qed.

Lemma rdLE_at pre bs post :
  rdLE (length bs) (pre ++ bs ++ post) (Z.of_nat (length pre)) = le_unsigned bs.
Proof.
  replace (Z.of_nat (length pre)) with (Z.of_nat (length pre) + 0) by lia.
  rewrite rdLE_app by lia. apply rdLE_le_unsigned.
Qed.

Lemma le_unsigned_range bs : 0 <= le_unsigned bs < 2 ^ (8 * Z.of_nat (length bs)).
Proof.
  rewrite <- (rdLE_le_unsigned bs []). apply rdLE_range.
Qed.

Lemma le_unsigned_snoc lo hi :
  le_unsigned (lo ++ [hi]) = le_unsigned lo + u8 hi * 2 ^ (8 * Z.of_nat (length lo)).
Proof.
  induction lo as [| b lo IH].
  - simpl. lia.
  - cbn [app le_unsigned length]. rewrite IH.
    replace (8 * Z.of_nat (S (length lo))) with (8 + 8 * Z.of_nat (length lo)) by lia.
    rewrite Z.pow_add_r by lia. change (2 ^ 8) with 256. ring.
Qed.

Lemma u8_top_bit b : Z.testbit (u8 b) 7 = negb (Z.land (u8 b) 128 =? 0).
Proof. destruct b; reflexivity. Qed.

Lemma u8_top_bit_ge b : Z.testbit (u8 b) 7 = (128 <=? u8 b).
Proof. destruct b; reflexivity. Qed.

(** ** The signed decoder *)

Lemma sign_extend_twos_complement lo hi :
  sign_extend_spec (Z.of_nat (length (lo ++ [hi]))) hi (le_unsigned (lo ++ [hi]))
  = twos_complement (Z.of_nat (length (lo ++ [hi]))) (le_unsigned (lo ++ [hi])).
Proof.
  unfold sign_extend_spec, twos_complement.
  pose proof (le_unsigned_range (lo ++ [hi])) as Hu.
  rewrite le_unsigned_snoc in *.
  pose proof (le_unsigned_range lo) as Hl. pose proof (u8_range hi) as Hh.
  rewrite length_app in *. cbn [length] in *.
  set (n := Z.of_nat (length lo)) in *.
  replace (Z.of_nat (length lo + 1)) with (n + 1) in * by lia.
  assert (Hn : 0 <= n) by lia.
  assert (Hp : 2 ^ (8 * (n + 1)) = 256 * 2 ^ (8 * n)).
  { replace (8 * (n + 1)) with (8 + 8 * n) by lia. now rewrite Z.pow_add_r by lia. }
  assert (Hq : 2 ^ (8 * (n + 1) - 1) = 128 * 2 ^ (8 * n)).
  { replace (8 * (n + 1) - 1) with (7 + 8 * n) by lia. now rewrite Z.pow_add_r by lia. }
  assert (H0 : 0 < 2 ^ (8 * n)) by (apply Z.pow_pos_nonneg; lia).
  rewrite u8_top_bit_ge, Hq, Hp.
  destruct (128 <=? u8 hi) eqn:Htop.
  - apply Z.leb_le in Htop.
    rewrite Z.shiftl_mul_pow2 by lia.
    replace ((n + 1) * 8) with (8 * (n + 1)) by lia. rewrite Hp.
    replace (-1 * (256 * 2 ^ (8 * n))) with (-1 * 2 ^ (8 * (n + 1))) by lia.
    rewrite lor_disjoint by lia.
    destruct (Z.ltb_spec (le_unsigned lo + u8 hi * 2 ^ (8 * n)) (128 * 2 ^ (8 * n))); nia.
  - apply Z.leb_gt in Htop.
    destruct (Z.ltb_spec (le_unsigned lo + u8 hi * 2 ^ (8 * n)) (128 * 2 ^ (8 * n))); nia.
Qed.

Lemma ReadSignedValue_spec pre lo hi post :
  (length lo <= 7)%nat ->
  ReadSignedValue (pre ++ (lo ++ [hi]) ++ post) (Z.of_nat (length pre))
    (Z.of_nat (length (lo ++ [hi])))
  = twos_complement (Z.of_nat (length (lo ++ [hi]))) (le_unsigned (lo ++ [hi])).
Proof.
  intros Hlen. unfold ReadSignedValue.
  assert (Hsz : Z.of_nat (length (lo ++ [hi])) = Z.of_nat (length lo) + 1)
    by (rewrite length_app; simpl; lia).
  destruct ((_ <=? 0) || (8 <? _)) eqn:Hguard.
  { apply orb_true_iff in Hguard. destruct Hguard as [H | H];
      [apply Z.leb_le in H | apply Z.ltb_lt in H]; lia. }
  cbv zeta. rewrite Nat2Z.id.
  rewrite le_or_loop_rdLE by (rewrite length_app; simpl; lia).
  rewrite rdLE_at.
  replace (Z.of_nat (length pre) + (Z.of_nat (length (lo ++ [hi])) - 1))
    with (Z.of_nat (length pre) + Z.of_nat (length lo)) by lia.
  rewrite rd8_app by lia.
  assert (Hhi : rd8 ((lo ++ [hi]) ++ post) (Z.of_nat (length lo)) = u8 hi).
  { unfold rd8. rewrite Nat2Z.id, <- app_assoc. simpl. now rewrite nth_middle. }
  rewrite Hhi, <- u8_top_bit, u8_top_bit_ge.
  pose proof (le_unsigned_range (lo ++ [hi])) as Hu.
  unfold twos_complement. rewrite Hsz in *.
  rewrite le_unsigned_snoc in *.
  pose proof (le_unsigned_range lo) as Hl. pose proof (u8_range hi) as Hh.
  set (n := Z.of_nat (length lo)) in *.
  assert (Hn : 0 <= n <= 7) by lia.
  assert (Hp : 2 ^ (8 * (n + 1)) = 256 * 2 ^ (8 * n)).
  { replace (8 * (n + 1)) with (8 + 8 * n) by lia. now rewrite Z.pow_add_r by lia. }
  assert (Hq : 2 ^ (8 * (n + 1) - 1) = 128 * 2 ^ (8 * n)).
  { replace (8 * (n + 1) - 1) with (7 + 8 * n) by lia. now rewrite Z.pow_add_r by lia. }
  assert (H0 : 0 < 2 ^ (8 * n)) by (apply Z.pow_pos_nonneg; lia).
  assert (H56 : 2 ^ (8 * n) <= 2 ^ 56) by (apply Z.pow_le_mono_r; lia).
  rewrite Hq, Hp in *.
  set (u := le_unsigned lo + u8 hi * 2 ^ (8 * n)) in *.
  destruct (Z.ltb_spec (n + 1) 8) as [Hlt | Hge]; cbn [andb].
  - assert (H48 : 2 ^ (8 * n) <= 2 ^ 48) by (apply Z.pow_le_mono_r; lia).
    rewrite wrap_i64_small by lia.
    destruct (Z.leb_spec 128 (u8 hi)) as [Htop | Htop].
    + unfold shl_i64. rewrite Z.shiftl_mul_pow2 by lia.
      replace ((n + 1) * 8) with (8 * (n + 1)) by lia. rewrite Hp.
      rewrite wrap_i64_small by lia.
      replace (-1 * (256 * 2 ^ (8 * n))) with (-1 * 2 ^ (8 * (n + 1))) by lia.
      rewrite lor_disjoint by lia. rewrite Hp.
      destruct (Z.ltb_spec u (128 * 2 ^ (8 * n))); unfold u in *; nia.
    + destruct (Z.ltb_spec u (128 * 2 ^ (8 * n))); unfold u in *; nia.
  - assert (Hn7 : n = 7) by lia.
    assert (Hpow : 2 ^ (8 * n) = 2 ^ 56) by (now rewrite Hn7).
    rewrite Hpow in *.
    destruct (Z.ltb_spec u (128 * 2 ^ 56)).
    + rewrite wrap_i64_small by lia. reflexivity.
    + rewrite wrap_i64_high by lia. lia.
Qed.

(** C9: for a width between 1 and 8 the signed decoder returns the
    two's-complement value of the little-endian field, which is the unsigned
    value OR-ed with [-1 << (width * 8)] when the top bit of the highest byte
    is set; [FF FF] decodes to -1, [00 80] to -32768 and [7F] to 127. *)
Theorem ReadSignedValue_sign_extends (pre lo : list byte) (hi : byte) (post : list byte) :
  1 <= Z.of_nat (length (lo ++ [hi])) <= 8 ->
  let width := Z.of_nat (length (lo ++ [hi])) in
  let u := le_unsigned (lo ++ [hi]) in
  ReadSignedValue (pre ++ (lo ++ [hi]) ++ post) (Z.of_nat (length pre)) width
    = sign_extend_spec width hi u
  /\ sign_extend_spec width hi u = twos_complement width u
  /\ ReadSignedValue [xff; xff] 0 2 = -1
  /\ ReadSignedValue [x00; x80] 0 2 = -32768
  /\ ReadSignedValue [x7f] 0 1 = 127.
Proof.
  intros Hw width u. subst width u.
  assert (Hlen : (length lo <= 7)%nat) by (rewrite length_app in Hw; simpl in Hw; lia).
  split; [| split; [| repeat split]].
  - rewrite sign_extend_twos_complement. now apply ReadSignedValue_spec.
  - apply sign_extend_twos_complement.
Qed.

Lemma ReadSignedValue_sign_extends_witness :
  ReadSignedValue ([x31; x02] ++ ([x00] ++ [x80]) ++ [x00]) 2 2 = -32768.
Proof.
  pose proof (ReadSignedValue_sign_extends [x31; x02] [x00] x80 [x00]) as H.
  cbv zeta in H. destruct H as [H _]; [simpl; lia |].
  exact H.
Defined.

(** Both sides are the same concatenation, bracketed differently. *)
Ltac reassoc :=
  repeat (rewrite <- ?app_assoc; cbn [app]); reflexivity.

(** ** Authoring little-endian fields *)

Lemma u8_byte_of_Z z : u8 (byte_of_Z z) = z mod 256.
Proof.
  unfold u8, byte_of_Z.
  pose proof (Z.mod_pos_bound z 256 ltac:(lia)) as Hm.
  destruct (Byte.of_N (Z.to_N (z mod 256))) as [b |] eqn:Hb.
  - apply Byte.to_of_N in Hb. rewrite Hb. lia.
  - apply Byte.of_N_None_iff in Hb. lia.
Qed.

Lemma length_le_bytes n z : length (le_bytes n z) = n.
Proof.
  revert z. induction n as [| n IH]; intros z; simpl; [reflexivity | now rewrite IH].
Qed.

Lemma le_unsigned_le_bytes n z :
  le_unsigned (le_bytes n z) = z mod 2 ^ (8 * Z.of_nat n).
Proof.
  revert z. induction n as [| n IH]; intros z.
  - simpl. now rewrite Z.mod_1_r.
  - cbn [le_bytes le_unsigned]. rewrite IH, u8_byte_of_Z.
    replace (8 * Z.of_nat (S n)) with (8 + 8 * Z.of_nat n) by lia.
    rewrite Z.pow_add_r by lia. change (2 ^ 8) with 256.
    rewrite Z.rem_mul_r; [reflexivity | lia |].
    apply Z.pow_pos_nonneg; lia.
Qed.

Lemma le_bytes_snoc n z :
  le_bytes (S n) z = le_bytes n z ++ [byte_of_Z (z / 2 ^ (8 * Z.of_nat n))].
Proof.
  revert z. induction n as [| n IH]; intros z.
  - simpl. now rewrite Z.div_1_r.
  - change (le_bytes (S (S n)) z) with (byte_of_Z z :: le_bytes (S n) (z / 256)).
    rewrite IH. cbn [le_bytes app]. do 3 f_equal.
    replace (8 * Z.of_nat (S n)) with (8 + 8 * Z.of_nat n) by lia.
    rewrite Z.pow_add_r by lia. change (2 ^ 8) with 256.
    rewrite Z.div_div; [reflexivity | lia |].
    apply Z.pow_pos_nonneg; lia.
Qed.

Lemma twos_complement_mod width d :
  1 <= width ->
  - 2 ^ (8 * width - 1) <= d < 2 ^ (8 * width - 1) ->
  twos_complement width (d mod 2 ^ (8 * width)) = d.
Proof.
  intros Hw Hd. unfold twos_complement.
  assert (Hp : 2 ^ (8 * width) = 2 * 2 ^ (8 * width - 1)).
  { replace (8 * width) with (1 + (8 * width - 1)) at 1 by lia.
    now rewrite Z.pow_add_r by lia. }
  assert (H0 : 0 < 2 ^ (8 * width - 1)) by (apply Z.pow_pos_nonneg; lia).
  destruct (Z.lt_ge_cases d 0) as [Hneg | Hpos].
  - replace (d mod 2 ^ (8 * width)) with (d + 2 ^ (8 * width)).
    + destruct (Z.ltb_spec (d + 2 ^ (8 * width)) (2 ^ (8 * width - 1))); lia.
    + symmetry. rewrite <- (Z.mod_add d 1) by lia. rewrite Z.mul_1_l. apply Z.mod_small. lia.
  - rewrite Z.mod_small by lia.
    destruct (Z.ltb_spec d (2 ^ (8 * width - 1))); lia.
Qed.

(** ** The run-list decoder *)

Lemma header_byte_fields lsz osz :
  1 <= lsz <= 8 -> 0 <= osz <= 8 ->
  let hb := u8 (byte_of_Z (osz * 16 + lsz)) in
  hb <> 0 /\ Z.land hb 15 = lsz /\ Z.land (Z.shiftr hb 4) 15 = osz.
Proof.
  intros Hl Ho hb. subst hb. rewrite u8_byte_of_Z.
  rewrite (Z.mod_small (osz * 16 + lsz)) by lia.
  change 15 with (Z.ones 4). rewrite !Z.land_ones by lia.
  rewrite Z.shiftr_div_pow2 by lia. change (2 ^ 4) with 16.
  rewrite Z.div_add_l by lia. rewrite (Z.div_small lsz) by lia.
  rewrite Z.add_0_r, (Z.mod_small osz) by lia.
  rewrite Z.add_comm, Z.mod_add by lia. rewrite Z.mod_small by lia.
  repeat split; lia.
Qed.

Lemma length_encode_run r :
  0 <= lengthFieldSize r -> 0 <= offsetFieldSize r ->
  Z.of_nat (length (encode_run r)) = 1 + lengthFieldSize r + offsetFieldSize r.
Proof.
  intros Hl Ho. unfold encode_run. cbn [length].
  rewrite length_app, !length_le_bytes. lia.
Qed.

(** The length field of an encoded run, as the decoder's loop reads it. *)
Lemma decode_length_field pre hb r tail :
  valid_run r ->
  le_or_loop
    (pre ++ (hb :: le_bytes (Z.to_nat (lengthFieldSize r)) (lengthClusters r)
                   ++ le_bytes (Z.to_nat (offsetFieldSize r)) (signedDelta r)) ++ tail)
    (Z.of_nat (length pre) + 1) 0 (Z.to_nat (lengthFieldSize r)) 0
  = lengthClusters r.
Proof.
  intros (Hl & Hlen & Hlen63 & Ho & _ & _).
  rewrite le_or_loop_rdLE by lia.
  set (L := le_bytes (Z.to_nat (lengthFieldSize r)) (lengthClusters r)).
  set (O := le_bytes (Z.to_nat (offsetFieldSize r)) (signedDelta r)).
  replace (pre ++ (hb :: L ++ O) ++ tail) with ((pre ++ [hb]) ++ L ++ (O ++ tail))
    by reassoc.
  replace (Z.of_nat (length pre) + 1) with (Z.of_nat (length (pre ++ [hb])))
    by (rewrite length_app; simpl; lia).
  replace (Z.to_nat (lengthFieldSize r)) with (length L) at 1
    by (subst L; apply length_le_bytes).
  rewrite rdLE_at. subst L. rewrite le_unsigned_le_bytes.
  rewrite Z2Nat.id by lia. rewrite Z.mod_small by lia.
  apply wrap_i64_small. lia.
Qed.

(** The offset field of an encoded run, as [ReadSignedValue] reads it. *)
Lemma decode_offset_field pre hb r tail :
  valid_run r ->
  ReadSignedValue
    (pre ++ (hb :: le_bytes (Z.to_nat (lengthFieldSize r)) (lengthClusters r)
                   ++ le_bytes (Z.to_nat (offsetFieldSize r)) (signedDelta r)) ++ tail)
    (Z.of_nat (length pre) + 1 + lengthFieldSize r) (offsetFieldSize r)
  = signedDelta r.
Proof.
  intros (Hl & Hlen & Hlen63 & Ho & Hsparse & Hd).
  destruct (Z.eq_dec (offsetFieldSize r) 0) as [Hz | Hnz].
  - rewrite Hz. unfold ReadSignedValue. cbn [Z.leb Z.compare orb]. symmetry. auto.
  - set (L := le_bytes (Z.to_nat (lengthFieldSize r)) (lengthClusters r)).
    destruct (Z.to_nat (offsetFieldSize r)) as [| k] eqn:Hk; [lia |].
    rewrite le_bytes_snoc.
    set (lo := le_bytes k (signedDelta r)).
    set (hi := byte_of_Z (signedDelta r / 2 ^ (8 * Z.of_nat k))).
    replace (pre ++ (hb :: L ++ lo ++ [hi]) ++ tail)
      with ((pre ++ hb :: L) ++ (lo ++ [hi]) ++ tail)
      by reassoc.
    assert (Hlo : length lo = k) by (subst lo; apply length_le_bytes).
    replace (Z.of_nat (length pre) + 1 + lengthFieldSize r)
      with (Z.of_nat (length (pre ++ hb :: L)))
      by (rewrite length_app; cbn [length]; subst L; rewrite length_le_bytes; lia).
    replace (offsetFieldSize r) with (Z.of_nat (length (lo ++ [hi])))
      by (rewrite length_app, Hlo; simpl; lia).
    rewrite ReadSignedValue_spec by lia.
    subst lo hi. rewrite <- le_bytes_snoc, le_unsigned_le_bytes, length_le_bytes.
    replace (Z.of_nat (S k)) with (offsetFieldSize r) by lia.
    apply twos_complement_mod; [lia | apply Hd; lia].
Qed.

Lemma sum_deltas_cons r rs : sum_deltas (r :: rs) = signedDelta r + sum_deltas rs.
Proof. reflexivity. Qed.

Lemma sum_lengths_cons r rs : sum_lengths (r :: rs) = lengthClusters r + sum_lengths rs.
Proof. reflexivity. Qed.

(** The loop on an encoded run list, from any position and running totals. *)
Lemma run_loop_encoded rs :
  forall fuel pre post end_ vcn lcn0,
    Forall valid_run rs ->
    (length rs < fuel)%nat ->
    Z.of_nat (length pre) + Z.of_nat (length (encode_runs rs)) <= end_ ->
    (end_ = Z.of_nat (length pre) + Z.of_nat (length (encode_runs rs))
     \/ nth 0 post x00 = x00) ->
    - 2 ^ 63 <= vcn ->
    (forall n, - 2 ^ 63 <= lcn0 + sum_deltas (firstn n rs) < 2 ^ 63
               /\ vcn + sum_lengths (firstn n rs) < 2 ^ 63) ->
    run_loop fuel (pre ++ encode_runs rs ++ post) end_ (Z.of_nat (length pre)) vcn lcn0
    = expected_segments vcn lcn0 rs.
Proof.
  induction rs as [| r rs IH]; intros fuel pre post end_ vcn lcn0 Hvalid Hfuel Hend Hterm Hvcn Htot.
  - destruct fuel as [| fuel]; [lia |].
    cbn [encode_runs map concat app run_loop expected_segments].
    unfold encode_runs in Hterm. cbn [map concat length] in Hterm.
    assert (Hstop : (Z.of_nat (length pre) <? end_)
                    && negb (rd8 (pre ++ post) (Z.of_nat (length pre)) =? 0) = false).
    { destruct Hterm as [-> | H0].
      - replace (Z.of_nat (length pre) + Z.of_nat 0) with (Z.of_nat (length pre)) by lia.
        now rewrite Z.ltb_irrefl.
      - replace (Z.of_nat (length pre)) with (Z.of_nat (length pre) + 0) at 2 by lia.
        rewrite rd8_app by lia. unfold rd8. change (Z.to_nat 0) with 0%nat. rewrite H0.
        apply andb_false_r. }
    now rewrite Hstop.
  - destruct fuel as [| fuel]; [cbn [length] in Hfuel; lia |].
    apply Forall_cons_iff in Hvalid. destruct Hvalid as [Hr Hvalid].
    pose proof Hr as (Hl & Hlen & Hlen63 & Ho & Hsparse & Hd).
    change (encode_runs (r :: rs)) with (encode_run r ++ encode_runs rs) in *.
    rewrite length_app in Hend, Hterm.
    pose proof (length_encode_run r ltac:(lia) ltac:(lia)) as Hlr.
    set (enc := encode_runs rs) in *.
    pose (hb := byte_of_Z (offsetFieldSize r * 16 + lengthFieldSize r)).
    pose (L := le_bytes (Z.to_nat (lengthFieldSize r)) (lengthClusters r)).
    pose (O := le_bytes (Z.to_nat (offsetFieldSize r)) (signedDelta r)).
    change (encode_run r) with (hb :: L ++ O) in *.
    replace (pre ++ ((hb :: L ++ O) ++ enc) ++ post)
      with (pre ++ (hb :: L ++ O) ++ (enc ++ post))
      by reassoc.
    cbn [run_loop expected_segments].
    assert (Hhb : rd8 (pre ++ (hb :: L ++ O) ++ enc ++ post) (Z.of_nat (length pre)) = u8 hb).
    { replace (Z.of_nat (length pre)) with (Z.of_nat (length pre) + 0) by lia.
      rewrite rd8_app by lia. reflexivity. }
    rewrite Hhb.
    destruct (header_byte_fields (lengthFieldSize r) (offsetFieldSize r) Hl Ho)
      as (Hnz & Hlsz & Hosz).
    fold hb in Hnz, Hlsz, Hosz. rewrite Hlsz, Hosz.
    assert (Hc1 : (Z.of_nat (length pre) <? end_) && negb (u8 hb =? 0) = true).
    { apply andb_true_iff. split; [apply Z.ltb_lt; lia |].
      apply negb_true_iff. apply Z.eqb_neq. exact Hnz. }
    rewrite Hc1.
    assert (Hc2 : (lengthFieldSize r <=? 0) || (offsetFieldSize r <? 0)
                  || (end_ <? Z.of_nat (length pre) + 1 + lengthFieldSize r + offsetFieldSize r)
                  = false).
    { rewrite !orb_false_iff. repeat split;
        [apply Z.leb_gt | apply Z.ltb_ge | apply Z.ltb_ge]; lia. }
    rewrite Hc2. cbv zeta.
    subst hb L O.
    rewrite (decode_length_field pre _ r (enc ++ post) Hr).
    rewrite (decode_offset_field pre _ r (enc ++ post) Hr).
    pose proof (Htot 1%nat) as H1. cbn [firstn] in H1.
    rewrite sum_deltas_cons, sum_lengths_cons in H1.
    change (take 0 rs) with (@nil EncodedRun) in H1.
    change (sum_deltas []) with 0 in H1. change (sum_lengths []) with 0 in H1.
    rewrite !wrap_i64_small by lia.
    f_equal.
    set (hb := byte_of_Z (offsetFieldSize r * 16 + lengthFieldSize r)).
    set (L := le_bytes (Z.to_nat (lengthFieldSize r)) (lengthClusters r)).
    set (O := le_bytes (Z.to_nat (offsetFieldSize r)) (signedDelta r)).
    replace (pre ++ (hb :: L ++ O) ++ enc ++ post)
      with ((pre ++ hb :: L ++ O) ++ enc ++ post)
      by reassoc.
    replace (Z.of_nat (length pre) + 1 + lengthFieldSize r + offsetFieldSize r)
      with (Z.of_nat (length (pre ++ hb :: L ++ O)))
      by (rewrite length_app, Nat2Z.inj_add; change (hb :: L ++ O) with (encode_run r);
          fold (encode_run r) in Hlr; lia).
    assert (Hpre : Z.of_nat (length (pre ++ hb :: L ++ O))
                   = Z.of_nat (length pre) + Z.of_nat (length (hb :: L ++ O)))
      by (rewrite length_app; lia).
    fold hb L O in Hend, Hterm.
    apply IH; try assumption.
    + cbn [length] in Hfuel. lia.
    + fold enc. lia.
    + fold enc. destruct Hterm as [He | Hp]; [left; lia | right; exact Hp].
    + lia.
    + intros n. specialize (Htot (S n)). cbn [firstn] in Htot.
      rewrite sum_deltas_cons, sum_lengths_cons in Htot. lia.
Qed.

Lemma run_loop_fuel_any buf end_ :
  forall fuel1 fuel2 runPtr vcn lcn0,
    (Z.to_nat (end_ - runPtr) <= fuel1)%nat ->
    (Z.to_nat (end_ - runPtr) <= fuel2)%nat ->
    run_loop fuel1 buf end_ runPtr vcn lcn0 = run_loop fuel2 buf end_ runPtr vcn lcn0.
Proof.
  assert (Hstop : forall fuel runPtr vcn lcn0,
             end_ <= runPtr -> run_loop fuel buf end_ runPtr vcn lcn0 = []).
  { intros [| fuel] runPtr vcn lcn0 Hge; [reflexivity |].
    cbn [run_loop]. destruct (Z.ltb_spec runPtr end_); [lia | reflexivity]. }
  induction fuel1 as [| fuel1 IH]; intros fuel2 runPtr vcn lcn0 H1 H2.
  - rewrite !Hstop by lia. reflexivity.
  - destruct fuel2 as [| fuel2]; [rewrite !Hstop by lia; reflexivity |].
    cbn [run_loop].
    destruct ((runPtr <? end_) && negb (rd8 buf runPtr =? 0)); [| reflexivity].
    set (lsz := Z.land (rd8 buf runPtr) 15).
    set (osz := Z.land (Z.shiftr (rd8 buf runPtr) 4) 15).
    destruct ((lsz <=? 0) || (osz <? 0) || (end_ <? runPtr + 1 + lsz + osz)) eqn:Hg;
      [reflexivity |].
    apply orb_false_iff in Hg. destruct Hg as [Hg Hg3].
    apply orb_false_iff in Hg. destruct Hg as [Hg1 Hg2].
    apply Z.leb_gt in Hg1. apply Z.ltb_ge in Hg2. apply Z.ltb_ge in Hg3.
    cbv zeta. f_equal. apply IH; lia.
Qed.

(** The fuel [ParseRunList] gives its loop is never exhausted: more fuel
    decodes the same segments. *)
Lemma run_loop_fuel buf end_ fuel runPtr vcn lcn0 :
  (Z.to_nat (end_ - runPtr) <= fuel)%nat ->
  run_loop fuel buf end_ runPtr vcn lcn0
  = run_loop (Z.to_nat (end_ - runPtr)) buf end_ runPtr vcn lcn0.
Proof.
  intros H. apply run_loop_fuel_any; lia.
Qed.

Lemma length_encode_runs rs :
  Forall valid_run rs -> (2 * length rs <= length (encode_runs rs))%nat.
Proof.
  induction 1 as [| r rs Hr _ IH]; [simpl; lia |].
  change (encode_runs (r :: rs)) with (encode_run r ++ encode_runs rs).
  destruct Hr as (Hl & _ & _ & Ho & _).
  pose proof (length_encode_run r ltac:(lia) ltac:(lia)).
  rewrite length_app. cbn [length]. lia.
Qed.

Lemma length_expected_segments rs :
  forall vcn lcn0, length (expected_segments vcn lcn0 rs) = length rs.
Proof.
  induction rs as [| r rs IH]; intros vcn lcn0; simpl; [reflexivity | now rewrite IH].
Qed.

Lemma expected_segments_lookup rs :
  forall vcn lcn0 (i : nat) r,
    rs !! i = Some r ->
    expected_segments vcn lcn0 rs !! i
    = Some {| vcnStart := vcn + sum_lengths (take i rs);
              lcn := lcn0 + sum_deltas (take (S i) rs);
              seg_length := lengthClusters r;
              sparse := offsetFieldSize r =? 0 |}.
Proof.
  induction rs as [| r0 rs IH]; intros vcn lcn0 i r Hi; [discriminate |].
  destruct i as [| i].
  - cbn in Hi. injection Hi as ->. cbn [expected_segments lookup list_lookup].
    change (take 0 (r :: rs)) with (@nil EncodedRun).
    change (take 1 (r :: rs)) with [r].
    unfold sum_lengths, sum_deltas. cbn [fold_right].
    do 2 f_equal; lia.
  - cbn in Hi. cbn [expected_segments]. 
    change ((?x :: ?l) !! S i) with (l !! i).
    rewrite (IH _ _ i r Hi).
    change (take (S i) (r0 :: rs)) with (r0 :: take i rs).
    change (take (S (S i)) (r0 :: rs)) with (r0 :: take (S i) rs).
    rewrite sum_lengths_cons, sum_deltas_cons. do 2 f_equal; lia.
Qed.

Lemma ParseRunList_encoded buf header pre rs post :
  encodes_run_list buf header pre rs post ->
  ParseRunList buf header
  = expected_segments (AttributeRecordHeader.LowestVcn buf header) 0 rs.
Proof.
  intros (Hbuf & Hnr & Hoff & Hend & Hterm & Hvalid & Htot).
  unfold ParseRunList. apply Z.eqb_neq in Hnr. rewrite Hnr. cbv zeta.
  pose proof (rdLE_range 8 buf (header + 16)) as Hvcn.
  fold rd64 in Hvcn. fold (AttributeRecordHeader.LowestVcn buf header) in Hvcn.
  pose proof (Htot 0%nat) as H0.
  change (take 0 rs) with (@nil EncodedRun) in H0.
  change (sum_lengths []) with 0 in H0.
  change (8 * Z.of_nat 8) with 64 in Hvcn.
  rewrite wrap_i64_small by lia.
  rewrite <- Hoff.
  pose proof (length_encode_runs rs Hvalid) as Hlen.
  set (fuel := Z.to_nat _).
  destruct (Nat.eq_dec fuel 0%nat) as [Hf | Hf].
  - rewrite Hf. destruct rs as [| r rs]; [reflexivity |].
    cbn [length] in Hlen. lia.
  - rewrite Hbuf at 1.
    apply run_loop_encoded; try assumption; lia.
Qed.

(** C2: on a well-formed encoded run list the decoder yields one segment per
    run; the segment's [lcn] is the sum of the signed deltas up to and
    including its run, its length is the encoded cluster count, it is sparse
    exactly when the offset field width is 0 (and then the delta is 0), the
    first [vcnStart] is [LowestVcn] and each next one adds the previous
    length. *)
Theorem ParseRunList_round_trip (buf : list byte) (header : Z)
    (pre : list byte) (rs : list EncodedRun) (post : list byte) :
  encodes_run_list buf header pre rs post ->
  let segs := ParseRunList buf header in
  length segs = length rs
  /\ (forall (i : nat) r, rs !! i = Some r ->
        exists seg, segs !! i = Some seg
          /\ lcn seg = sum_deltas (take (S i) rs)
          /\ seg_length seg = lengthClusters r
          /\ (sparse seg = true <-> offsetFieldSize r = 0)
          /\ (sparse seg = true ->
              signedDelta r = 0 /\ lcn seg = sum_deltas (take i rs)))
  /\ (forall seg, segs !! 0%nat = Some seg ->
        vcnStart seg = AttributeRecordHeader.LowestVcn buf header)
  /\ (forall (i : nat) seg seg', segs !! i = Some seg -> segs !! S i = Some seg' ->
        vcnStart seg' = vcnStart seg + seg_length seg).
Proof.
  intros Henc segs. subst segs. rewrite (ParseRunList_encoded _ _ _ _ _ Henc).
  destruct Henc as (_ & _ & _ & _ & _ & Hvalid & _).
  set (v := AttributeRecordHeader.LowestVcn buf header).
  split; [apply length_expected_segments |].
  split; [| split].
  - intros i r Hi. eexists. split; [apply expected_segments_lookup; exact Hi |].
    cbn [lcn seg_length sparse]. split; [lia |]. split; [reflexivity |].
    assert (Hr : valid_run r).
    { rewrite Forall_forall in Hvalid. apply Hvalid.
      eapply list_elem_of_lookup_2. exact Hi. }
    destruct Hr as (_ & _ & _ & _ & Hsp & _).
    split; [apply Z.eqb_eq |]. intros H.
    assert (Hdelta : signedDelta r = 0) by (apply Hsp; now apply Z.eqb_eq).
    split; [exact Hdelta |].
    rewrite (take_S_r rs i r Hi).
    unfold sum_deltas. rewrite fold_right_app. cbn [fold_right].
    now rewrite Hdelta.
  - intros seg H0. destruct rs as [| r rs]; [discriminate |].
    cbn in H0. injection H0 as <-. reflexivity.
  - intros i seg seg' Hs Hs'.
    destruct (rs !! i) as [r |] eqn:Hi.
    2:{ apply lookup_ge_None in Hi.
        apply lookup_lt_Some in Hs. rewrite length_expected_segments in Hs. lia. }
    destruct (rs !! S i) as [r' |] eqn:Hi'.
    2:{ apply lookup_ge_None in Hi'.
        apply lookup_lt_Some in Hs'. rewrite length_expected_segments in Hs'. lia. }
    rewrite (expected_segments_lookup _ _ _ _ _ Hi) in Hs.
    rewrite (expected_segments_lookup _ _ _ _ _ Hi') in Hs'.
    injection Hs as <-. injection Hs' as <-. cbn [vcnStart seg_length].
    rewrite (take_S_r rs i r Hi).
    unfold sum_lengths. rewrite fold_right_app. cbn [fold_right].
    fold (sum_lengths (take i rs)).
    assert (Hfold : forall l a,
               fold_right (fun r acc => lengthClusters r + acc) a l
               = sum_lengths l + a).
    { induction l as [| x l IHl]; intros a; [reflexivity |].
      cbn [fold_right]. rewrite IHl. rewrite sum_lengths_cons. lia. }
    rewrite Hfold. lia.
Qed.

Lemma scenario_attribute_encodes :
  encodes_run_list scenario_attribute 0 (take 72 scenario_attribute) scenario_runs [x00; x00].
Proof.
  unfold encodes_run_list.
  split; [vm_compute; reflexivity |].
  split; [vm_compute; discriminate |].
  split; [vm_compute; reflexivity |].
  split; [vm_compute; discriminate |].
  split; [right; reflexivity |].
  split.
  - unfold scenario_runs.
    repeat (apply List.Forall_cons; [unfold valid_run; cbn; lia |]). apply List.Forall_nil.
  - intros n. replace (AttributeRecordHeader.LowestVcn scenario_attribute 0) with 0
      by (vm_compute; reflexivity).
    destruct n as [| [| n]]; cbn; try lia.
    rewrite firstn_nil. cbn. lia.
Defined.

Lemma ParseRunList_round_trip_witness :
  length (ParseRunList scenario_attribute 0) = length scenario_runs.
Proof.
  exact (proj1 (ParseRunList_round_trip _ _ _ _ _ scenario_attribute_encodes)).
Defined.

(** The second scenario of the specification: the decoded runs of
    [length=3, lcn=+1000], [length=2, sparse]. *)
Example ParseRunList_scenario :
  ParseRunList scenario_attribute 0
  = [ {| vcnStart := 0; lcn := 1000; seg_length := 3; sparse := false |};
      {| vcnStart := 3; lcn := 1000; seg_length := 2; sparse := true |} ].
Proof. vm_compute. reflexivity. Qed.

(** The decoder emits a run whose length field is zero as a segment of
    length 0: emitted lengths are not always positive. *)
Lemma ParseRunList_emits_zero_length :
  AttributeRecordHeader.NonResident zero_length_attribute 0 <> 0
  /\ ParseRunList zero_length_attribute 0
     = [ {| vcnStart := 0; lcn := 5; seg_length := 0; sparse := false |} ]
  /\ ~ Forall (fun seg => 0 < seg_length seg) (ParseRunList zero_length_attribute 0).
Proof.
  split; [vm_compute; discriminate |].
  assert (H : ParseRunList zero_length_attribute 0
              = [ {| vcnStart := 0; lcn := 5; seg_length := 0; sparse := false |} ])
    by (vm_compute; reflexivity).
  split; [exact H |].
  rewrite H. intros HF. apply Forall_cons_iff in HF. destruct HF as [Hpos _].
  cbn in Hpos. lia.
Qed.

Lemma i64_range_shiftr z : - 2 ^ 63 <= z < 2 ^ 63 <-> Z.shiftr z 63 = 0 \/ Z.shiftr z 63 = -1.
Proof.
  rewrite Z.shiftr_div_pow2 by lia. split; intros H.
  - Z.to_euclidean_division_equations. lia.
  - Z.to_euclidean_division_equations. lia.
Qed.

Lemma lor_i64_range a b :
  - 2 ^ 63 <= a < 2 ^ 63 -> - 2 ^ 63 <= b < 2 ^ 63 -> - 2 ^ 63 <= Z.lor a b < 2 ^ 63.
Proof.
  rewrite !i64_range_shiftr, Z.shiftr_lor.
  intros [-> | ->] [-> | ->]; cbn; auto.
Qed.

Lemma le_or_loop_range buf data :
  forall n i value,
    - 2 ^ 63 <= value < 2 ^ 63 -> - 2 ^ 63 <= le_or_loop buf data i n value < 2 ^ 63.
Proof.
  induction n as [| n IH]; intros i value Hv; [exact Hv |].
  cbn [le_or_loop]. apply IH. apply lor_i64_range; [exact Hv |].
  unfold shl_i64. apply wrap_i64_range.
Qed.

Lemma land_15_range x : 0 <= Z.land x 15 <= 15.
Proof.
  assert (H : Z.land x 15 = x mod 2 ^ 4)
    by (change 15 with (Z.ones 4); apply Z.land_ones; lia).
  rewrite H. pose proof (Z.mod_pos_bound x (2 ^ 4) ltac:(lia)).
  change (2 ^ 4) with 16 in *. lia.
Qed.

Lemma wrap_i64_twos_complement u :
  0 <= u < 2 ^ 64 -> wrap_i64 u = twos_complement 8 u.
Proof.
  intros Hu. unfold twos_complement.
  change (2 ^ (8 * 8 - 1)) with (2 ^ 63). change (2 ^ (8 * 8)) with (2 ^ 64).
  destruct (Z.ltb_spec u (2 ^ 63)).
  - apply wrap_i64_small. lia.
  - apply wrap_i64_high. lia.
Qed.

(** Every segment of the loop has its length from a length field between
    the start of the run list and the end of the record. *)
Lemma run_loop_length_fields buf lo end_ :
  forall fuel runPtr vcn prevLcn,
    lo <= runPtr ->
    Forall (length_field_of buf lo end_) (run_loop fuel buf end_ runPtr vcn prevLcn).
Proof.
  induction fuel as [| fuel IH]; intros runPtr vcn prevLcn Hlo; [constructor |].
  cbn [run_loop].
  destruct (Z.ltb_spec runPtr end_) as [Hlt | Hge]; [| constructor].
  cbn [andb]. destruct (negb (rd8 buf runPtr =? 0)); [| constructor].
  set (lsz := Z.land (rd8 buf runPtr) 15).
  set (osz := Z.land (Z.shiftr (rd8 buf runPtr) 4) 15).
  destruct ((lsz <=? 0) || (osz <? 0) || (end_ <? runPtr + 1 + lsz + osz)) eqn:Hg;
    [constructor |].
  apply orb_false_iff in Hg. destruct Hg as [Hg Hg3].
  apply orb_false_iff in Hg. destruct Hg as [Hg1 Hg2].
  apply Z.leb_gt in Hg1. apply Z.ltb_ge in Hg2. apply Z.ltb_ge in Hg3.
  pose proof (land_15_range (rd8 buf runPtr)) as Hw. fold lsz in Hw.
  cbv zeta. constructor; [| apply IH; lia].
  exists runPtr. split; [lia |]. fold lsz. cbv zeta. cbn [seg_length].
  split; [lia |]. split; [lia |].
  pose proof (rdLE_range (Z.to_nat lsz) buf (runPtr + 1)) as Hr.
  replace (8 * Z.of_nat (Z.to_nat lsz)) with (8 * lsz) in Hr by lia.
  split; [| split].
  - intros H7. rewrite le_or_loop_rdLE by lia.
    assert (Hp : 2 ^ (8 * lsz) <= 2 ^ 56) by (apply Z.pow_le_mono_r; lia).
    rewrite wrap_i64_small by lia. split; [reflexivity | exact Hr].
  - intros H8. rewrite H8 in *. change (Z.to_nat 8) with 8%nat in *.
    rewrite le_or_loop_rdLE by lia. apply wrap_i64_twos_complement.
    change (8 * 8) with 64 in Hr. exact Hr.
  - apply le_or_loop_range. lia.
Qed.

(** C6, amended: whatever bytes an attribute record holds, every emitted
    segment takes its length from a length field of 1 to 15 bytes inside the
    record and the length is a 64-bit signed value: the unsigned value of a
    field of at most seven bytes, hence not negative, and the
    two's-complement value of a field of eight bytes, which is negative when
    the top bit is set (the header [0x18] with the bytes [00 .. 00 80] gives
    [-2^63]). For a well-formed run list every emitted segment has the
    encoded cluster count as its length, hence a non-negative one, and a
    strictly positive one when every encoded count is non-zero. *)
Theorem ParseRunList_lengths (buf : list byte) (header : Z)
    (pre : list byte) (rs : list EncodedRun) (post : list byte) :
  Forall (length_field_of buf
            (header + AttributeRecordHeader.RunOffset buf header)
            (header + AttributeRecordHeader.Length buf header))
    (ParseRunList buf header)
  /\ map seg_length (ParseRunList negative_length_attribute 0) = [- 2 ^ 63]
  /\ (encodes_run_list buf header pre rs post ->
      map seg_length (ParseRunList buf header) = map lengthClusters rs
      /\ Forall (fun seg => 0 <= seg_length seg) (ParseRunList buf header)
      /\ (Forall (fun r => lengthClusters r <> 0) rs ->
          Forall (fun seg => 0 < seg_length seg) (ParseRunList buf header))).
Proof.
  split; [| split; [vm_compute; reflexivity |]].
  { unfold ParseRunList.
    destruct (AttributeRecordHeader.NonResident buf header =? 0); [constructor |].
    cbv zeta. apply run_loop_length_fields. lia. }
  intros Henc. rewrite (ParseRunList_encoded _ _ _ _ _ Henc).
  destruct Henc as (_ & _ & _ & _ & _ & Hvalid & _).
  generalize (AttributeRecordHeader.LowestVcn buf header) as vcn.
  assert (Hgen : forall lcn0 vcn : Z,
    map seg_length (expected_segments vcn lcn0 rs) = map lengthClusters rs
    /\ Forall (fun seg => 0 <= seg_length seg) (expected_segments vcn lcn0 rs)
    /\ (Forall (fun r => lengthClusters r <> 0) rs ->
        Forall (fun seg => 0 < seg_length seg) (expected_segments vcn lcn0 rs)));
    [| intros vcn; apply Hgen].
  induction Hvalid as [| r rs Hr Hvalid IH]; intros lcn0 vcn.
  - cbn. repeat split; auto.
  - destruct (IH (lcn0 + signedDelta r) (vcn + lengthClusters r)) as (IH1 & IH2 & IH3).
    destruct Hr as (_ & Hlen & _).
    cbn [expected_segments map]. split; [now rewrite IH1 |].
    split.
    + constructor; [cbn; lia | exact IH2].
    + intros Hnz. apply Forall_cons_iff in Hnz. destruct Hnz as [Hnz0 Hnz].
      constructor; [cbn; lia | now apply IH3].
Qed.

Lemma ParseRunList_lengths_witness :
  Forall (fun seg => 0 < seg_length seg) (ParseRunList scenario_attribute 0).
Proof.
  apply (ParseRunList_lengths scenario_attribute 0 (take 72 scenario_attribute)
           scenario_runs [x00; x00]).
  - exact scenario_attribute_encodes.
  - unfold scenario_runs.
    repeat (apply List.Forall_cons; [cbn; lia |]). apply List.Forall_nil.
Defined.

(** ** The file-record parser and the record object *)

Lemma length_read_bytes buf off count :
  length (read_bytes buf off count) = Z.to_nat count.
Proof.
  unfold read_bytes. now rewrite length_map, length_seq.
Qed.

Lemma is_nil_false_iff {A : Type} (l : list A) : is_nil l = false <-> l <> [].
Proof. destruct l; simpl; split; congruence. Qed.

(** The walk yields the parsed attributes of the offsets it visits. *)
Lemma attribute_loop_offsets buf end_ :
  forall fuel attrPtr,
    exists ptrs, attribute_loop fuel buf end_ attrPtr = map (parse_attribute buf) ptrs.
Proof.
  induction fuel as [| fuel IH]; intros attrPtr.
  - exists []. reflexivity.
  - cbn [attribute_loop].
    destruct (attrPtr + AttributeRecordHeader.sizeof <=? end_); [| now exists []].
    destruct (_ || _); [now exists [] |].
    destruct (end_ <? _); [now exists [] |].
    destruct (IH (attrPtr + AttributeRecordHeader.Length buf attrPtr)) as [ptrs Hp].
    exists (attrPtr :: ptrs). cbn [map]. now rewrite Hp.
Qed.

(** What [OnOK] sets for the attribute parsed at [p]. *)
Lemma attribute_object_fields buf p :
  let obj := attribute_object (parse_attribute buf p) in
  (is_Some (AttributeObject.runs obj)
   <-> AttributeRecordHeader.NonResident buf p <> 0 /\ ParseRunList buf p <> [])
  /\ (is_Some (AttributeObject.residentDataBase64 obj)
      <-> AttributeRecordHeader.NonResident buf p = 0
          /\ 0 < AttributeRecordHeader.ValueLength buf p
          /\ wrap_u32 (AttributeRecordHeader.ValueOffset buf p
                       + AttributeRecordHeader.ValueLength buf p)
             <= AttributeRecordHeader.Length buf p)
  /\ ~ (is_Some (AttributeObject.runs obj)
        /\ is_Some (AttributeObject.residentDataBase64 obj)).
Proof.
  unfold parse_attribute.
  destruct (Z.eqb_spec (AttributeRecordHeader.NonResident buf p) 0) as [Hres | Hnon];
    cbn [negb].
  - (* resident *)
    unfold attribute_object; cbn [AttributeInfo.runs AttributeInfo.residentData
      AttributeObject.runs AttributeObject.residentDataBase64 is_nil negb].
    split; [| split].
    + split; [intros [x Hx]; discriminate | intros [H _]; contradiction].
    + destruct (Z.leb_spec (wrap_u32 (AttributeRecordHeader.ValueOffset buf p
                                      + AttributeRecordHeader.ValueLength buf p))
                  (AttributeRecordHeader.Length buf p)) as [Hle | Hgt];
        destruct (Z.ltb_spec 0 (AttributeRecordHeader.ValueLength buf p)) as [Hpos | Hzero];
        cbn [andb is_nil negb].
      * assert (Hne : is_nil (read_bytes buf (p + AttributeRecordHeader.ValueOffset buf p)
                                (AttributeRecordHeader.ValueLength buf p)) = false).
        { apply is_nil_false_iff. intros Hnil.
          apply (f_equal (@length byte)) in Hnil.
          rewrite length_read_bytes in Hnil. simpl in Hnil. lia. }
        rewrite Hne. cbn [negb]. split; [intros _; repeat split; assumption | eauto].
      * split; [intros [x Hx]; discriminate | intros (_ & H & _); lia].
      * split; [intros [x Hx]; discriminate | intros (_ & _ & H); lia].
      * split; [intros [x Hx]; discriminate | intros (_ & H & _); lia].
    + intros [[x Hx] _]. discriminate.
  - (* non-resident *)
    unfold attribute_object; cbn [AttributeInfo.runs AttributeInfo.residentData
      AttributeObject.runs AttributeObject.residentDataBase64 is_nil negb].
    destruct (ParseRunList buf p) as [| seg segs] eqn:Hruns; cbn [is_nil negb].
    + split; [| split].
      * split; [intros [x Hx]; discriminate | intros [_ H]; congruence].
      * split; [intros [x Hx]; discriminate | intros [H _]; contradiction].
      * intros [[x Hx] _]. discriminate.
    + split; [| split].
      * split; [intros _; split; [assumption | discriminate] | eauto].
      * split; [intros [x Hx]; discriminate | intros [H _]; contradiction].
      * intros [_ [x Hx]]. discriminate.
Qed.

Lemma getFileRecord_attributes os drive fileRef record :
  getFileRecord os drive fileRef = Done record ->
  exists buf ptrs,
    RecordObject.attributes record
    = map (fun p => attribute_object (parse_attribute buf p)) ptrs.
Proof.
  unfold getFileRecord, FileRecordWorker_Execute. intros H.
  destruct drive as [| c drive]; [discriminate |].
  destruct (Os.OpenVolume os _); [| discriminate].
  destruct (Os.GetNtfsFileRecord os _ _) as [[bytesReturned buffer] |]; [| discriminate].
  destruct (bytesReturned <? _); [discriminate |].
  destruct (ParseFileRecord buffer _ _) as [details |] eqn:Hparse; [| discriminate].
  injection H as <-. cbn [FileRecordWorker_OnOK RecordObject.attributes FileRecordDetails.attributes].
  unfold ParseFileRecord in Hparse.
  destruct (_ <? FileRecordHeader.sizeof); [discriminate |].
  destruct (negb _); [discriminate |].
  injection Hparse as <-. cbn [FileRecordDetails.attributes].
  match goal with
  | |- context [attribute_loop ?f ?b ?e ?a] =>
      destruct (attribute_loop_offsets b e f a) as [ptrs Hp]; rewrite Hp
  end.
  exists buffer, ptrs. now rewrite map_map.
Qed.

(** A successful getFileRecord can return attributes with neither field: the
    resident attribute of an empty stream, and a non-resident attribute whose
    run list is empty. *)
Lemma getFileRecord_neither_field :
  exists record,
    getFileRecord (fixture_os (file_record_response 42 empty_streams_record) (fun _ => x00))
      "C" 42 = Done record
    /\ map (fun obj => (AttributeObject.nonResident obj, AttributeObject.runs obj,
                        AttributeObject.residentDataBase64 obj))
          (RecordObject.attributes record)
       = [ (false, None, None); (true, None, None) ].
Proof.
  eexists. split; [vm_compute; reflexivity |]. vm_compute. reflexivity.
Qed.

(** C3, amended: in the record object of a successful getFileRecord no
    attribute has both fields; [runs] is present exactly when the attribute is
    non-resident and its run list decodes to at least one segment, and
    [residentDataBase64] exactly when it is resident with a non-empty value
    and the sum of [ValueOffset] and [ValueLength], taken modulo [2^32] as
    the check takes it, is at most [Length]; when the sum is below [2^32]
    that is exactly when the value lies within the attribute. *)
Theorem getFileRecord_runs_xor_resident (os : Os.t) (drive : string) (fileRef : Z)
    (record : RecordObject.t) :
  getFileRecord os drive fileRef = Done record ->
  exists buf ptrs,
    RecordObject.attributes record
    = map (fun p => attribute_object (parse_attribute buf p)) ptrs
    /\ forall p,
        let obj := attribute_object (parse_attribute buf p) in
        (is_Some (AttributeObject.runs obj)
         <-> AttributeRecordHeader.NonResident buf p <> 0 /\ ParseRunList buf p <> [])
        /\ (is_Some (AttributeObject.residentDataBase64 obj)
            <-> AttributeRecordHeader.NonResident buf p = 0
                /\ 0 < AttributeRecordHeader.ValueLength buf p
                /\ wrap_u32 (AttributeRecordHeader.ValueOffset buf p
                             + AttributeRecordHeader.ValueLength buf p)
                   <= AttributeRecordHeader.Length buf p)
        /\ ~ (is_Some (AttributeObject.runs obj)
              /\ is_Some (AttributeObject.residentDataBase64 obj))
        /\ (AttributeRecordHeader.ValueOffset buf p
            + AttributeRecordHeader.ValueLength buf p < 2 ^ 32 ->
            (is_Some (AttributeObject.residentDataBase64 obj)
             <-> AttributeRecordHeader.NonResident buf p = 0
                 /\ 0 < AttributeRecordHeader.ValueLength buf p
                 /\ AttributeRecordHeader.ValueOffset buf p
                    + AttributeRecordHeader.ValueLength buf p
                    <= AttributeRecordHeader.Length buf p)).
Proof.
  intros H. destruct (getFileRecord_attributes _ _ _ _ H) as (buf & ptrs & Hattrs).
  exists buf, ptrs. split; [exact Hattrs |].
  intros p. pose proof (attribute_object_fields buf p) as Hfields. cbv zeta in *.
  destruct Hfields as (Hruns & Hres & Hboth).
  split; [exact Hruns |]. split; [exact Hres |]. split; [exact Hboth |].
  intros Hsum. rewrite Hres.
  pose proof (rdLE_range 2 buf (p + 20)) as Ho.
  pose proof (rdLE_range 4 buf (p + 16)) as Hv.
  fold rd16 in Ho. fold (AttributeRecordHeader.ValueOffset buf p) in Ho.
  fold rd32 in Hv. fold (AttributeRecordHeader.ValueLength buf p) in Hv.
  unfold wrap_u32. rewrite Z.mod_small by lia. reflexivity.
Qed.

Lemma getFileRecord_runs_xor_resident_witness :
  exists record,
    getFileRecord (fixture_os (file_record_response 42 resident_name_record) (fun _ => x00))
      "C" 42 = Done record
    /\ exists buf ptrs,
        RecordObject.attributes record
        = map (fun p => attribute_object (parse_attribute buf p)) ptrs.
Proof.
  eexists. split; [vm_compute; reflexivity |].
  match goal with
  | |- exists buf ptrs, RecordObject.attributes ?r = _ =>
      destruct (getFileRecord_runs_xor_resident
                  (fixture_os (file_record_response 42 resident_name_record) (fun _ => x00))
                  "C" 42 r ltac:(vm_compute; reflexivity))
        as (buf & ptrs & Hattrs & _)
  end.
  exists buf, ptrs. exact Hattrs.
Defined.

(** ** Strings *)

Lemma string_app_nil_l (s : string) : (EmptyString ++ s)%string = s.
Proof. reflexivity. Qed.

Lemma string_app_cons (c : ascii) (s t : string) :
  (String c s ++ t)%string = String c (s ++ t).
Proof. reflexivity. Qed.

Lemma string_app_nil_r (s : string) : (s ++ EmptyString)%string = s.
Proof.
  induction s as [| c s IH]; [reflexivity |].
  now rewrite string_app_cons, IH.
Qed.

Lemma string_app_assoc (a b c : string) :
  ((a ++ b) ++ c)%string = (a ++ (b ++ c))%string.
Proof.
  induction a as [| x a IH]; [reflexivity |].
  now rewrite !string_app_cons, IH.
Qed.

Lemma back_app (a b : string) :
  back (a ++ b) = if string_empty b then back a else back b.
Proof.
  induction a as [| x a IH].
  - rewrite string_app_nil_l. now destruct b.
  - destruct a as [| y a].
    + rewrite string_app_cons, string_app_nil_l. destruct b; reflexivity.
    + change (back (String x (String y a) ++ b))
        with (back (String y a ++ b)).
      rewrite IH. reflexivity.
Qed.

Lemma string_empty_app (a b : string) :
  string_empty (a ++ b) = string_empty a && string_empty b.
Proof. destruct a; [rewrite string_app_nil_l; now destruct b | reflexivity]. Qed.

Lemma ends_with_backslash_app (a b : string) :
  ends_with_backslash (a ++ b)
  = if string_empty b then ends_with_backslash a else ends_with_backslash b.
Proof.
  unfold ends_with_backslash. rewrite back_app. now destruct (string_empty b).
Qed.

Lemma append_segment_after_backslash (acc s : string) :
  ends_with_backslash acc = true -> append_segment acc s = (acc ++ s)%string.
Proof.
  unfold append_segment, ends_with_backslash. intros H. rewrite H.
  now rewrite andb_false_r.
Qed.

Lemma append_segment_separator (acc s : string) :
  string_empty acc = false -> ends_with_backslash acc = false ->
  append_segment acc s = ((acc ++ "\") ++ s)%string.
Proof.
  unfold append_segment, ends_with_backslash. intros He H. now rewrite He, H.
Qed.

(** ** Path reconstruction *)

Lemma collect_segments_acc fileTable :
  forall fuel current acc,
    collect_segments fuel fileTable current acc
    = acc ++ collect_segments fuel fileTable current [].
Proof.
  induction fuel as [| fuel IH]; intros current acc.
  - simpl. now rewrite app_nil_r.
  - cbn [collect_segments].
    destruct (current =? 0); [now rewrite app_nil_r |].
    destruct (fileTable !! current) as [entry |]; [| now rewrite app_nil_r].
    destruct (string_empty (FileEntry.name entry));
      destruct (current =? FileEntry.parentRef entry);
      rewrite ?app_nil_r; try reflexivity.
    + apply IH.
    + rewrite IH. rewrite (IH _ ([] ++ _)). now rewrite app_assoc.
Qed.

(** The walk of the code collects the ancestors the specification names. *)
Lemma collect_segments_ancestors fileTable :
  forall fuel current depth,
    (depth + fuel = maxDepth)%nat ->
    ancestors fileTable current depth (collect_segments fuel fileTable current []).
Proof.
  induction fuel as [| fuel IH]; intros current depth Hd.
  - replace depth with maxDepth by lia. simpl.
    destruct (Z.eq_dec current 0) as [-> | Hne]; [constructor | now constructor].
  - cbn [collect_segments].
    destruct (Z.eqb_spec current 0) as [-> | Hne]; [constructor |].
    destruct (fileTable !! current) as [entry |] eqn:Hlook.
    2:{ apply ancestors_missing; [assumption | lia | assumption]. }
    assert (Hseg : (if string_empty (FileEntry.name entry) then []
                    else [] ++ [FileEntry.name entry]) = name_segment entry).
    { unfold name_segment. now destruct (string_empty _). }
    rewrite Hseg.
    destruct (Z.eqb_spec current (FileEntry.parentRef entry)) as [Heq | Hneq].
    + apply (ancestors_self fileTable current depth entry); auto; lia.
    + rewrite collect_segments_acc.
      apply (ancestors_parent fileTable current depth entry); auto; try lia.
      apply IH. lia.
Qed.

(** The ancestors of an entry are determined by the file table. *)
Lemma ancestors_unique fileTable current depth segs1 :
  ancestors fileTable current depth segs1 ->
  forall segs2, ancestors fileTable current depth segs2 -> segs1 = segs2.
Proof.
  unfold maxDepth.
  induction 1 as [d | c Hc | c d Hc Hd Hl | c d e Hc Hd Hl He | c d e segs Hc Hd Hl He Hanc IH];
    intros segs2 H2; inversion H2; subst; try reflexivity; try congruence; try lia.
  assert (entry = e) by congruence. subst entry. f_equal. now apply IH.
Qed.

Lemma ancestors_nonempty fileTable current depth segs :
  ancestors fileTable current depth segs ->
  Forall (fun s => string_empty s = false) segs.
Proof.
  assert (Hname : forall e, Forall (fun s => string_empty s = false) (name_segment e)).
  { intros e. unfold name_segment.
    destruct (string_empty (FileEntry.name e)) eqn:He; [constructor |].
    repeat constructor. exact He. }
  induction 1; try constructor; auto.
  - apply Forall_app. split; auto.
Qed.

Lemma ancestors_depth_cap fileTable current depth segs :
  ancestors fileTable current depth segs ->
  (depth <= maxDepth)%nat -> (length segs + depth <= maxDepth)%nat.
Proof.
  induction 1 as [d | c Hc | c d Hc Hd Hl | c d e Hc Hd Hl He | c d e segs Hc Hd Hl He Hanc IH];
    intros Hle; cbn [length]; try lia.
  - unfold name_segment. destruct (string_empty _); cbn [length]; lia.
  - rewrite length_app. specialize (IH ltac:(lia)).
    unfold name_segment. destruct (string_empty _); cbn [length]; lia.
Qed.

Lemma join_path_cons s t rest :
  join_path (s :: t :: rest)
  = (s ++ (if ends_with_backslash s then EmptyString else "\") ++ join_path (t :: rest))%string.
Proof. reflexivity. Qed.

(** The appending loop, entered with a path that ends in a backslash. *)
Lemma fold_append_segment front :
  forall last acc,
    Forall (fun s => string_empty s = false) front ->
    ends_with_backslash acc = true ->
    fold_left append_segment (front ++ [last]) acc
    = (acc ++ join_path (front ++ [last]))%string.
Proof.
  induction front as [| s front IH]; intros last acc Hne Hacc.
  - simpl. now apply append_segment_after_backslash.
  - apply Forall_cons in Hne. destruct Hne as [Hs Hne].
    change ((s :: front) ++ [last]) with (s :: (front ++ [last])).
    cbn [fold_left]. rewrite (append_segment_after_backslash _ _ Hacc).
    destruct (front ++ [last]) as [| t rest] eqn:Hrest; [now destruct front |].
    rewrite join_path_cons.
    assert (Hends : ends_with_backslash (acc ++ s) = ends_with_backslash s)
      by (rewrite ends_with_backslash_app, Hs; reflexivity).
    destruct (ends_with_backslash s) eqn:Hbs.
    + rewrite <- Hrest in *. rewrite IH by assumption.
      now rewrite string_app_assoc, string_app_nil_l.
    + cbn [fold_left].
      rewrite append_segment_separator;
        [| rewrite string_empty_app, Hs; apply andb_false_r | assumption].
      rewrite <- (append_segment_after_backslash ((acc ++ s) ++ "\") t)
        by (rewrite ends_with_backslash_app; reflexivity).
      change (fold_left append_segment rest (append_segment ((acc ++ s) ++ "\") t))
        with (fold_left append_segment (t :: rest) ((acc ++ s) ++ "\")%string).
      rewrite <- Hrest in *. rewrite IH;
        [| assumption | rewrite ends_with_backslash_app; reflexivity].
      now rewrite !string_app_assoc.
Qed.

Lemma join_path_join_backslash front :
  forall last,
    Forall (fun s => ends_with_backslash s = false) front ->
    join_path (front ++ [last]) = join_backslash (front ++ [last]).
Proof.
  induction front as [| s front IH]; intros last Hbs; [reflexivity |].
  apply Forall_cons in Hbs. destruct Hbs as [Hs Hbs].
  change ((s :: front) ++ [last]) with (s :: (front ++ [last])).
  specialize (IH last Hbs).
  destruct (front ++ [last]) as [| t rest] eqn:Hrest; [now destruct front |].
  rewrite join_path_cons, Hs, IH. reflexivity.
Qed.

(** The two reconstructions the specification gives. *)
Example reconstruct_path_dir :
  reconstruct_path "D" dir_table (deleted_file 10 "f.txt") = "D:\dir\f.txt"%string.
Proof. vm_compute. reflexivity. Qed.

Example reconstruct_path_cycle :
  reconstruct_path "D" cycle_table (deleted_file 10 "f.txt") = "D:\x\f.txt"%string.
Proof. vm_compute. reflexivity. Qed.

(** After a directory name that ends in a backslash the code adds no
    separator: the path is not the segments joined by backslashes. *)
Lemma reconstruct_path_not_joined :
  reconstruct_path "d" backslash_table (deleted_file 7 "f") = "D:\a\f"%string
  /\ ancestors backslash_table 7 0 ["a\"%string]
  /\ String "D" (":\" ++ join_backslash ["a\"; "f"]) = "D:\a\\f"%string
  /\ reconstruct_path "d" backslash_table (deleted_file 7 "f")
     <> String "D" (":\" ++ join_backslash ["a\"; "f"])%string.
Proof.
  split; [vm_compute; reflexivity |].
  split.
  - apply (ancestors_parent backslash_table 7 0 (file_entry 0 "a\" true) []);
      [lia | unfold maxDepth; lia | reflexivity | cbn; lia | constructor].
  - split; [vm_compute; reflexivity |]. vm_compute. discriminate.
Qed.

(** The letter the code puts in front is the capital of the specification. *)
Lemma upperDriveChar_capital drive_ : upperDriveChar drive_ = path_drive_letter drive_.
Proof.
  destruct drive_ as [| c rest]; [reflexivity |].
  unfold upperDriveChar, path_drive_letter.
  destruct c as [[] [] [] [] [] [] [] []]; reflexivity.
Qed.

(** C8, amended: the reconstructed path is the first character of the drive
    string with a lower-case letter turned into its capital (a question mark
    for an empty drive string),
    [:\], and the entry's name preceded by the non-empty names of its
    ancestors, outermost first; the ancestors are found by repeated parent
    lookup that ends at reference 0, after a self-referential entry, at a
    missing entry or at the depth cap of 1024. The segments are joined by a
    backslash, none being added after a segment that already ends in one; so
    they are joined by backslashes when no ancestor name ends in one. *)
Theorem reconstruct_path_spec (drive_ : string) (fileTable : gmap Z FileEntry.t)
    (item : DeletedRecord.t) :
  exists segments,
    ancestors fileTable (DeletedRecord.parentRef item) 0 segments
    /\ (length segments <= maxDepth)%nat
    /\ reconstruct_path drive_ fileTable item
       = String (path_drive_letter drive_)
           (":\" ++ join_path (rev segments ++ [DeletedRecord.name item]))
    /\ (Forall (fun s => ends_with_backslash s = false) segments ->
        reconstruct_path drive_ fileTable item
        = String (path_drive_letter drive_)
            (":\" ++ join_backslash (rev segments ++ [DeletedRecord.name item]))).
Proof.
  set (segments := collect_segments maxDepth fileTable (DeletedRecord.parentRef item) []).
  assert (Hanc : ancestors fileTable (DeletedRecord.parentRef item) 0 segments)
    by (apply collect_segments_ancestors; reflexivity).
  assert (Hpath : reconstruct_path drive_ fileTable item
                  = String (path_drive_letter drive_)
                      (":\" ++ join_path (rev segments ++ [DeletedRecord.name item]))).
  { rewrite <- upperDriveChar_capital. unfold reconstruct_path.
    rewrite collect_segments_acc. fold segments.
    rewrite rev_app_distr. change (rev [DeletedRecord.name item]) with [DeletedRecord.name item].
    rewrite fold_append_segment.
    - reflexivity.
    - apply Forall_rev. exact (ancestors_nonempty _ _ _ _ Hanc).
    - reflexivity. }
  exists segments. split; [exact Hanc |]. split.
  - pose proof (ancestors_depth_cap _ _ _ _ Hanc ltac:(lia)). lia.
  - split; [exact Hpath |]. intros Hbs. rewrite Hpath.
    rewrite join_path_join_backslash; [reflexivity |]. now apply Forall_rev.
Qed.

(** ** The journal enumeration *)

(** A batch of at most eight bytes leaves the whole state as it is, the
    start reference included. *)
Lemma enum_step_empty_batch st bytesReturned buffer :
  bytesReturned <= 8 -> enum_step st (IoOk (bytesReturned, buffer)) = Reissue st.
Proof.
  intros H. unfold enum_step. apply Z.leb_le in H. now rewrite H.
Qed.

(** Against a journal control that answers such a batch, the enumeration
    repeats the same request and does not end. *)
Lemma enum_loop_empty_batch_spins os volumePath st bytesReturned buffer :
  Os.EnumUsnData os volumePath (ScanState.StartFileReferenceNumber st)
    = IoOk (bytesReturned, buffer) ->
  bytesReturned <= 8 ->
  forall fuel, enum_loop fuel os volumePath st = None.
Proof.
  intros Hans Hle fuel. induction fuel as [| fuel IH]; [reflexivity |].
  cbn [enum_loop]. rewrite Hans, enum_step_empty_batch by assumption. exact IH.
Qed.

(** C4: on the eight-byte batch that carries the next start reference 5,
    the next request is issued with the start reference 0 of the request
    before, not with 5; the scan then never ends. *)
Theorem enum_step_keeps_start_reference :
  rd64 empty_batch 0 = 5
  /\ enum_step initial_scan_state (IoOk (8, empty_batch)) = Reissue initial_scan_state
  /\ ScanState.StartFileReferenceNumber initial_scan_state = 0
  /\ forall fuel, ScanUsnWorker_Execute fuel (journal_os 8 empty_batch) "C" = None.
Proof.
  split; [vm_compute; reflexivity |].
  split; [apply enum_step_empty_batch; lia |].
  split; [reflexivity |].
  intros fuel. unfold ScanUsnWorker_Execute. cbn [journal_os Os.OpenVolume].
  rewrite (enum_loop_empty_batch_spins _ _ _ 8 empty_batch); [reflexivity | reflexivity | lia].
Qed.

(** A batch with records does advance the start reference. *)
Lemma enum_step_advances st bytesReturned buffer :
  8 < bytesReturned ->
  exists st',
    enum_step st (IoOk (bytesReturned, buffer)) = Reissue st'
    /\ ScanState.StartFileReferenceNumber st' = rd64 buffer 0.
Proof.
  intros H. unfold enum_step. apply Z.leb_gt in H. rewrite H.
  destruct (record_loop _ _ _ _ _ _) as [fileTable deleted].
  eexists. split; reflexivity.
Qed.

(** ** The device path *)

(** C5: for the drive [c], getFileRecord and recoverDataRuns open
    [\\.\C:], but scan opens [\.\C:], one backslash short. *)
Theorem ScanUsnWorker_volumePath_short :
  FileRecordWorker_volumePath "c" = L "\\.\C:"
  /\ DataRunRecoveryWorker_volumePath "c" = L "\\.\C:"
  /\ ScanUsnWorker_volumePath "c" = L "\.\C:"
  /\ ScanUsnWorker_volumePath "c" <> L "\\.\C:".
Proof.
  repeat split; try (vm_compute; reflexivity). vm_compute. discriminate.
Qed.

(** For every drive character the two other operations build the device
    path of the specification. *)
Lemma volumePath_uppercased (c : ascii) :
  FileRecordWorker_volumePath c = L "\\.\" ++ [towupper (char_code c)] ++ L ":"
  /\ DataRunRecoveryWorker_volumePath c = L "\\.\" ++ [towupper (char_code c)] ++ L ":".
Proof. split; reflexivity. Qed.

(** ** Integer parsing *)

(** C7: the file size ["-1"] is not rejected: the parser returns success
    with 2^64 - 1 and the worker is queued with that size, whereas the
    number -1 is refused. *)
Theorem RecoverDataRuns_accepts_negative_string :
  TryParseUnsigned "-1" 0 = (true, 18446744073709551615)
  /\ RecoverDataRuns
       [ JsString "c"; JsArray [js_run "0" "1000" "3" false]; JsString "4096";
         JsString "-1"; JsString "out.bin"; JsFunction ]
     = Queued
         {| DataRunRecoveryWorker.drive_ := "c";
            DataRunRecoveryWorker.runs_ :=
              [ {| vcnStart := 0; lcn := 1000; seg_length := 3; sparse := false |} ];
            DataRunRecoveryWorker.clusterSize_ := 4096;
            DataRunRecoveryWorker.fileSize_ := 18446744073709551615;
            DataRunRecoveryWorker.outputPath_ := L "out.bin" |}
  /\ RecoverDataRuns
       [ JsString "c"; JsArray [js_run "0" "1000" "3" false]; JsString "4096";
         JsNumber (-1 # 1); JsString "out.bin"; JsFunction ]
     = Threw "File size must be positive".
Proof.
  repeat split; vm_compute; reflexivity.
Qed.

(** A string the parser does not accept makes the call throw before any
    worker is queued. *)
Lemma RecoverDataRuns_rejects_unparsed info0 info1 text info3 info4 info5 rest :
  IsString info0 = true -> IsArray info1 = true ->
  fst (TryParseUnsigned text 0) = false ->
  RecoverDataRuns (info0 :: info1 :: JsString text :: info3 :: info4 :: info5 :: rest)
  = Threw "Invalid cluster size".
Proof.
  intros H0 H1 Hp. unfold RecoverDataRuns. rewrite H0, H1. cbn [negb].
  destruct (TryParseUnsigned text 0) as [ok value]. cbn in Hp. now rewrite Hp.
Qed.

(** ** The recovery writer does not read [vcnStart] *)

Lemma parse_run_entry_same_but_vcn v1 v2 :
  same_but_vcn v1 v2 ->
  agree_but_vcn same_extent (parse_run_entry v1) (parse_run_entry v2).
Proof.
  intros [Hobj Hget]. unfold parse_run_entry.
  rewrite Hobj, (Hget "length"%string), (Hget "lcn"%string), (Hget "sparse"%string)
    by discriminate.
  destruct (negb (IsObject v2)); [reflexivity |].
  destruct (signed_field (Get v2 "length") _ _); [| reflexivity].
  destruct (signed_field (Get v2 "lcn") _ _); [| reflexivity].
  cbn. repeat split.
Qed.

Lemma ParseRunsArray_same_but_vcn array1 array2 :
  Forall2 same_but_vcn array1 array2 ->
  agree_but_vcn (Forall2 same_extent) (ParseRunsArray array1) (ParseRunsArray array2).
Proof.
  induction 1 as [| v1 v2 array1 array2 Hv _ IH]; [constructor |].
  cbn [ParseRunsArray].
  pose proof (parse_run_entry_same_but_vcn v1 v2 Hv) as Hentry.
  destruct (parse_run_entry v1) as [s1 | m1], (parse_run_entry v2) as [s2 | m2];
    cbn in Hentry; try contradiction; [| exact Hentry].
  destruct (ParseRunsArray array1) as [l1 | m1], (ParseRunsArray array2) as [l2 | m2];
    cbn in IH; try contradiction; [| exact IH].
  cbn. now constructor.
Qed.

Lemma copy_runs_same_extent fuel os clusterSize_ zeroBuffer runs1 runs2 :
  Forall2 same_extent runs1 runs2 ->
  forall remaining output,
    copy_runs fuel os clusterSize_ zeroBuffer runs1 remaining output
    = copy_runs fuel os clusterSize_ zeroBuffer runs2 remaining output.
Proof.
  induction 1 as [| s1 s2 runs1 runs2 (Hlcn & Hlen & Hsp) _ IH]; intros remaining output;
    [reflexivity |].
  cbn [copy_runs]. rewrite Hlcn, Hlen, Hsp.
  destruct (remaining =? 0); [reflexivity |].
  destruct (seg_length s2 <=? 0); [apply IH |].
  cbv zeta.
  match goal with
  | |- match ?c with _ => _ end = _ => destruct c as [[output' | msg output'] |]
  end; try reflexivity.
  apply IH.
Qed.

Lemma Execute_same_extent fuel os drive_ runs1 runs2 clusterSize_ fileSize_ outputPath_ :
  Forall2 same_extent runs1 runs2 ->
  DataRunRecoveryWorker_Execute fuel os
    {| DataRunRecoveryWorker.drive_ := drive_; DataRunRecoveryWorker.runs_ := runs1;
       DataRunRecoveryWorker.clusterSize_ := clusterSize_;
       DataRunRecoveryWorker.fileSize_ := fileSize_;
       DataRunRecoveryWorker.outputPath_ := outputPath_ |}
  = DataRunRecoveryWorker_Execute fuel os
      {| DataRunRecoveryWorker.drive_ := drive_; DataRunRecoveryWorker.runs_ := runs2;
         DataRunRecoveryWorker.clusterSize_ := clusterSize_;
         DataRunRecoveryWorker.fileSize_ := fileSize_;
         DataRunRecoveryWorker.outputPath_ := outputPath_ |}.
Proof.
  intros Hruns. unfold DataRunRecoveryWorker_Execute.
  cbn [DataRunRecoveryWorker.drive_ DataRunRecoveryWorker.runs_
       DataRunRecoveryWorker.clusterSize_ DataRunRecoveryWorker.fileSize_
       DataRunRecoveryWorker.outputPath_].
  now rewrite (copy_runs_same_extent _ _ _ _ _ _ Hruns).
Qed.

(** C10: two calls whose run entries differ only in their [vcn] fields end
    alike: the same exception, or the same worker result with the same
    output-file bytes, against every operating system. *)
Theorem recoverDataRuns_ignores_vcn (fuel : nat) (os : Os.t)
    (drive : JsValue) (runs1 runs2 : list JsValue)
    (clusterSize fileSize outputPath callback : JsValue) (rest : list JsValue) :
  Forall2 same_but_vcn runs1 runs2 ->
  recoverDataRuns fuel os
    (drive :: JsArray runs1 :: clusterSize :: fileSize :: outputPath :: callback :: rest)
  = recoverDataRuns fuel os
      (drive :: JsArray runs2 :: clusterSize :: fileSize :: outputPath :: callback :: rest).
Proof.
  intros Hruns. unfold recoverDataRuns, RecoverDataRuns.
  destruct (negb (IsString drive)); [reflexivity |].
  cbn [IsArray negb].
  match goal with
  | |- context [match ?c with Done _ => _ | SetError _ => _ end] =>
      destruct c as [cs | msg]; [| reflexivity]
  end.
  match goal with
  | |- context [match ?c with Done _ => _ | SetError _ => _ end] =>
      destruct c as [fs | msg]; [| reflexivity]
  end.
  destruct (negb (IsString outputPath)); [reflexivity |].
  destruct (negb (IsFunction callback)); [reflexivity |].
  pose proof (ParseRunsArray_same_but_vcn _ _ Hruns) as Hparse.
  destruct (ParseRunsArray runs1) as [l1 | m1], (ParseRunsArray runs2) as [l2 | m2];
    cbn in Hparse; try contradiction; [| now rewrite Hparse].
  now rewrite (Execute_same_extent _ _ _ _ _ _ _ _ Hparse).
Qed.

Lemma recoverDataRuns_ignores_vcn_witness :
  recoverDataRuns 100 (fixture_os [] numbered_volume)
    [ JsString "c"; JsArray [js_run "0" "3" "2" false; js_run "2" "0" "1" true];
      JsString "512"; JsString "1536"; JsString "out.bin"; JsFunction ]
  = recoverDataRuns 100 (fixture_os [] numbered_volume)
      [ JsString "c"; JsArray [js_run "77" "3" "2" false; js_run "x" "0" "1" true];
        JsString "512"; JsString "1536"; JsString "out.bin"; JsFunction ].
Proof.
  apply recoverDataRuns_ignores_vcn.
  repeat (apply List.Forall2_cons;
          [split; [reflexivity |];
           intros key Hkey; cbn [Get js_run lookup_field];
           destruct (String.eqb_spec "vcn" key) as [Heq | _];
           [congruence | reflexivity] |]).
  apply List.Forall2_nil.
Defined.

(** ** The recovery writer *)

Lemma zeros_add a b : 0 <= a -> 0 <= b -> zeros (a + b) = zeros a ++ zeros b.
Proof.
  intros Ha Hb. unfold zeros. rewrite Z2Nat.inj_add by lia. apply repeat_app.
Qed.

Lemma length_zeros n : 0 <= n -> Z.of_nat (length (zeros n)) = n.
Proof. intros Hn. unfold zeros. rewrite repeat_length. lia. Qed.

Lemma firstn_zeros (written : Z) (k : nat) :
  0 <= written <= Z.of_nat k ->
  firstn (Z.to_nat written) (repeat x00 k) = zeros written.
Proof.
  intros Hw. unfold zeros.
  replace k with (Z.to_nat written + (k - Z.to_nat written))%nat by lia.
  rewrite repeat_app. apply take_app_length'. now rewrite repeat_length.
Qed.

Lemma map_seq_from {A : Type} (n : nat) :
  forall (f : nat -> A) (start : nat),
    map f (seq start n) = map (fun i => f (start + i)%nat) (seq 0 n).
Proof.
  induction n as [| n IH]; intros f start; [reflexivity |].
  cbn [seq map]. f_equal; [f_equal; lia |].
  rewrite (IH f (S start)), (IH (fun i => f (start + i)%nat) 1%nat).
  apply map_ext. intros i. f_equal. lia.
Qed.

Lemma volume_bytes_add os off a b :
  0 <= a -> 0 <= b ->
  volume_bytes os off (a + b) = volume_bytes os off a ++ volume_bytes os (off + a) b.
Proof.
  intros Ha Hb. unfold volume_bytes.
  rewrite Z2Nat.inj_add by lia. rewrite seq_app, map_app. f_equal.
  cbn [Nat.add]. rewrite map_seq_from.
  apply map_ext. intros i. f_equal. lia.
Qed.

Lemma length_volume_bytes os off n :
  0 <= n -> Z.of_nat (length (volume_bytes os off n)) = n.
Proof.
  intros Hn. unfold volume_bytes. rewrite length_map, length_seq. lia.
Qed.

Lemma wrap_u32_le chunk : 0 <= chunk -> 0 <= wrap_u32 chunk <= chunk.
Proof.
  intros H. unfold wrap_u32. split.
  - apply Z.mod_pos_bound. lia.
  - apply Z.mod_le; lia.
Qed.

Lemma wrap_u64_small z : 0 <= z < 2 ^ 64 -> wrap_u64 z = z.
Proof. intros H. unfold wrap_u64. now apply Z.mod_small. Qed.

(** The zero-writing loop, when it ends well, has appended the missing
    zero bytes. *)
Lemma write_zeros_content os (k : nat) :
  forall fuel bytesToCopy produced output output',
    0 <= produced <= bytesToCopy -> bytesToCopy < 2 ^ 64 ->
    write_zeros fuel os (repeat x00 k) bytesToCopy produced output = Some (Copied output') ->
    output' = output ++ zeros (bytesToCopy - produced).
Proof.
  induction fuel as [| fuel IH]; intros bytesToCopy produced output output' Hp Hb Hrun;
    [discriminate |].
  cbn [write_zeros] in Hrun.
  destruct (Z.ltb_spec produced bytesToCopy) as [Hlt | Hge].
  2:{ injection Hrun as <-. replace (bytesToCopy - produced) with 0 by lia.
      now rewrite app_nil_r. }
  rewrite repeat_length in Hrun.
  set (chunk := Z.min (bytesToCopy - produced) (Z.of_nat k)) in *.
  unfold WriteFile in Hrun.
  destruct (Os.WriteCount os _ _) as [count | err]; [| discriminate].
  pose proof (wrap_u32_le chunk ltac:(lia)) as Hchunk.
  set (written := Z.max 0 (Z.min count (wrap_u32 chunk))) in *.
  assert (Hw : 0 <= written <= chunk) by lia.
  rewrite firstn_zeros in Hrun by lia.
  rewrite wrap_u64_small in Hrun by lia.
  apply IH in Hrun; [| lia | lia].
  rewrite Hrun, <- app_assoc, <- zeros_add by lia. do 2 f_equal. lia.
Qed.

(** The padding loop likewise. *)
Lemma write_padding_content os (k : nat) :
  forall fuel remaining output output',
    0 <= remaining < 2 ^ 64 ->
    write_padding fuel os (repeat x00 k) remaining output = Some (Copied output') ->
    output' = output ++ zeros remaining.
Proof.
  induction fuel as [| fuel IH]; intros remaining output output' Hr Hrun; [discriminate |].
  cbn [write_padding] in Hrun.
  destruct (Z.ltb_spec 0 remaining) as [Hlt | Hge].
  2:{ injection Hrun as <-. replace remaining with 0 by lia. now rewrite app_nil_r. }
  rewrite repeat_length in Hrun.
  set (chunk := Z.min remaining (Z.of_nat k)) in *.
  unfold WriteFile in Hrun.
  destruct (Os.WriteCount os _ _) as [count | err]; [| discriminate].
  pose proof (wrap_u32_le chunk ltac:(lia)) as Hchunk.
  set (written := Z.max 0 (Z.min count (wrap_u32 chunk))) in *.
  assert (Hw : 0 <= written <= chunk) by lia.
  rewrite firstn_zeros in Hrun by lia.
  rewrite wrap_u64_small in Hrun by lia.
  apply IH in Hrun; [| lia].
  rewrite Hrun, <- app_assoc, <- zeros_add by lia. do 2 f_equal. lia.
Qed.

(** The copying loop, when it ends well, has appended the volume bytes
    that follow its position. *)
Lemma copy_clusters_content os bufferSize :
  0 <= bufferSize ->
  forall fuel bytesToCopy processed pos output output',
    0 <= processed <= bytesToCopy -> bytesToCopy < 2 ^ 64 ->
    copy_clusters fuel os bufferSize bytesToCopy processed pos output = Some (Copied output') ->
    output' = output ++ volume_bytes os pos (bytesToCopy - processed).
Proof.
  intros Hbuf.
  induction fuel as [| fuel IH]; intros bytesToCopy processed pos output output' Hp Hb Hrun;
    [discriminate |].
  cbn [copy_clusters] in Hrun.
  destruct (Z.ltb_spec processed bytesToCopy) as [Hlt | Hge].
  2:{ injection Hrun as <-. replace (bytesToCopy - processed) with 0 by lia.
      unfold volume_bytes. cbn. now rewrite app_nil_r. }
  set (chunk := Z.min (bytesToCopy - processed) bufferSize) in *.
  pose proof (wrap_u32_le chunk ltac:(lia)) as Hchunk.
  unfold ReadFile in Hrun.
  destruct (Os.ReadCount os pos _) as [count | err]; [| discriminate].
  set (read := Z.max 0 (Z.min count (wrap_u32 chunk))) in *.
  fold (volume_bytes os pos read) in Hrun.
  assert (Hread : 0 <= read <= chunk) by lia.
  rewrite (length_volume_bytes os pos read) in Hrun by lia.
  destruct (read =? 0) eqn:Hzero; [discriminate |]. apply Z.eqb_neq in Hzero.
  unfold WriteFile in Hrun.
  destruct (Os.WriteCount os _ _) as [count' | err]; [| discriminate].
  set (written := Z.max 0 (Z.min count' read)) in *.
  destruct (Z.eqb_spec written read) as [Heq | Hne]; [| discriminate].
  cbn [negb] in Hrun. rewrite Heq in Hrun.
  rewrite firstn_all2 in Hrun
    by (pose proof (length_volume_bytes os pos read ltac:(lia)); lia).
  rewrite wrap_u64_small in Hrun by lia.
  apply IH in Hrun; [| lia | lia].
  rewrite Hrun, <- app_assoc. f_equal.
  replace (bytesToCopy - processed) with (read + (bytesToCopy - (processed + read))) by lia.
  apply eq_sym, volume_bytes_add; lia.
Qed.

Lemma length_expected_content os clusterSize runs :
  0 < clusterSize ->
  forall remaining,
    0 <= remaining ->
    Z.of_nat (length (expected_content os clusterSize runs remaining)) = remaining.
Proof.
  intros Hcs. induction runs as [| run runs IH]; intros remaining Hr.
  - cbn. now apply length_zeros.
  - cbn [expected_content].
    destruct (Z.leb_spec remaining 0); [cbn; lia |].
    destruct (Z.leb_spec (seg_length run) 0); [now apply IH |].
    cbv zeta. set (toCopy := Z.min (seg_length run * clusterSize) remaining).
    assert (0 <= toCopy <= remaining) by nia.
    rewrite length_app, Nat2Z.inj_add, IH by lia.
    destruct (sparse run || (lcn run <=? 0));
      [rewrite length_zeros by lia | rewrite length_volume_bytes by lia]; lia.
Qed.

(** The loop over the runs, when it ends well, has produced the content of
    the specification up to the padding that is still due. *)
Lemma copy_runs_content fuel os clusterSize_ (k : nat) runs :
  0 < clusterSize_ < 2 ^ 64 ->
  Forall (run_in_range clusterSize_) runs ->
  forall remaining output remaining' output',
    0 <= remaining < 2 ^ 64 ->
    copy_runs fuel os clusterSize_ (repeat x00 k) runs remaining output
      = Some (Copied (remaining', output')) ->
    0 <= remaining' < 2 ^ 64
    /\ output' ++ zeros remaining'
       = output ++ expected_content os clusterSize_ runs remaining.
Proof.
  intros Hcs Hruns.
  induction Hruns as [| run runs (Hlen63 & Hbytes & Hoff) _ IH];
    intros remaining output remaining' output' Hr Hrun.
  - cbn in Hrun. injection Hrun as <- <-. split; [lia | reflexivity].
  - cbn [copy_runs expected_content] in *.
    destruct (Z.eqb_spec remaining 0) as [-> | Hnz].
    { injection Hrun as <- <-. cbn. split; [lia | reflexivity]. }
    destruct (Z.leb_spec remaining 0) as [| _]; [lia |].
    destruct (Z.leb_spec (seg_length run) 0) as [Hskip | Hpos].
    { now apply IH. }
    cbv zeta in Hrun |- *.
    rewrite (wrap_u64_small (seg_length run)) in Hrun by lia.
    rewrite (wrap_u64_small (seg_length run * clusterSize_)) in Hrun
      by (specialize (Hbytes Hpos); nia).
    set (toCopy := Z.min (seg_length run * clusterSize_) remaining) in *.
    assert (HtoCopy : 0 <= toCopy <= remaining) by nia.
    destruct (sparse run || (lcn run <=? 0)) eqn:Hsparse.
    + destruct (write_zeros fuel os (repeat x00 k) toCopy 0 output)
        as [[output1 | msg output1] |] eqn:Hz; try discriminate.
      apply write_zeros_content in Hz; [| lia | lia].
      apply IH in Hrun; [| lia].
      destruct Hrun as [Hr' Hout]. split; [exact Hr' |].
      rewrite Hout, Hz, <- app_assoc. now rewrite Z.sub_0_r.
    + apply orb_false_iff in Hsparse. destruct Hsparse as [Hsp Hlcn].
      apply Z.leb_gt in Hlcn. specialize (Hoff Hpos Hsp Hlcn).
      assert (Hcs63 : clusterSize_ < 2 ^ 63) by nia.
      rewrite (wrap_i64_small clusterSize_) in Hrun by lia.
      rewrite (wrap_i64_small (lcn run * clusterSize_)) in Hrun by nia.
      destruct (Os.SetFilePointerEx os _); [| discriminate].
      rewrite repeat_length in Hrun.
      destruct (copy_clusters fuel os (Z.of_nat k) toCopy 0 (lcn run * clusterSize_) output)
        as [[output1 | msg output1] |] eqn:Hc; try discriminate.
      apply copy_clusters_content in Hc; [| lia | lia | lia].
      apply IH in Hrun; [| lia].
      destruct Hrun as [Hr' Hout]. split; [exact Hr' |].
      rewrite Hout, Hc, <- app_assoc. now rewrite Z.sub_0_r.
Qed.

(** Without overflow in its products, a successful [Execute] has written
    exactly the content of the specification, [fileSize_] bytes. *)
Lemma Execute_recovers fuel os w output :
  0 < DataRunRecoveryWorker.clusterSize_ w < 2 ^ 64 ->
  0 < DataRunRecoveryWorker.fileSize_ w < 2 ^ 64 ->
  Forall (run_in_range (DataRunRecoveryWorker.clusterSize_ w))
    (DataRunRecoveryWorker.runs_ w) ->
  DataRunRecoveryWorker_Execute fuel os w = Some (Recovered output) ->
  output = expected_content os (DataRunRecoveryWorker.clusterSize_ w)
             (DataRunRecoveryWorker.runs_ w) (DataRunRecoveryWorker.fileSize_ w)
  /\ Z.of_nat (length output) = DataRunRecoveryWorker.fileSize_ w.
Proof.
  intros Hcs Hfs Hruns Hrun.
  assert (Hcontent :
    output = expected_content os (DataRunRecoveryWorker.clusterSize_ w)
               (DataRunRecoveryWorker.runs_ w) (DataRunRecoveryWorker.fileSize_ w)).
  { unfold DataRunRecoveryWorker_Execute in Hrun.
    destruct (DataRunRecoveryWorker.drive_ w) as [| c drive]; [discriminate |].
    destruct (_ =? 0); [discriminate |].
    destruct (_ =? 0); [discriminate |].
    destruct (is_nil _); [discriminate |].
    destruct (Os.OpenVolume os _); [| discriminate].
    destruct (Os.CreateOutput os _); [| discriminate].
    cbv zeta in Hrun.
    destruct (copy_runs _ _ _ _ _ _ _) as [[[remaining output1] | msg output1] |] eqn:Hc;
      try discriminate.
    apply copy_runs_content in Hc; [| lia | assumption | lia].
    destruct Hc as [Hr Hout].
    destruct (write_padding _ _ _ _ _) as [[output2 | msg output2] |] eqn:Hp;
      try discriminate.
    apply write_padding_content in Hp; [| lia].
    injection Hrun as <-. rewrite Hp, Hout. reflexivity. }
  split; [exact Hcontent |].
  rewrite Hcontent. apply length_expected_content; lia.
Qed.

(** The three recoveries the specification gives, on clusters of 512
    bytes: two mapped runs, a sparse run, and a run shorter than the file. *)
Example Execute_byte_exact :
  DataRunRecoveryWorker_Execute 100 (fixture_os [] numbered_volume)
    (recovery_worker [data_run 100 2 false; data_run 200 1 false] 512 1536)
  = Some (Recovered (repeat (byte_of_Z 101) 512 ++ repeat (byte_of_Z 102) 512
                     ++ repeat (byte_of_Z 201) 512)).
Proof. vm_compute. reflexivity. Qed.

Example Execute_sparse :
  DataRunRecoveryWorker_Execute 100 (fixture_os [] numbered_volume)
    (recovery_worker [data_run 0 2 true] 512 1024)
  = Some (Recovered (zeros 1024)).
Proof. vm_compute. reflexivity. Qed.

Example Execute_padding :
  DataRunRecoveryWorker_Execute 100 (fixture_os [] numbered_volume)
    (recovery_worker [data_run 7 1 false] 512 600)
  = Some (Recovered (repeat (byte_of_Z 8) 512 ++ zeros 88)).
Proof. vm_compute. reflexivity. Qed.

Lemma Execute_recovers_witness :
  Z.of_nat (length (repeat (byte_of_Z 8) 512 ++ zeros 88)) = 600.
Proof.
  apply (Execute_recovers 100 (fixture_os [] numbered_volume)
           (recovery_worker [data_run 7 1 false] 512 600)).
  - cbn. lia.
  - cbn. lia.
  - cbn. apply List.Forall_cons; [| apply List.Forall_nil].
    unfold run_in_range. cbn. lia.
  - vm_compute. reflexivity.
Defined.

(** A run of 2^55 clusters of 512 bytes at cluster 1 and a file size of 512.
    The byte count of the run wraps to 0, nothing is copied and the call
    succeeds with 512 zero bytes, where the specification takes the 512
    volume bytes at offset 512. *)
Lemma recoverDataRuns_overflowing_run :
  RecoverDataRuns
    [ JsString "c"; JsArray [js_run "0" "1" "36028797018963968" false];
      JsString "512"; JsString "512"; JsString "out.bin"; JsFunction ]
  = Queued (recovery_worker [overflowing_run] 512 512)
  /\ recoverDataRuns 100 (fixture_os [] numbered_volume)
       [ JsString "c"; JsArray [js_run "0" "1" "36028797018963968" false];
         JsString "512"; JsString "512"; JsString "out.bin"; JsFunction ]
     = Some (Worker (Recovered (zeros 512)))
  /\ expected_content (fixture_os [] numbered_volume) 512 [overflowing_run] 512
     = repeat x02 512
  /\ zeros 512 <> repeat x02 512.
Proof.
  split; [vm_compute; reflexivity |].
  split; [vm_compute; reflexivity |].
  split; [vm_compute; reflexivity |].
  vm_compute. discriminate.
Qed.

(** ** The other loops are never cut short *)

Lemma attribute_loop_fuel_any buf end_ :
  forall fuel1 fuel2 attrPtr,
    (Z.to_nat (end_ - attrPtr) <= fuel1)%nat ->
    (Z.to_nat (end_ - attrPtr) <= fuel2)%nat ->
    attribute_loop fuel1 buf end_ attrPtr = attribute_loop fuel2 buf end_ attrPtr.
Proof.
  assert (Hstop : forall fuel attrPtr,
             end_ <= attrPtr -> attribute_loop fuel buf end_ attrPtr = []).
  { intros [| fuel] attrPtr Hge; [reflexivity |]. cbn [attribute_loop].
    unfold AttributeRecordHeader.sizeof.
    destruct (Z.leb_spec (attrPtr + 72) end_); [lia | reflexivity]. }
  induction fuel1 as [| fuel1 IH]; intros fuel2 attrPtr H1 H2.
  - rewrite !Hstop by lia. reflexivity.
  - destruct fuel2 as [| fuel2]; [rewrite !Hstop by lia; reflexivity |].
    cbn [attribute_loop].
    destruct (attrPtr + AttributeRecordHeader.sizeof <=? end_); [| reflexivity].
    destruct (Z.eqb_spec (AttributeRecordHeader.Length buf attrPtr) 0) as [Hz | Hnz].
    { now rewrite orb_true_r. }
    destruct (_ || false); [reflexivity |].
    destruct (Z.ltb_spec end_ (attrPtr + AttributeRecordHeader.Length buf attrPtr));
      [reflexivity |].
    pose proof (rdLE_range 4 buf (attrPtr + 4)) as Hlen.
    fold rd32 in Hlen. fold (AttributeRecordHeader.Length buf attrPtr) in Hlen.
    f_equal. apply IH; lia.
Qed.

Lemma record_loop_fuel_any buf :
  forall fuel1 fuel2 recordPtr recordBytes fileTable deleted,
    (Z.to_nat recordBytes <= fuel1)%nat ->
    (Z.to_nat recordBytes <= fuel2)%nat ->
    record_loop fuel1 buf recordPtr recordBytes fileTable deleted
    = record_loop fuel2 buf recordPtr recordBytes fileTable deleted.
Proof.
  assert (Hstop : forall fuel recordPtr recordBytes fileTable deleted,
             recordBytes <= 0 ->
             record_loop fuel buf recordPtr recordBytes fileTable deleted
             = (fileTable, deleted)).
  { intros [| fuel] recordPtr recordBytes fileTable deleted Hle; [reflexivity |].
    cbn [record_loop]. destruct (Z.ltb_spec 0 recordBytes); [lia | reflexivity]. }
  induction fuel1 as [| fuel1 IH];
    intros fuel2 recordPtr recordBytes fileTable deleted H1 H2.
  - rewrite !Hstop by lia. reflexivity.
  - destruct fuel2 as [| fuel2]; [rewrite !Hstop by lia; reflexivity |].
    cbn [record_loop].
    destruct (0 <? recordBytes); [| reflexivity].
    destruct (recordBytes <? USN_RECORD_V2.sizeof); [reflexivity |].
    destruct (Z.eqb_spec (USN_RECORD_V2.RecordLength buf recordPtr) 0) as [Hz | Hnz];
      [reflexivity |].
    cbn [orb].
    destruct (Z.ltb_spec recordBytes (USN_RECORD_V2.RecordLength buf recordPtr));
      [reflexivity |].
    pose proof (rdLE_range 4 buf recordPtr) as Hlen.
    fold rd32 in Hlen. fold (USN_RECORD_V2.RecordLength buf recordPtr) in Hlen.
    cbv zeta. apply IH; lia.
Qed.

(** ** The recovery ends on a cooperative system *)

Lemma wrap_u32_small z : 0 <= z < 2 ^ 32 -> wrap_u32 z = z.
Proof. intros H. unfold wrap_u32. now apply Z.mod_small. Qed.

Lemma write_zeros_ends os (k : nat) :
  cooperative os -> 0 < Z.of_nat k < 2 ^ 32 ->
  forall fuel bytesToCopy produced output,
    0 <= produced <= bytesToCopy -> bytesToCopy < 2 ^ 64 ->
    (Z.to_nat (bytesToCopy - produced) < fuel)%nat ->
    exists output',
      write_zeros fuel os (repeat x00 k) bytesToCopy produced output = Some (Copied output').
Proof.
  intros (_ & _ & _ & _ & Hwrite) Hk.
  induction fuel as [| fuel IH]; intros bytesToCopy produced output Hp Hb Hfuel; [lia |].
  cbn [write_zeros].
  destruct (Z.ltb_spec produced bytesToCopy) as [Hlt | Hge]; [| eauto].
  rewrite repeat_length. unfold WriteFile. rewrite Hwrite.
  set (chunk := Z.min (bytesToCopy - produced) (Z.of_nat k)).
  rewrite (wrap_u32_small chunk) by lia.
  replace (Z.max 0 (Z.min chunk chunk)) with chunk by lia.
  rewrite wrap_u64_small by lia.
  apply IH; lia.
Qed.

Lemma write_padding_ends os (k : nat) :
  cooperative os -> 0 < Z.of_nat k < 2 ^ 32 ->
  forall fuel remaining output,
    0 <= remaining < 2 ^ 64 ->
    (Z.to_nat remaining < fuel)%nat ->
    exists output',
      write_padding fuel os (repeat x00 k) remaining output = Some (Copied output').
Proof.
  intros (_ & _ & _ & _ & Hwrite) Hk.
  induction fuel as [| fuel IH]; intros remaining output Hr Hfuel; [lia |].
  cbn [write_padding].
  destruct (Z.ltb_spec 0 remaining) as [Hlt | Hge]; [| eauto].
  rewrite repeat_length. unfold WriteFile. rewrite Hwrite.
  set (chunk := Z.min remaining (Z.of_nat k)).
  rewrite (wrap_u32_small chunk) by lia.
  replace (Z.max 0 (Z.min chunk chunk)) with chunk by lia.
  rewrite wrap_u64_small by lia.
  apply IH; lia.
Qed.

Lemma copy_clusters_ends os bufferSize :
  cooperative os -> 0 < bufferSize < 2 ^ 32 ->
  forall fuel bytesToCopy processed pos output,
    0 <= processed <= bytesToCopy -> bytesToCopy < 2 ^ 64 ->
    (Z.to_nat (bytesToCopy - processed) < fuel)%nat ->
    exists output',
      copy_clusters fuel os bufferSize bytesToCopy processed pos output
      = Some (Copied output').
Proof.
  intros (_ & _ & _ & Hread & Hwrite) Hk.
  induction fuel as [| fuel IH]; intros bytesToCopy processed pos output Hp Hb Hfuel; [lia |].
  cbn [copy_clusters].
  destruct (Z.ltb_spec processed bytesToCopy) as [Hlt | Hge]; [| eauto].
  set (chunk := Z.min (bytesToCopy - processed) bufferSize).
  rewrite (wrap_u32_small chunk) by lia.
  unfold ReadFile. rewrite Hread.
  replace (Z.max 0 (Z.min chunk chunk)) with chunk by lia.
  fold (volume_bytes os pos chunk).
  rewrite (length_volume_bytes os pos chunk) by lia.
  destruct (Z.eqb_spec chunk 0) as [Hz | _]; [lia |].
  unfold WriteFile. rewrite Hwrite.
  replace (Z.max 0 (Z.min chunk chunk)) with chunk by lia.
  rewrite Z.eqb_refl. cbn [negb].
  rewrite wrap_u64_small by lia.
  apply IH; lia.
Qed.

Lemma copy_runs_ends fuel os clusterSize_ (k : nat) runs :
  cooperative os -> 0 < Z.of_nat k < 2 ^ 32 ->
  0 < clusterSize_ < 2 ^ 64 ->
  Forall (run_in_range clusterSize_) runs ->
  forall remaining output,
    0 <= remaining < 2 ^ 64 ->
    (Z.to_nat remaining < fuel)%nat ->
    exists remaining' output',
      copy_runs fuel os clusterSize_ (repeat x00 k) runs remaining output
      = Some (Copied (remaining', output'))
      /\ 0 <= remaining' <= remaining.
Proof.
  intros Hos Hk Hcs Hruns.
  induction Hruns as [| run runs (Hlen63 & Hbytes & Hoff) _ IH];
    intros remaining output Hr Hfuel.
  - cbn. exists remaining, output. split; [reflexivity | lia].
  - cbn [copy_runs].
    destruct (Z.eqb_spec remaining 0) as [-> | Hnz].
    { exists 0, output. split; [reflexivity | lia]. }
    destruct (Z.leb_spec (seg_length run) 0) as [Hskip | Hpos].
    { now apply IH. }
    cbv zeta.
    rewrite (wrap_u64_small (seg_length run)) by lia.
    rewrite (wrap_u64_small (seg_length run * clusterSize_))
      by (specialize (Hbytes Hpos); nia).
    set (toCopy := Z.min (seg_length run * clusterSize_) remaining).
    assert (HtoCopy : 0 <= toCopy <= remaining) by nia.
    destruct (sparse run || (lcn run <=? 0)) eqn:Hsparse.
    + destruct (write_zeros_ends os k Hos Hk fuel toCopy 0 output) as [output1 Hz];
        [lia | lia | lia |].
      rewrite Hz.
      destruct (IH (remaining - toCopy) output1) as (r' & o' & Hrun & Hr'); [lia | lia |].
      exists r', o'. split; [exact Hrun | lia].
    + destruct Hos as (Ho1 & Ho2 & Hseek & Ho4 & Ho5). rewrite Hseek.
      rewrite repeat_length.
      destruct (copy_clusters_ends os (Z.of_nat k)
                  (conj Ho1 (conj Ho2 (conj Hseek (conj Ho4 Ho5)))) Hk fuel toCopy 0
                  (wrap_i64 (lcn run * wrap_i64 clusterSize_)) output) as [output1 Hc];
        [lia | lia | lia |].
      rewrite Hc.
      destruct (IH (remaining - toCopy) output1) as (r' & o' & Hrun & Hr'); [lia | lia |].
      exists r', o'. split; [exact Hrun | lia].
Qed.

(** On a cooperative system, with buffers below 4 GiB and products that do
    not overflow, [Execute] succeeds once the fuel exceeds the file size, and
    the output is the content of the specification. *)
Lemma Execute_succeeds fuel os w :
  cooperative os ->
  DataRunRecoveryWorker.drive_ w <> EmptyString ->
  DataRunRecoveryWorker.outputPath_ w <> [] ->
  0 < DataRunRecoveryWorker.clusterSize_ w ->
  DataRunRecoveryWorker.clusterSize_ w * 16 < 2 ^ 32 ->
  0 < DataRunRecoveryWorker.fileSize_ w < 2 ^ 64 ->
  Forall (run_in_range (DataRunRecoveryWorker.clusterSize_ w))
    (DataRunRecoveryWorker.runs_ w) ->
  (Z.to_nat (DataRunRecoveryWorker.fileSize_ w) < fuel)%nat ->
  DataRunRecoveryWorker_Execute fuel os w
  = Some (Recovered (expected_content os (DataRunRecoveryWorker.clusterSize_ w)
                       (DataRunRecoveryWorker.runs_ w) (DataRunRecoveryWorker.fileSize_ w))).
Proof.
  intros Hos Hdrive Hpath Hcs Hbuf Hfs Hruns Hfuel.
  assert (Hsome : exists output,
             DataRunRecoveryWorker_Execute fuel os w = Some (Recovered output)).
  { unfold DataRunRecoveryWorker_Execute.
    destruct (DataRunRecoveryWorker.drive_ w) as [| c drive]; [contradiction |].
    destruct (Z.eqb_spec (DataRunRecoveryWorker.clusterSize_ w) 0); [lia |].
    destruct (Z.eqb_spec (DataRunRecoveryWorker.fileSize_ w) 0); [lia |].
    destruct (DataRunRecoveryWorker.outputPath_ w) as [| x path] eqn:Hp; [contradiction |].
    cbn [is_nil].
    pose proof Hos as (Hopen & Hcreate & _). rewrite Hopen, Hcreate. cbv zeta.
    rewrite (wrap_u64_small (DataRunRecoveryWorker.clusterSize_ w * 16)) by lia.
    set (k := Z.to_nat (DataRunRecoveryWorker.clusterSize_ w * 16)).
    assert (Hk : 0 < Z.of_nat k < 2 ^ 32) by lia.
    destruct (copy_runs_ends fuel os (DataRunRecoveryWorker.clusterSize_ w) k
                (DataRunRecoveryWorker.runs_ w) Hos Hk ltac:(lia) Hruns
                (DataRunRecoveryWorker.fileSize_ w) []) as (r' & o' & Hrun & Hr');
      [lia | lia |].
    rewrite Hrun.
    destruct (write_padding_ends os k Hos Hk fuel r' o') as [o'' Hpad]; [lia | lia |].
    rewrite Hpad. eauto. }
  destruct Hsome as [output Hrun]. rewrite Hrun. do 2 f_equal.
  apply (Execute_recovers fuel os w output); try assumption. lia.
Qed.

Lemma fixture_os_cooperative response content : cooperative (fixture_os response content).
Proof. repeat split. Qed.

(** ** The examples of the specification *)

Example FileTimeToUnixMilliseconds_examples :
  FileTimeToUnixMilliseconds 0 = -11644473600000
  /\ FileTimeToUnixMilliseconds 116444736000000000 = 0
  /\ FileTimeToUnixMilliseconds 132000000000000000 = 1555526400000.
Proof. repeat split. Qed.

Example Base64Encode_examples :
  Base64Encode [] = EmptyString
  /\ Base64Encode [byte_of_Z 77] = "TQ=="%string
  /\ Base64Encode [byte_of_Z 77; byte_of_Z 97] = "TWE="%string
  /\ Base64Encode [byte_of_Z 77; byte_of_Z 97; byte_of_Z 110] = "TWFu"%string.
Proof. repeat split. Qed.

(** The first scenario: one deleted file below a directory of the table. *)
Example ScanUsnWorker_Execute_scenario :
  ScanUsnWorker_Execute 3 (one_batch_os scenario_batch) "c"
  = Some (Done [ {| ScanResult.fileRef := 42;
                    ScanResult.parentRef := 5;
                    ScanResult.name := "note.txt";
                    ScanResult.fullPath := "C:\docs\note.txt";
                    ScanResult.isDirectory := false;
                    ScanResult.timestampMs := 1555526400000;
                    ScanResult.reason := USN_REASON_FILE_DELETE |} ]).
Proof. vm_compute. reflexivity. Qed.

(** A third record of length 0 ends the batch without failing the scan. *)
Example ScanUsnWorker_Execute_zero_record :
  ScanUsnWorker_Execute 3 (one_batch_os (scenario_batch ++ repeat x00 64)) "c"
  = ScanUsnWorker_Execute 3 (one_batch_os scenario_batch) "c".
Proof. vm_compute. reflexivity. Qed.

(** A record whose magic is not [FILE] is refused. *)
Example getFileRecord_bad_magic :
  getFileRecord (fixture_os (file_record_response 42 (repeat x00 1024)) (fun _ => x00)) "C" 42
  = SetError "Failed to parse file record".
Proof. vm_compute. reflexivity. Qed.

(** What the unsigned parser accepts and what it refuses. *)
Example TryParseUnsigned_examples :
  TryParseUnsigned "4096" 0 = (true, 4096)
  /\ TryParseUnsigned " 42" 0 = (true, 42)
  /\ TryParseUnsigned "+7" 0 = (true, 7)
  /\ TryParseUnsigned "-512" 0 = (true, 18446744073709551104)
  /\ fst (TryParseUnsigned "12abc" 0) = false
  /\ fst (TryParseUnsigned "abc" 0) = false
  /\ fst (TryParseUnsigned EmptyString 0) = false
  /\ fst (TryParseUnsigned "18446744073709551616" 0) = false.
Proof. repeat split. Qed.

(** Whatever the drive, the path scan builds has five characters and the
    device path six. *)
Lemma ScanUsnWorker_volumePath_length (c : ascii) :
  length (ScanUsnWorker_volumePath c) = 5%nat
  /\ length (FileRecordWorker_volumePath c) = 6%nat
  /\ ScanUsnWorker_volumePath c <> FileRecordWorker_volumePath c.
Proof.
  split; [reflexivity |]. split; [reflexivity |].
  intros H. apply (f_equal (@length Z)) in H. discriminate H.
Qed.

(** ** recoverDataRuns, from the call to the output file *)

Lemma read_digits_nonneg s :
  forall acc count, 0 <= acc -> 0 <= fst (read_digits s acc count).
Proof.
  induction s as [| c s IH]; intros acc count Hacc; [exact Hacc |].
  cbn [read_digits]. unfold digit_of.
  destruct ((48 <=? char_code c) && (char_code c <=? 57)) eqn:Hd; [| exact Hacc].
  apply andb_true_iff in Hd. destruct Hd as [Hlo _]. apply Z.leb_le in Hlo.
  apply IH. lia.
Qed.

Lemma parse_integer_nonneg s negative magnitude idx :
  parse_integer s = Some (negative, magnitude, idx) -> 0 <= magnitude.
Proof.
  unfold parse_integer. destruct (skip_space s 0) as [s1 i1].
  set (signed := match s1 with
                 | String c rest =>
                     if Ascii.eqb c "-" then (true, rest, i1 + 1)
                     else if Ascii.eqb c "+" then (false, rest, i1 + 1)
                     else (false, s1, i1)
                 | EmptyString => (false, s1, i1)
                 end).
  destruct signed as [[neg s2] i2].
  pose proof (read_digits_nonneg s2 0 0 ltac:(lia)) as Hm.
  destruct (read_digits s2 0 0) as [m count]. cbn [fst] in Hm.
  destruct (count =? 0); [discriminate |].
  intros H. injection H as _ <- _. exact Hm.
Qed.

(** What the parsers return is a value of the result type. *)
Lemma TryParseUnsigned_range input ok value :
  TryParseUnsigned input 0 = (ok, value) -> 0 <= value < 2 ^ 64.
Proof.
  unfold TryParseUnsigned, stoull.
  destruct (parse_integer input) as [[[negative magnitude] idx] |] eqn:Hp.
  2:{ intros H. injection H as _ <-. lia. }
  apply parse_integer_nonneg in Hp.
  destruct (Z.leb_spec (2 ^ 64) magnitude) as [Hbig | Hsmall].
  { intros Heq. injection Heq as _ <-. lia. }
  intros Heq. injection Heq as _ <-.
  destruct negative; [apply Z.mod_pos_bound |]; lia.
Qed.

Lemma TryParseSigned_range input ok value :
  TryParseSigned input 0 = (ok, value) -> - 2 ^ 63 <= value < 2 ^ 63.
Proof.
  unfold TryParseSigned, stoll.
  destruct (parse_integer input) as [[[negative magnitude] idx] |] eqn:Hp.
  2:{ intros H. injection H as _ <-. lia. }
  apply parse_integer_nonneg in Hp.
  destruct negative.
  - destruct (Z.ltb_spec (2 ^ 63) magnitude) as [Hbig | Hsmall];
      intros Heq; injection Heq as _ <-; lia.
  - destruct (Z.leb_spec (2 ^ 63) magnitude) as [Hbig | Hsmall];
      intros Heq; injection Heq as _ <-; lia.
Qed.

Lemma signed_field_range v invalid missing value :
  signed_field v invalid missing = Done value -> - 2 ^ 63 <= value < 2 ^ 63.
Proof.
  unfold signed_field. destruct v; try discriminate.
  - intros H. injection H as <-. apply wrap_i64_range.
  - destruct (TryParseSigned s 0) as [ok parsed] eqn:Hp.
    apply TryParseSigned_range in Hp.
    destruct ok; [| discriminate]. intros H. injection H as <-. exact Hp.
Qed.

Lemma ParseRunsArray_range array :
  forall runs,
    ParseRunsArray array = Done runs ->
    Forall (fun run => seg_length run < 2 ^ 63) runs.
Proof.
  induction array as [| value array IH]; intros runs Hparse.
  - injection Hparse as <-. constructor.
  - cbn [ParseRunsArray] in Hparse.
    destruct (parse_run_entry value) as [segment |] eqn:Hentry; [| discriminate].
    destruct (ParseRunsArray array) as [out |]; [| discriminate].
    injection Hparse as <-. constructor; [| now apply IH].
    unfold parse_run_entry in Hentry.
    destruct (negb (IsObject value)); [discriminate |].
    destruct (signed_field (Get value "length") _ _) as [lengthClusters |] eqn:Hlen;
      [| discriminate].
    destruct (signed_field (Get value "lcn") _ _); [| discriminate].
    injection Hentry as <-. cbn [seg_length].
    apply signed_field_range in Hlen. lia.
Qed.

(** The worker the bridge queues holds values of the types of its fields. *)
Lemma RecoverDataRuns_queued info w :
  RecoverDataRuns info = Queued w ->
  0 <= DataRunRecoveryWorker.clusterSize_ w < 2 ^ 64
  /\ 0 <= DataRunRecoveryWorker.fileSize_ w < 2 ^ 64
  /\ Forall (fun run => seg_length run < 2 ^ 63) (DataRunRecoveryWorker.runs_ w).
Proof.
  unfold RecoverDataRuns.
  destruct info as [| info0 [| info1 [| info2 [| info3 [| info4 [| info5 rest]]]]]];
    try discriminate.
  destruct (negb (IsString info0)); [discriminate |].
  destruct (negb (IsArray info1)); [discriminate |].
  set (clusterSize := match info2 with
                      | JsString text =>
                          let '(ok, value) := TryParseUnsigned text 0 in
                          if ok then Done value else SetError "Invalid cluster size"
                      | JsNumber value =>
                          if Qle_bool value 0 then SetError "Cluster size must be positive"
                          else Done (double_to_u64 value)
                      | _ => SetError "Cluster size must be numeric"
                      end).
  assert (Hcs : forall cs, clusterSize = Done cs -> 0 <= cs < 2 ^ 64).
  { subst clusterSize. intros cs. destruct info2; try discriminate.
    - destruct (Qle_bool q 0); [discriminate |]. intros H. injection H as <-.
      apply Z.mod_pos_bound. lia.
    - destruct (TryParseUnsigned s 0) as [ok value] eqn:Hp.
      apply TryParseUnsigned_range in Hp.
      destruct ok; [| discriminate]. intros H. injection H as <-. exact Hp. }
  destruct clusterSize as [cs |]; [| discriminate]. specialize (Hcs cs eq_refl).
  set (fileSize := match info3 with
                   | JsString text =>
                       let '(ok, value) := TryParseUnsigned text 0 in
                       if ok then Done value else SetError "Invalid file size"
                   | JsNumber value =>
                       if negb (Qle_bool 0 value) then SetError "File size must be positive"
                       else Done (double_to_u64 value)
                   | _ => SetError "File size must be numeric"
                   end).
  assert (Hfs : forall fs, fileSize = Done fs -> 0 <= fs < 2 ^ 64).
  { subst fileSize. intros fs. destruct info3; try discriminate.
    - destruct (negb (Qle_bool 0 q)); [discriminate |]. intros H. injection H as <-.
      apply Z.mod_pos_bound. lia.
    - destruct (TryParseUnsigned s 0) as [ok value] eqn:Hp.
      apply TryParseUnsigned_range in Hp.
      destruct ok; [| discriminate]. intros H. injection H as <-. exact Hp. }
  destruct fileSize as [fs |]; [| discriminate]. specialize (Hfs fs eq_refl).
  destruct (negb (IsString info4)); [discriminate |].
  destruct (negb (IsFunction info5)); [discriminate |].
  destruct (ParseRunsArray _) as [runs |] eqn:Hruns; [| discriminate].
  intros H. injection H as <-.
  cbn [DataRunRecoveryWorker.clusterSize_ DataRunRecoveryWorker.fileSize_
       DataRunRecoveryWorker.runs_].
  repeat split; try lia. now apply ParseRunsArray_range in Hruns.
Qed.

Lemma Execute_recovered_sizes fuel os w output :
  DataRunRecoveryWorker_Execute fuel os w = Some (Recovered output) ->
  DataRunRecoveryWorker.clusterSize_ w <> 0 /\ DataRunRecoveryWorker.fileSize_ w <> 0.
Proof.
  unfold DataRunRecoveryWorker_Execute.
  destruct (DataRunRecoveryWorker.drive_ w); [discriminate |].
  destruct (Z.eqb_spec (DataRunRecoveryWorker.clusterSize_ w) 0); [discriminate |].
  destruct (Z.eqb_spec (DataRunRecoveryWorker.fileSize_ w) 0); [discriminate |].
  auto.
Qed.

(** C1, amended: for every call whose runs have products
    [length * clusterSize] below 2^64 and, where the run is mapped,
    [lcn * clusterSize] below 2^63, a successful recoverDataRuns has a
    cluster size and a file size above 0 and produces an output file of
    exactly [fileSize] bytes: in run order over the runs of positive length
    and while bytes remain, [min (length * clusterSize) remaining] bytes per
    run, zero for a sparse run or one with [lcn <= 0] and the volume bytes
    from [lcn * clusterSize] otherwise, then zero bytes up to [fileSize]. *)
Theorem recoverDataRuns_content (fuel : nat) (os : Os.t) (info : list JsValue)
    (w : DataRunRecoveryWorker.t) (output : list byte) :
  RecoverDataRuns info = Queued w ->
  Forall (products_fit (DataRunRecoveryWorker.clusterSize_ w))
    (DataRunRecoveryWorker.runs_ w) ->
  recoverDataRuns fuel os info = Some (Worker (Recovered output)) ->
  0 < DataRunRecoveryWorker.clusterSize_ w
  /\ 0 < DataRunRecoveryWorker.fileSize_ w
  /\ output = expected_content os (DataRunRecoveryWorker.clusterSize_ w)
                (DataRunRecoveryWorker.runs_ w) (DataRunRecoveryWorker.fileSize_ w)
  /\ Z.of_nat (length output) = DataRunRecoveryWorker.fileSize_ w.
Proof.
  intros Hq Hfit Hrun.
  destruct (RecoverDataRuns_queued _ _ Hq) as (Hcs & Hfs & Hlen).
  unfold recoverDataRuns in Hrun. rewrite Hq in Hrun.
  destruct (DataRunRecoveryWorker_Execute fuel os w) as [result |] eqn:Hexec;
    [| discriminate].
  injection Hrun as ->.
  destruct (Execute_recovered_sizes _ _ _ _ Hexec) as [Hcs0 Hfs0].
  assert (Hruns : Forall (run_in_range (DataRunRecoveryWorker.clusterSize_ w))
                    (DataRunRecoveryWorker.runs_ w)).
  { rewrite Forall_forall in *. intros run Hin.
    destruct (Hfit run Hin) as [Hbytes Hoff].
    repeat split; auto. }
  destruct (Execute_recovers fuel os w output) as [Hcontent Hsize];
    try assumption; try lia.
  repeat split; try assumption; lia.
Qed.

Lemma recoverDataRuns_content_witness :
  Z.of_nat (length (repeat (byte_of_Z 8) 512 ++ zeros 88)) = 600.
Proof.
  apply (recoverDataRuns_content 100 (fixture_os [] numbered_volume)
           [ JsString "c"; JsArray [js_run "0" "7" "1" false];
             JsString "512"; JsString "600"; JsString "out.bin"; JsFunction ]
           (recovery_worker [data_run 7 1 false] 512 600)).
  - vm_compute. reflexivity.
  - apply List.Forall_cons; [| apply List.Forall_nil].
    unfold products_fit. cbn. lia.
  - vm_compute. reflexivity.
Defined.

(** * Further properties of the code *)

(** ** Base64 *)

Lemma byte_of_Z_u8 b : byte_of_Z (u8 b) = b.
Proof. destruct b; reflexivity. Qed.

Lemma byte_of_Z_eq z b : z = u8 b -> byte_of_Z z = b.
Proof. intros ->. apply byte_of_Z_u8. Qed.

(** Byte lists built of sextets, compared byte by byte. *)
Ltac bytes_eq :=
  repeat match goal with |- _ :: _ = _ :: _ => f_equal end;
  try (apply byte_of_Z_eq; Z.to_euclidean_division_equations; lia).

Lemma base64_char_index i :
  0 <= i < 64 ->
  base64_index (nth (Z.to_nat i) base64_alphabet "="%char) = Some i
  /\ is_padding (nth (Z.to_nat i) base64_alphabet "="%char) = false.
Proof.
  intros Hi.
  assert (Hnat : forall n : nat, (n < 64)%nat ->
            base64_index (nth n base64_alphabet "="%char) = Some (Z.of_nat n)
            /\ is_padding (nth n base64_alphabet "="%char) = false).
  { intros n Hn.
    do 64 (destruct n as [| n]; [split; vm_compute; reflexivity |]).
    lia. }
  replace i with (Z.of_nat (Z.to_nat i)) at 2 by lia.
  apply Hnat. lia.
Qed.

Lemma base64_char_sextet x :
  0 <= x ->
  base64_index (base64_char x) = Some (x mod 64)
  /\ is_padding (base64_char x) = false.
Proof.
  intros Hx. unfold base64_char. change 63 with (Z.ones 6).
  rewrite Z.land_ones by lia. change (2 ^ 6) with 64.
  apply base64_char_index. apply Z.mod_pos_bound. lia.
Qed.

(** The 24 bits the encoder forms of three bytes. *)
Lemma triple_value a b c :
  Z.lor (Z.lor (Z.shiftl (u8 a) 16) (Z.shiftl (u8 b) 8)) (u8 c)
  = u8 a * 65536 + u8 b * 256 + u8 c.
Proof.
  pose proof (u8_range a). pose proof (u8_range b). pose proof (u8_range c).
  rewrite !Z.shiftl_mul_pow2 by lia.
  rewrite (Z.lor_comm (u8 a * 2 ^ 16)).
  rewrite (lor_disjoint (u8 b * 2 ^ 8) (u8 a) 16) by lia.
  rewrite Z.lor_comm.
  replace (u8 b * 2 ^ 8 + u8 a * 2 ^ 16) with ((u8 b + u8 a * 256) * 2 ^ 8) by lia.
  rewrite (lor_disjoint (u8 c) _ 8) by lia. lia.
Qed.

Lemma pair_value a b :
  Z.lor (Z.shiftl (u8 a) 16) (Z.shiftl (u8 b) 8) = u8 a * 65536 + u8 b * 256.
Proof.
  pose proof (triple_value a b x00) as H.
  change (u8 x00) with 0 in H. rewrite Z.lor_0_r, Z.add_0_r in H. exact H.
Qed.

Lemma Base64Decode_quad c0 c1 c2 c3 rest :
  Base64Decode (String c0 (String c1 (String c2 (String c3 rest))))
  = match base64_index c0, base64_index c1 with
    | Some i0, Some i1 =>
        let b0 := byte_of_Z (i0 * 4 + i1 / 16) in
        if is_padding c2 then
          if is_padding c3 && string_empty rest then Some [b0] else None
        else
          match base64_index c2 with
          | Some i2 =>
              let b1 := byte_of_Z ((i1 mod 16) * 16 + i2 / 4) in
              if is_padding c3 then
                if string_empty rest then Some [b0; b1] else None
              else
                match base64_index c3, Base64Decode rest with
                | Some i3, Some bytes =>
                    Some (b0 :: b1 :: byte_of_Z ((i2 mod 4) * 64 + i3) :: bytes)
                | _, _ => None
                end
          | None => None
          end
    | _, _ => None
    end.
Proof. reflexivity. Qed.

Lemma Base64_round_trip_upto (n : nat) :
  forall data, (length data <= n)%nat -> Base64Decode (Base64Encode data) = Some data.
Proof.
  induction n as [| n IH]; intros data Hlen.
  - destruct data; [reflexivity | cbn in Hlen; lia].
  - destruct data as [| a [| b [| c rest]]]; [reflexivity | | |].
    + cbn [Base64Encode]. rewrite Base64Decode_quad. cbv zeta.
      pose proof (u8_range a) as Ha.
      rewrite Z.shiftl_mul_pow2, !Z.shiftr_div_pow2 by lia.
      destruct (base64_char_sextet (u8 a * 2 ^ 16 / 2 ^ 18)) as [-> _];
        [apply Z.div_pos; lia |].
      destruct (base64_char_sextet (u8 a * 2 ^ 16 / 2 ^ 12)) as [-> _];
        [apply Z.div_pos; lia |].
      cbn [is_padding]. change (Ascii.eqb "=" "=") with true. cbn [andb string_empty].
      f_equal.
      change (2 ^ 16) with 65536. change (2 ^ 18) with 262144. change (2 ^ 12) with 4096.
      bytes_eq.
    + cbn [Base64Encode]. rewrite Base64Decode_quad. cbv zeta.
      pose proof (u8_range a) as Ha. pose proof (u8_range b) as Hb.
      rewrite pair_value, !Z.shiftr_div_pow2 by lia.
      destruct (base64_char_sextet ((u8 a * 65536 + u8 b * 256) / 2 ^ 18)) as [-> _];
        [apply Z.div_pos; lia |].
      destruct (base64_char_sextet ((u8 a * 65536 + u8 b * 256) / 2 ^ 12)) as [-> _];
        [apply Z.div_pos; lia |].
      destruct (base64_char_sextet ((u8 a * 65536 + u8 b * 256) / 2 ^ 6)) as [-> ->];
        [apply Z.div_pos; lia |].
      cbn [is_padding]. change (Ascii.eqb "=" "=") with true. cbn [string_empty].
      f_equal.
      change (2 ^ 6) with 64. change (2 ^ 18) with 262144. change (2 ^ 12) with 4096.
      bytes_eq.
    + cbn [Base64Encode]. rewrite Base64Decode_quad. cbv zeta.
      pose proof (u8_range a) as Ha. pose proof (u8_range b) as Hb.
      pose proof (u8_range c) as Hc.
      rewrite triple_value, !Z.shiftr_div_pow2 by lia.
      set (t := u8 a * 65536 + u8 b * 256 + u8 c).
      assert (Ht : 0 <= t) by (subst t; lia).
      destruct (base64_char_sextet (t / 2 ^ 18)) as [-> _]; [apply Z.div_pos; lia |].
      destruct (base64_char_sextet (t / 2 ^ 12)) as [-> _]; [apply Z.div_pos; lia |].
      destruct (base64_char_sextet (t / 2 ^ 6)) as [-> ->]; [apply Z.div_pos; lia |].
      destruct (base64_char_sextet t) as [-> ->]; [lia |].
      rewrite IH by (cbn [length] in Hlen; lia).
      f_equal.
      change (2 ^ 6) with 64. change (2 ^ 18) with 262144. change (2 ^ 12) with 4096.
      subst t. bytes_eq.
Qed.

(** X1: decoding the text [Base64Encode] emits gives back the bytes, for
    every byte string. *)
Theorem Base64Decode_Base64Encode (data : list byte) :
  Base64Decode (Base64Encode data) = Some data.
Proof. apply (Base64_round_trip_upto (length data)). lia. Qed.

Lemma base64_char_not_padding x : is_padding (base64_char x) = false.
Proof.
  unfold base64_char.
  assert (H : 0 <= Z.land x 63 < 64).
  { change 63 with (Z.ones 6). rewrite Z.land_ones by lia. apply Z.mod_pos_bound. lia. }
  apply base64_char_index. exact H.
Qed.

Lemma Base64Encode_shape_upto (n : nat) :
  forall data, (length data <= n)%nat ->
    Z.of_nat (String.length (Base64Encode data)) = 4 * ((Z.of_nat (length data) + 2) / 3)
    /\ padding_count (Base64Encode data) = (3 - Z.of_nat (length data) mod 3) mod 3.
Proof.
  induction n as [| n IH]; intros data Hlen.
  - destruct data; [split; reflexivity | cbn in Hlen; lia].
  - destruct data as [| a [| b [| c rest]]]; try (split; reflexivity).
    + cbn [Base64Encode]. cbv zeta. cbn [padding_count String.length].
      rewrite !base64_char_not_padding. split; reflexivity.
    + cbn [Base64Encode]. cbv zeta. cbn [padding_count String.length].
      rewrite !base64_char_not_padding. split; reflexivity.
    + destruct (IH rest) as [IHlen IHpad]; [cbn [length] in Hlen; lia |].
      cbn [Base64Encode]. cbv zeta. cbn [padding_count String.length length].
      rewrite !base64_char_not_padding, IHpad. split.
      * rewrite !Nat2Z.inj_succ, IHlen. Z.to_euclidean_division_equations. lia.
      * rewrite !Nat2Z.inj_succ. Z.to_euclidean_division_equations. lia.
Qed.

(** X2: the text [Base64Encode] emits for [n] bytes has [4 * ceil (n / 3)]
    characters, of which 0, 2 or 1 are padding as [n mod 3] is 0, 1 or 2. *)
Theorem Base64Encode_length (data : list byte) :
  Z.of_nat (String.length (Base64Encode data)) = 4 * ((Z.of_nat (length data) + 2) / 3)
  /\ padding_count (Base64Encode data) = (3 - Z.of_nat (length data) mod 3) mod 3.
Proof. apply (Base64Encode_shape_upto (length data)). lia. Qed.

(** ** FILETIME *)

(** X3: the conversion of a FILETIME to Unix milliseconds is monotone, and a
    whole number of milliseconds since 1601 maps to that number less the
    epoch offset. *)
Theorem FileTimeToUnixMilliseconds_monotone (t1 t2 ms : Z) :
  t1 <= t2 ->
  FileTimeToUnixMilliseconds t1 <= FileTimeToUnixMilliseconds t2
  /\ FileTimeToUnixMilliseconds (ms * 10000) = ms - 11644473600000.
Proof.
  intros Hle. unfold FileTimeToUnixMilliseconds. split.
  - apply Z.sub_le_mono_r. apply Z.quot_le_mono; lia.
  - rewrite Z.quot_mul by lia. reflexivity.
Qed.

Lemma FileTimeToUnixMilliseconds_monotone_witness :
  FileTimeToUnixMilliseconds 116444736000000000
  <= FileTimeToUnixMilliseconds 132000000000000000.
Proof.
  apply (FileTimeToUnixMilliseconds_monotone 116444736000000000 132000000000000000 0).
  lia.
Defined.

(** ** The signed decoder on any buffer *)

Lemma twos_complement_range width u :
  1 <= width -> 0 <= u < 2 ^ (8 * width) ->
  - 2 ^ (8 * width - 1) <= twos_complement width u < 2 ^ (8 * width - 1).
Proof.
  intros Hw Hu. unfold twos_complement.
  assert (Hp : 2 ^ (8 * width) = 2 * 2 ^ (8 * width - 1)).
  { replace (8 * width) with (1 + (8 * width - 1)) at 1 by lia.
    now rewrite Z.pow_add_r by lia. }
  destruct (Z.ltb_spec u (2 ^ (8 * width - 1))); lia.
Qed.

Lemma rd8_top_bit buf off :
  negb (Z.land (rd8 buf off) 128 =? 0) = (128 <=? rd8 buf off).
Proof. unfold rd8. rewrite <- u8_top_bit. apply u8_top_bit_ge. Qed.

(** The decoder reads its field wherever it lies, also past the end of the
    buffer. *)
Lemma ReadSignedValue_rdLE buf data (k : nat) :
  (k <= 7)%nat ->
  ReadSignedValue buf data (Z.of_nat (S k))
  = twos_complement (Z.of_nat (S k)) (rdLE (S k) buf data).
Proof.
  intros Hk. unfold ReadSignedValue.
  destruct ((_ <=? 0) || (8 <? _)) eqn:Hguard.
  { apply orb_true_iff in Hguard. destruct Hguard as [H | H];
      [apply Z.leb_le in H | apply Z.ltb_lt in H]; lia. }
  cbv zeta. rewrite Nat2Z.id.
  rewrite le_or_loop_rdLE by lia.
  replace (data + (Z.of_nat (S k) - 1)) with (data + Z.of_nat k) by lia.
  pose proof (rdLE_range (S k) buf data) as Hu.
  rewrite rdLE_snoc in *.
  pose proof (rdLE_range k buf data) as Hl.
  pose proof (rd8_range buf (data + Z.of_nat k)) as Hh.
  rewrite rd8_top_bit.
  unfold twos_complement.
  replace (Z.of_nat (S k)) with (Z.of_nat k + 1) in * by lia.
  set (n := Z.of_nat k) in *. set (lo := rdLE k buf data) in *.
  set (hi := rd8 buf (data + n)) in *.
  assert (Hn : 0 <= n <= 7) by lia.
  assert (Hp : 2 ^ (8 * (n + 1)) = 256 * 2 ^ (8 * n)).
  { replace (8 * (n + 1)) with (8 + 8 * n) by lia. now rewrite Z.pow_add_r by lia. }
  assert (Hq : 2 ^ (8 * (n + 1) - 1) = 128 * 2 ^ (8 * n)).
  { replace (8 * (n + 1) - 1) with (7 + 8 * n) by lia. now rewrite Z.pow_add_r by lia. }
  assert (H0 : 0 < 2 ^ (8 * n)) by (apply Z.pow_pos_nonneg; lia).
  assert (H56 : 2 ^ (8 * n) <= 2 ^ 56) by (apply Z.pow_le_mono_r; lia).
  rewrite Hq, Hp in *.
  set (u := lo + hi * 2 ^ (8 * n)) in *.
  destruct (Z.ltb_spec (n + 1) 8) as [Hlt | Hge]; cbn [andb].
  - assert (H48 : 2 ^ (8 * n) <= 2 ^ 48) by (apply Z.pow_le_mono_r; lia).
    rewrite wrap_i64_small by lia.
    destruct (Z.leb_spec 128 hi) as [Htop | Htop].
    + unfold shl_i64. rewrite Z.shiftl_mul_pow2 by lia.
      replace ((n + 1) * 8) with (8 * (n + 1)) by lia. rewrite Hp.
      rewrite wrap_i64_small by lia.
      replace (-1 * (256 * 2 ^ (8 * n))) with (-1 * 2 ^ (8 * (n + 1))) by lia.
      rewrite lor_disjoint by lia. rewrite Hp.
      destruct (Z.ltb_spec u (128 * 2 ^ (8 * n))); unfold u in *; nia.
    + destruct (Z.ltb_spec u (128 * 2 ^ (8 * n))); unfold u in *; nia.
  - assert (Hn7 : n = 7) by lia.
    assert (Hpow : 2 ^ (8 * n) = 2 ^ 56) by (now rewrite Hn7).
    rewrite Hpow in *.
    destruct (Z.ltb_spec u (128 * 2 ^ 56)).
    + rewrite wrap_i64_small by lia. reflexivity.
    + rewrite wrap_i64_high by lia. lia.
Qed.

(** X4: for every buffer and position, a field of 1 to 8 bytes decodes to a
    value of the signed range of its width, and a width outside 1..8 decodes
    to 0. *)
Theorem ReadSignedValue_range (buf : list byte) (data size : Z) :
  (1 <= size <= 8 ->
   - 2 ^ (8 * size - 1) <= ReadSignedValue buf data size < 2 ^ (8 * size - 1))
  /\ (size <= 0 \/ 8 < size -> ReadSignedValue buf data size = 0).
Proof.
  split.
  - intros Hs. replace size with (Z.of_nat (S (Z.to_nat (size - 1)))) by lia.
    rewrite ReadSignedValue_rdLE by lia.
    apply twos_complement_range; [lia |].
    pose proof (rdLE_range (S (Z.to_nat (size - 1))) buf data) as H. exact H.
  - intros Hs. unfold ReadSignedValue.
    destruct (Z.leb_spec size 0); [reflexivity |].
    destruct (Z.ltb_spec 8 size); [reflexivity | lia].
Qed.

Lemma ReadSignedValue_range_witness :
  - 2 ^ (8 * 2 - 1) <= ReadSignedValue [xff; x7f; x01] 0 2 < 2 ^ (8 * 2 - 1).
Proof. apply (ReadSignedValue_range [xff; x7f; x01] 0 2). lia. Defined.

(** ** The run-list parser on any bytes *)

Lemma run_loop_chained buf end_ :
  forall fuel runPtr vcn prevLcn,
    - 2 ^ 63 <= prevLcn < 2 ^ 63 ->
    chained vcn prevLcn (run_loop fuel buf end_ runPtr vcn prevLcn).
Proof.
  induction fuel as [| fuel IH]; intros runPtr vcn prevLcn Hl; [exact I |].
  cbn [run_loop].
  destruct ((runPtr <? end_) && negb (rd8 buf runPtr =? 0)); [| exact I].
  set (lsz := Z.land (rd8 buf runPtr) 15).
  set (osz := Z.land (Z.shiftr (rd8 buf runPtr) 4) 15).
  destruct ((lsz <=? 0) || (osz <? 0) || (end_ <? runPtr + 1 + lsz + osz)); [exact I |].
  cbv zeta. cbn [chained vcnStart lcn seg_length sparse].
  split; [reflexivity |]. split.
  - intros Hs. apply Z.eqb_eq in Hs. rewrite Hs.
    unfold ReadSignedValue. cbn [Z.leb Z.compare orb].
    rewrite Z.add_0_r. now apply wrap_i64_small.
  - apply IH. apply wrap_i64_range.
Qed.

(** X5: whatever bytes an attribute record holds, the segments decoded from
    it continue one another from the record's lowest cluster number, each
    starting where the one before ends in 64-bit arithmetic, and every sparse
    segment repeats the cluster address of the segment before it (0 for the
    first). *)
Theorem ParseRunList_chained (buf : list byte) (header : Z) :
  chained (wrap_i64 (AttributeRecordHeader.LowestVcn buf header)) 0
    (ParseRunList buf header).
Proof.
  unfold ParseRunList.
  destruct (AttributeRecordHeader.NonResident buf header =? 0); [exact I |].
  cbv zeta. apply run_loop_chained. lia.
Qed.

Lemma run_loop_length buf end_ :
  forall fuel runPtr vcn prevLcn,
    2 * Z.of_nat (length (run_loop fuel buf end_ runPtr vcn prevLcn))
    <= Z.max 0 (end_ - runPtr).
Proof.
  induction fuel as [| fuel IH]; intros runPtr vcn prevLcn; [cbn [run_loop length]; lia |].
  cbn [run_loop].
  destruct ((runPtr <? end_) && negb (rd8 buf runPtr =? 0)); [| cbn [length]; lia].
  set (lsz := Z.land (rd8 buf runPtr) 15).
  set (osz := Z.land (Z.shiftr (rd8 buf runPtr) 4) 15).
  destruct ((lsz <=? 0) || (osz <? 0) || (end_ <? runPtr + 1 + lsz + osz)) eqn:Hg;
    [cbn [length]; lia |].
  apply orb_false_iff in Hg. destruct Hg as [Hg Hg3].
  apply orb_false_iff in Hg. destruct Hg as [Hg1 Hg2].
  apply Z.leb_gt in Hg1. apply Z.ltb_ge in Hg2. apply Z.ltb_ge in Hg3.
  cbv zeta. cbn [length].
  specialize (IH (runPtr + 1 + lsz + osz)
                (wrap_i64 (vcn + le_or_loop buf (runPtr + 1) 0 (Z.to_nat lsz) 0))
                (wrap_i64 (prevLcn + ReadSignedValue buf (runPtr + 1 + lsz) osz))).
  lia.
Qed.

(** X6: every decoded segment takes at least two bytes of the record: an
    attribute record of [Length] bytes whose run list starts at [RunOffset]
    yields at most [(Length - RunOffset) / 2] segments, and none when
    [RunOffset] is not below [Length]. *)
Theorem ParseRunList_count (buf : list byte) (header : Z) :
  2 * Z.of_nat (length (ParseRunList buf header))
  <= Z.max 0 (AttributeRecordHeader.Length buf header
              - AttributeRecordHeader.RunOffset buf header).
Proof.
  unfold ParseRunList.
  destruct (AttributeRecordHeader.NonResident buf header =? 0); [cbn [length]; lia |].
  cbv zeta.
  pose proof (run_loop_length buf (header + AttributeRecordHeader.Length buf header)
                (Z.to_nat (header + AttributeRecordHeader.Length buf header
                           - (header + AttributeRecordHeader.RunOffset buf header)))
                (header + AttributeRecordHeader.RunOffset buf header)
                (wrap_i64 (AttributeRecordHeader.LowestVcn buf header)) 0) as H.
  lia.
Qed.

Lemma rdLE_agree lo hi buf buf' :
  agree_on lo hi buf buf' ->
  forall n off, lo <= off -> off + Z.of_nat n <= hi -> rdLE n buf off = rdLE n buf' off.
Proof.
  intros Hag. induction n as [| n IH]; intros off Hlo Hhi; [reflexivity |].
  cbn [rdLE]. rewrite (Hag off) by lia. rewrite IH by lia. reflexivity.
Qed.

Lemma le_or_loop_agree lo hi buf buf' data :
  agree_on lo hi buf buf' ->
  forall n i value, lo <= data + i -> data + i + Z.of_nat n <= hi ->
    le_or_loop buf data i n value = le_or_loop buf' data i n value.
Proof.
  intros Hag. induction n as [| n IH]; intros i value Hlo Hhi; [reflexivity |].
  cbn [le_or_loop]. rewrite (Hag (data + i)) by lia. apply IH; lia.
Qed.

Lemma ReadSignedValue_agree lo hi buf buf' data size :
  agree_on lo hi buf buf' -> lo <= data -> data + size <= hi ->
  ReadSignedValue buf data size = ReadSignedValue buf' data size.
Proof.
  intros Hag Hlo Hhi. unfold ReadSignedValue.
  destruct ((size <=? 0) || (8 <? size)) eqn:Hg; [reflexivity |].
  apply orb_false_iff in Hg. destruct Hg as [Hg1 Hg2].
  apply Z.leb_gt in Hg1. apply Z.ltb_ge in Hg2.
  cbv zeta. rewrite (Hag (data + (size - 1))) by lia.
  rewrite (le_or_loop_agree lo hi buf buf' data Hag) by lia.
  reflexivity.
Qed.

Lemma run_loop_agree lo buf buf' end_ :
  agree_on lo end_ buf buf' ->
  forall fuel runPtr vcn prevLcn, lo <= runPtr ->
    run_loop fuel buf end_ runPtr vcn prevLcn = run_loop fuel buf' end_ runPtr vcn prevLcn.
Proof.
  intros Hag. induction fuel as [| fuel IH]; intros runPtr vcn prevLcn Hlo; [reflexivity |].
  cbn [run_loop].
  destruct (Z.ltb_spec runPtr end_) as [Hlt | Hge]; [| reflexivity].
  rewrite <- (Hag runPtr) by lia. cbn [andb].
  destruct (negb (rd8 buf runPtr =? 0)); [| reflexivity].
  set (lsz := Z.land (rd8 buf runPtr) 15).
  set (osz := Z.land (Z.shiftr (rd8 buf runPtr) 4) 15).
  destruct ((lsz <=? 0) || (osz <? 0) || (end_ <? runPtr + 1 + lsz + osz)) eqn:Hg;
    [reflexivity |].
  apply orb_false_iff in Hg. destruct Hg as [Hg Hg3].
  apply orb_false_iff in Hg. destruct Hg as [Hg1 Hg2].
  apply Z.leb_gt in Hg1. apply Z.ltb_ge in Hg2. apply Z.ltb_ge in Hg3.
  cbv zeta.
  rewrite <- (le_or_loop_agree lo end_ buf buf' (runPtr + 1) Hag) by lia.
  rewrite <- (ReadSignedValue_agree lo end_ buf buf' (runPtr + 1 + lsz) osz Hag) by lia.
  f_equal. apply IH. lia.
Qed.

Lemma rd8_app_l buf extra off :
  0 <= off < Z.of_nat (length buf) -> rd8 buf off = rd8 (buf ++ extra) off.
Proof.
  intros H. unfold rd8. rewrite app_nth1 by lia. reflexivity.
Qed.

Lemma ParseRunList_agree (buf buf' : list byte) (header : Z) :
  agree_on header (header + Z.max 34 (AttributeRecordHeader.Length buf header)) buf buf' ->
  ParseRunList buf header = ParseRunList buf' header.
Proof.
  intros Hag. unfold ParseRunList.
  assert (Hhead : agree_on header (header + 34) buf buf')
    by (intros off Hoff; apply Hag; lia).
  assert (Hrec : agree_on header (header + AttributeRecordHeader.Length buf header) buf buf')
    by (intros off Hoff; apply Hag; lia).
  unfold AttributeRecordHeader.NonResident, AttributeRecordHeader.RunOffset,
    AttributeRecordHeader.Length, AttributeRecordHeader.LowestVcn, rd16, rd32, rd64 in *.
  rewrite <- (Hhead (header + 8)) by lia.
  destruct (rd8 buf (header + 8) =? 0); [reflexivity |].
  cbv zeta.
  rewrite <- (rdLE_agree _ _ _ _ Hhead 2%nat (header + 32)) by lia.
  rewrite <- (rdLE_agree _ _ _ _ Hhead 4%nat (header + 4)) by lia.
  rewrite <- (rdLE_agree _ _ _ _ Hhead 8%nat (header + 16)) by lia.
  apply (run_loop_agree header). { exact Hrec. }
  pose proof (rdLE_range 2 buf (header + 32)). lia.
Qed.

(** X7: the run-list parser reads nothing outside the attribute record: two
    memories that hold the same bytes in the first 34 bytes of the record
    (the fields it uses) and up to the record's [Length] decode to the same
    segments, whatever lies beyond. *)
Theorem ParseRunList_local (buf buf' : list byte) (header : Z) :
  agree_on header (header + Z.max 34 (AttributeRecordHeader.Length buf header)) buf buf' ->
  ParseRunList buf header = ParseRunList buf' header.
Proof. apply ParseRunList_agree. Qed.

Lemma ParseRunList_local_witness :
  ParseRunList scenario_attribute 0 = ParseRunList (scenario_attribute ++ [xff; xff]) 0.
Proof.
  apply (ParseRunList_local scenario_attribute (scenario_attribute ++ [xff; xff]) 0).
  intros off Hoff. apply rd8_app_l.
  assert (Hhi : 0 + Z.max 34 (AttributeRecordHeader.Length scenario_attribute 0) = 80)
    by (vm_compute; reflexivity).
  assert (Hlen : Z.of_nat (length scenario_attribute) = 80) by (vm_compute; reflexivity).
  rewrite Hhi in Hoff. rewrite Hlen. exact Hoff.
Defined.

(** ** The file-record parser *)

Lemma attribute_loop_walk buf end_ :
  forall fuel attrPtr,
    exists ptrs,
      attribute_loop fuel buf end_ attrPtr = map (parse_attribute buf) ptrs
      /\ record_walk buf end_ attrPtr ptrs.
Proof.
  induction fuel as [| fuel IH]; intros attrPtr.
  - exists []. split; [reflexivity | exact I].
  - cbn [attribute_loop].
    destruct (Z.leb_spec (attrPtr + AttributeRecordHeader.sizeof) end_) as [Hhdr | _];
      [| exists []; split; [reflexivity | exact I]].
    destruct (Z.eqb_spec (AttributeRecordHeader.Type_ buf attrPtr) 4294967295) as [_ | Hty];
      [exists []; split; [reflexivity | exact I] |].
    destruct (Z.eqb_spec (AttributeRecordHeader.Length buf attrPtr) 0) as [_ | Hlen];
      [exists []; split; [reflexivity | exact I] |].
    cbn [orb].
    destruct (Z.ltb_spec end_ (attrPtr + AttributeRecordHeader.Length buf attrPtr))
      as [_ | Hend]; [exists []; split; [reflexivity | exact I] |].
    destruct (IH (attrPtr + AttributeRecordHeader.Length buf attrPtr)) as (ptrs & Hp & Hw).
    exists (attrPtr :: ptrs). split; [cbn [map]; now rewrite Hp |].
    cbn [record_walk].
    pose proof (rdLE_range 4 buf (attrPtr + 4)) as Hr.
    unfold AttributeRecordHeader.Length, rd32 in *.
    repeat split; try assumption; try lia.
Qed.

(** X8: a file record that parses yields the attributes of a chain of
    attribute records lying inside the record: the first at
    [FirstAttributeOffset], each next one [Length] bytes after the one
    before, every one with its 72-byte header and its [Length] bytes below
    the end of the record, a positive [Length] and a type other than the end
    marker. *)
Theorem ParseFileRecord_walk (buf : list byte) (buffer length : Z)
    (details : FileRecordDetails.t) :
  ParseFileRecord buf buffer length = Some details ->
  exists ptrs,
    FileRecordDetails.attributes details = map (parse_attribute buf) ptrs
    /\ record_walk buf (buffer + length)
         (buffer + FileRecordHeader.FirstAttributeOffset buf buffer) ptrs.
Proof.
  unfold ParseFileRecord. intros H.
  destruct (length <? FileRecordHeader.sizeof); [discriminate |].
  destruct (negb (FileRecordHeader.Magic buf buffer =? 1162627398)); [discriminate |].
  cbv zeta in H. injection H as <-. cbn [FileRecordDetails.attributes].
  apply attribute_loop_walk.
Qed.

Lemma ParseFileRecord_walk_witness :
  exists details ptrs,
    ParseFileRecord empty_streams_record 0 1024 = Some details
    /\ FileRecordDetails.attributes details = map (parse_attribute empty_streams_record) ptrs
    /\ record_walk empty_streams_record (0 + 1024)
         (0 + FileRecordHeader.FirstAttributeOffset empty_streams_record 0) ptrs.
Proof.
  destruct (ParseFileRecord empty_streams_record 0 1024) as [details |] eqn:Hparse;
    [| vm_compute in Hparse; discriminate].
  exists details.
  destruct (ParseFileRecord_walk empty_streams_record 0 1024 details Hparse) as [ptrs Hp].
  exists ptrs. split; [reflexivity | exact Hp].
Defined.

(** X9: for a resident attribute whose value lies inside its record, the
    object handed to the callback carries the value as Base64 text that
    decodes to exactly the [ValueLength] bytes at [ValueOffset], carries no
    [runs], and gives [ValueLength] as both sizes. *)
Theorem resident_value_round_trip (buf : list byte) (p : Z) :
  AttributeRecordHeader.NonResident buf p = 0 ->
  0 < AttributeRecordHeader.ValueLength buf p ->
  AttributeRecordHeader.ValueOffset buf p + AttributeRecordHeader.ValueLength buf p
    <= AttributeRecordHeader.Length buf p ->
  let obj := attribute_object (parse_attribute buf p) in
  exists text,
    AttributeObject.residentDataBase64 obj = Some text
    /\ Base64Decode text
       = Some (read_bytes buf (p + AttributeRecordHeader.ValueOffset buf p)
                 (AttributeRecordHeader.ValueLength buf p))
    /\ AttributeObject.runs obj = None
    /\ AttributeObject.dataSize obj = to_string (AttributeRecordHeader.ValueLength buf p)
    /\ AttributeObject.allocatedSize obj
       = to_string (AttributeRecordHeader.ValueLength buf p).
Proof.
  intros Hres Hlen Hfit obj. subst obj. unfold parse_attribute.
  rewrite Hres. cbn [Z.eqb negb].
  pose proof (rdLE_range 4 buf (p + 4)) as Hr.
  pose proof (rdLE_range 2 buf (p + 20)) as Ho.
  fold rd32 in Hr. fold (AttributeRecordHeader.Length buf p) in Hr.
  fold rd16 in Ho. fold (AttributeRecordHeader.ValueOffset buf p) in Ho.
  rewrite wrap_u32_small by (change (8 * Z.of_nat 4) with 32 in Hr; lia).
  destruct (Z.leb_spec (AttributeRecordHeader.ValueOffset buf p
                        + AttributeRecordHeader.ValueLength buf p)
              (AttributeRecordHeader.Length buf p)); [| lia].
  destruct (Z.ltb_spec 0 (AttributeRecordHeader.ValueLength buf p)); [| lia].
  cbn [andb]. unfold attribute_object.
  cbn [AttributeInfo.runs AttributeInfo.residentData AttributeInfo.dataSize
       AttributeInfo.allocatedSize AttributeObject.residentDataBase64
       AttributeObject.runs AttributeObject.dataSize AttributeObject.allocatedSize
       is_nil negb].
  assert (Hne : is_nil (read_bytes buf (p + AttributeRecordHeader.ValueOffset buf p)
                          (AttributeRecordHeader.ValueLength buf p)) = false).
  { unfold read_bytes.
    destruct (Z.to_nat (AttributeRecordHeader.ValueLength buf p)) eqn:Hn; [lia |].
    reflexivity. }
  rewrite Hne. cbn [negb].
  eexists. split; [reflexivity |]. split.
  { match goal with
    | |- Base64Decode (Base64Encode ?d) = _ =>
        apply (Base64_round_trip_upto (length d)); lia
    end. }
  repeat split.
Qed.

Lemma resident_value_round_trip_witness :
  exists text,
    AttributeObject.residentDataBase64
      (attribute_object (parse_attribute (resident_attribute 128 [x68; x69]) 0)) = Some text
    /\ Base64Decode text = Some [x68; x69].
Proof.
  destruct (resident_value_round_trip (resident_attribute 128 [x68; x69]) 0)
    as (text & Htext & Hdec & _).
  - reflexivity.
  - reflexivity.
  - vm_compute. discriminate.
  - exists text. split; [exact Htext | exact Hdec].
Defined.

(** ** The drive letter *)

Lemma scan_object_same_but_drive d1 d2 res :
  same_but_drive d1 d2 (scan_object d1 res) (scan_object d2 res).
Proof.
  split; [reflexivity |]. split; [reflexivity |].
  intros key Hkey. unfold scan_object, Get. cbn [lookup_field].
  repeat match goal with
         | |- context [if String.eqb ?k key then _ else _] =>
             destruct (String.eqb_spec k key) as [Heq | _];
             [try reflexivity; try (symmetry in Heq; contradiction) |]
         end.
  reflexivity.
Qed.

(** X10: each of the three workers uses of its drive string only the first
    character, upper-cased: for two drive strings whose first characters
    have the same upper case, the file-record operation hands the same value
    or error to its callback and the scan worker and the recovery worker
    have the same outcome, whatever follows the first character. What the
    host receives from the two scans differs in one thing only: the [drive]
    property of every result object is the drive string as it was given. *)
Theorem drive_first_character_only (os : Os.t) (c1 c2 : ascii) (rest1 rest2 : string)
    (fuel : nat) (fileRef : Z) (runs : list DataRunSegment) (clusterSize fileSize : Z)
    (outputPath : list Z) :
  towupper (char_code c1) = towupper (char_code c2) ->
  getFileRecord os (String c1 rest1) fileRef = getFileRecord os (String c2 rest2) fileRef
  /\ ScanUsnWorker_Execute fuel os (String c1 rest1)
     = ScanUsnWorker_Execute fuel os (String c2 rest2)
  /\ scans_agree (String c1 rest1) (String c2 rest2)
       (scan fuel os [JsString (String c1 rest1); JsFunction])
       (scan fuel os [JsString (String c2 rest2); JsFunction])
  /\ DataRunRecoveryWorker_Execute fuel os
       {| DataRunRecoveryWorker.drive_ := String c1 rest1;
          DataRunRecoveryWorker.runs_ := runs;
          DataRunRecoveryWorker.clusterSize_ := clusterSize;
          DataRunRecoveryWorker.fileSize_ := fileSize;
          DataRunRecoveryWorker.outputPath_ := outputPath |}
     = DataRunRecoveryWorker_Execute fuel os
         {| DataRunRecoveryWorker.drive_ := String c2 rest2;
            DataRunRecoveryWorker.runs_ := runs;
            DataRunRecoveryWorker.clusterSize_ := clusterSize;
            DataRunRecoveryWorker.fileSize_ := fileSize;
            DataRunRecoveryWorker.outputPath_ := outputPath |}.
Proof.
  intros Hup.
  assert (Hscan : ScanUsnWorker_Execute fuel os (String c1 rest1)
                  = ScanUsnWorker_Execute fuel os (String c2 rest2)).
  { unfold ScanUsnWorker_Execute, ScanUsnWorker_volumePath, scan_result, reconstruct_path,
      upperDriveChar.
    rewrite Hup. reflexivity. }
  split; [| split; [exact Hscan | split]].
  - unfold getFileRecord, FileRecordWorker_Execute, FileRecordWorker_volumePath.
    rewrite Hup. reflexivity.
  - unfold scan. cbn [ScanUsn IsString IsFunction negb]. rewrite Hscan.
    destruct (ScanUsnWorker_Execute fuel os (String c2 rest2)) as [[results | msg] |];
      cbn [scans_agree]; [| reflexivity | exact I].
    unfold ScanUsnWorker_OnOK. clear Hscan.
    induction results as [| res results IH]; cbn [map]; [constructor |].
    constructor; [| exact IH].
    apply scan_object_same_but_drive.
  - unfold DataRunRecoveryWorker_Execute, DataRunRecoveryWorker_volumePath.
    cbn [DataRunRecoveryWorker.drive_ DataRunRecoveryWorker.runs_
         DataRunRecoveryWorker.clusterSize_ DataRunRecoveryWorker.fileSize_
         DataRunRecoveryWorker.outputPath_].
    rewrite Hup. reflexivity.
Qed.

Lemma drive_first_character_only_witness :
  scans_agree "c" "C:\"
    (scan 3 (one_batch_os scenario_batch) [JsString "c"; JsFunction])
    (scan 3 (one_batch_os scenario_batch) [JsString "C:\"; JsFunction]).
Proof.
  apply (drive_first_character_only (one_batch_os scenario_batch)
           "c" "C" EmptyString ":\" 3 5 [] 0 0 []).
  reflexivity.
Defined.

(** ** Decimal text *)

Lemma read_digits_step c k rest acc count :
  digit_of c = Some k ->
  read_digits (String c rest) acc count = read_digits rest (acc * 10 + k) (count + 1).
Proof. intros H. cbn [read_digits]. now rewrite H. Qed.

Lemma read_digits_uint d :
  forall acc count,
    read_digits (NilEmpty.string_of_uint d) acc count
    = (uint_value d acc, count + string_size (NilEmpty.string_of_uint d)).
Proof.
  unfold string_size.
  induction d as [| d IH | d IH | d IH | d IH | d IH | d IH | d IH | d IH | d IH | d IH];
    intros acc count; cbn [NilEmpty.string_of_uint uint_value String.length];
    [cbn [read_digits]; f_equal; lia | ..];
    erewrite read_digits_step by reflexivity; rewrite IH; f_equal; lia.
Qed.

Lemma uint_value_pos d :
  forall p, uint_value d (Z.pos p) = Z.pos (Pos.of_uint_acc d p).
Proof.
  induction d; intros p; cbn [uint_value Pos.of_uint_acc]; [reflexivity | ..];
    match goal with
    | |- uint_value _ ?a = Z.pos (Pos.of_uint_acc _ ?q) =>
        replace a with (Z.pos q) by lia
    end; apply IHd.
Qed.

Lemma uint_value_of_uint d : uint_value d 0 = Z.of_N (Pos.of_uint d).
Proof.
  induction d; cbn [uint_value Pos.of_uint]; [reflexivity | exact IHd | ..];
    rewrite Z.mul_0_l, Z.add_0_l, uint_value_pos; reflexivity.
Qed.

(** The digits [std::to_string] writes for [p] read back as [p]. *)
Lemma uint_value_to_uint p : uint_value (Pos.to_uint p) 0 = Z.pos p.
Proof. rewrite uint_value_of_uint, DecimalPos.Unsigned.of_to. reflexivity. Qed.

Lemma parse_integer_digits d :
  d <> Decimal.Nil ->
  parse_integer (NilEmpty.string_of_uint d)
  = Some (false, uint_value d 0, string_size (NilEmpty.string_of_uint d))
  /\ parse_integer (String "-" (NilEmpty.string_of_uint d))
     = Some (true, uint_value d 0, string_size (String "-" (NilEmpty.string_of_uint d))).
Proof.
  intros Hd.
  assert (Hlen : 0 < string_size (NilEmpty.string_of_uint d)).
  { unfold string_size. destruct d; [congruence | ..];
      cbn [NilEmpty.string_of_uint String.length]; lia. }
  split.
  - unfold parse_integer.
    assert (Hskip : skip_space (NilEmpty.string_of_uint d) 0 = (NilEmpty.string_of_uint d, 0)).
    { destruct d; [congruence | ..]; reflexivity. }
    rewrite Hskip.
    assert (Hsign : match NilEmpty.string_of_uint d with
                    | String c rest =>
                        if Ascii.eqb c "-" then (true, rest, 0 + 1)
                        else if Ascii.eqb c "+" then (false, rest, 0 + 1)
                        else (false, NilEmpty.string_of_uint d, 0)
                    | EmptyString => (false, NilEmpty.string_of_uint d, 0)
                    end = (false, NilEmpty.string_of_uint d, 0)).
    { destruct d; [congruence | ..]; reflexivity. }
    rewrite Hsign. rewrite read_digits_uint.
    destruct (Z.eqb_spec (0 + string_size (NilEmpty.string_of_uint d)) 0); [lia |].
    reflexivity.
  - unfold parse_integer.
    change (skip_space (String "-" ?s) 0) with (String "-" s, 0).
    cbn [Ascii.eqb Bool.eqb]. rewrite read_digits_uint.
    destruct (Z.eqb_spec (0 + string_size (NilEmpty.string_of_uint d)) 0); [lia |].
    unfold string_size. cbn [String.length]. do 3 f_equal. lia.
Qed.

(** What [parse_integer] finds in the text of an integer: its sign, its
    magnitude, and the whole text consumed. *)
Lemma parse_integer_to_string z :
  parse_integer (to_string z) = Some (z <? 0, Z.abs z, string_size (to_string z)).
Proof.
  unfold to_string. destruct z as [| p | p].
  - reflexivity.
  - cbn [Z.to_int NilZero.string_of_int]. unfold NilZero.string_of_uint.
    pose proof (Unsigned.to_uint_nonnil p) as Hnn.
    destruct (parse_integer_digits (Pos.to_uint p) Hnn) as [Hpos _].
    rewrite uint_value_to_uint in Hpos.
    destruct (Pos.to_uint p) eqn:Hd; [congruence | ..]; exact Hpos.
  - cbn [Z.to_int NilZero.string_of_int]. unfold NilZero.string_of_uint.
    pose proof (Unsigned.to_uint_nonnil p) as Hnn.
    destruct (parse_integer_digits (Pos.to_uint p) Hnn) as [_ Hneg].
    rewrite uint_value_to_uint in Hneg.
    destruct (Pos.to_uint p) eqn:Hd; [congruence | ..]; exact Hneg.
Qed.

Lemma TryParseSigned_text z output :
  - 2 ^ 63 <= z < 2 ^ 63 -> TryParseSigned (to_string z) output = (true, z).
Proof.
  intros Hz. unfold TryParseSigned, stoll. rewrite parse_integer_to_string.
  destruct (Z.ltb_spec z 0).
  - destruct (Z.ltb_spec (2 ^ 63) (Z.abs z)); [lia |].
    rewrite Z.eqb_refl. f_equal. lia.
  - destruct (Z.leb_spec (2 ^ 63) (Z.abs z)); [lia |].
    rewrite Z.eqb_refl. f_equal. lia.
Qed.

Lemma TryParseUnsigned_text z output :
  - 2 ^ 64 < z < 2 ^ 64 -> TryParseUnsigned (to_string z) output = (true, wrap_u64 z).
Proof.
  intros Hz. unfold TryParseUnsigned, stoull. rewrite parse_integer_to_string.
  destruct (Z.leb_spec (2 ^ 64) (Z.abs z)); [lia |].
  rewrite Z.eqb_refl. f_equal.
  destruct (Z.ltb_spec z 0).
  - f_equal. lia.
  - rewrite wrap_u64_small by lia. lia.
Qed.

(** X11: the signed parser reads back every 64-bit signed value from the
    decimal text [std::to_string] writes for it, consuming the whole text. *)
Theorem TryParseSigned_to_string (z output : Z) :
  - 2 ^ 63 <= z < 2 ^ 63 -> TryParseSigned (to_string z) output = (true, z).
Proof. apply TryParseSigned_text. Qed.

Lemma TryParseSigned_to_string_witness :
  TryParseSigned (to_string (-9223372036854775808)) 0 = (true, -9223372036854775808).
Proof. apply (TryParseSigned_to_string (-9223372036854775808) 0). lia. Defined.

(** X12: the unsigned parser reads back every 64-bit unsigned value from
    its decimal text, and reads the text of a negative value above [-2^64]
    as that value modulo [2^64] rather than refusing it. *)
Theorem TryParseUnsigned_to_string (z output : Z) :
  - 2 ^ 64 < z < 2 ^ 64 ->
  TryParseUnsigned (to_string z) output = (true, wrap_u64 z)
  /\ (0 <= z -> wrap_u64 z = z)
  /\ (z < 0 -> wrap_u64 z = z + 2 ^ 64).
Proof.
  intros Hz. split; [now apply TryParseUnsigned_text |]. split; intros Hs.
  - apply wrap_u64_small. lia.
  - unfold wrap_u64. replace z with (z + 2 ^ 64 + (-1) * 2 ^ 64) at 1 by lia.
    rewrite Z.mod_add by lia. apply Z.mod_small. lia.
Qed.

Lemma TryParseUnsigned_to_string_witness :
  TryParseUnsigned (to_string 18446744073709551615) 0 = (true, wrap_u64 18446744073709551615).
Proof. apply (TryParseUnsigned_to_string 18446744073709551615 0). lia. Defined.

(** ** From a file record to a recovery request *)

Lemma run_loop_i64 buf end_ :
  forall fuel runPtr vcn prevLcn,
    - 2 ^ 63 <= vcn < 2 ^ 63 ->
    Forall segment_i64 (run_loop fuel buf end_ runPtr vcn prevLcn).
Proof.
  induction fuel as [| fuel IH]; intros runPtr vcn prevLcn Hv; [constructor |].
  cbn [run_loop].
  destruct ((runPtr <? end_) && negb (rd8 buf runPtr =? 0)); [| constructor].
  destruct (_ || _); [constructor |].
  cbv zeta. constructor.
  - unfold segment_i64. cbn [vcnStart lcn seg_length].
    split; [exact Hv |]. split; [apply wrap_i64_range |].
    apply le_or_loop_range. lia.
  - apply IH. apply wrap_i64_range.
Qed.

Lemma ParseRunList_i64 buf header : Forall segment_i64 (ParseRunList buf header).
Proof.
  unfold ParseRunList.
  destruct (AttributeRecordHeader.NonResident buf header =? 0); [constructor |].
  cbv zeta. apply run_loop_i64. apply wrap_i64_range.
Qed.

Lemma parse_run_entry_run_object s :
  segment_i64 s -> parse_run_entry (run_value (run_object s)) = Done s.
Proof.
  intros (Hv & Hl & Hn). unfold parse_run_entry.
  change (IsObject (run_value (run_object s))) with true. cbn [negb].
  change (Get (run_value (run_object s)) "length") with (JsString (to_string (seg_length s))).
  change (Get (run_value (run_object s)) "lcn") with (JsString (to_string (lcn s))).
  change (Get (run_value (run_object s)) "vcn") with (JsString (to_string (vcnStart s))).
  change (Get (run_value (run_object s)) "sparse") with (JsBoolean (sparse s)).
  unfold signed_field.
  rewrite !TryParseSigned_text by assumption. cbn [snd].
  destruct s; reflexivity.
Qed.

Lemma ParseRunsArray_run_objects segs :
  Forall segment_i64 segs ->
  ParseRunsArray (map run_value (map run_object segs)) = Done segs.
Proof.
  induction 1 as [| s segs Hs _ IH]; [reflexivity |].
  cbn [map ParseRunsArray]. rewrite parse_run_entry_run_object by exact Hs.
  rewrite IH. reflexivity.
Qed.

(** X13: what the file-record operation reports for an attribute can be
    handed back to the recovery operation as it is: the run objects parse,
    as the array of runs, to the very segments decoded from the attribute
    record, and the [dataSize] text parses to the attribute's size. *)
Theorem getFileRecord_runs_parse_back (buf : list byte) (p : Z) (runs : list RunObject.t) :
  AttributeObject.runs (attribute_object (parse_attribute buf p)) = Some runs ->
  ParseRunsArray (map run_value runs) = Done (ParseRunList buf p)
  /\ TryParseUnsigned (AttributeObject.dataSize (attribute_object (parse_attribute buf p))) 0
     = (true, AttributeRecordHeader.DataSize buf p).
Proof.
  unfold parse_attribute.
  destruct (negb (AttributeRecordHeader.NonResident buf p =? 0)).
  - unfold attribute_object.
    cbn [AttributeInfo.runs AttributeObject.runs AttributeInfo.dataSize AttributeObject.dataSize].
    destruct (negb (is_nil (ParseRunList buf p))); [| discriminate].
    intros [= <-]. split.
    + apply ParseRunsArray_run_objects, ParseRunList_i64.
    + pose proof (rdLE_range 8 buf (p + 48)) as Hr.
      fold rd64 in Hr. fold (AttributeRecordHeader.DataSize buf p) in Hr.
      change (8 * Z.of_nat 8) with 64 in Hr.
      rewrite TryParseUnsigned_text by lia. rewrite wrap_u64_small by lia. reflexivity.
  - unfold attribute_object.
    cbn [AttributeInfo.runs AttributeObject.runs is_nil negb]. discriminate.
Qed.

Lemma getFileRecord_runs_parse_back_witness :
  ParseRunsArray
    (map run_value (map run_object (ParseRunList scenario_attribute 0)))
  = Done (ParseRunList scenario_attribute 0).
Proof.
  apply (getFileRecord_runs_parse_back scenario_attribute 0
           (map run_object (ParseRunList scenario_attribute 0))).
  reflexivity.
Defined.

(** ** The scan *)

Lemma FileTimeToUnixMilliseconds_range t :
  - 2 ^ 63 <= t < 2 ^ 63 -> - 2 ^ 53 < FileTimeToUnixMilliseconds t < 2 ^ 53.
Proof.
  intros Ht. unfold FileTimeToUnixMilliseconds.
  assert (- 922337203685478 < Z.quot t 10000 < 922337203685478).
  { Z.to_euclidean_division_equations. lia. }
  lia.
Qed.

Lemma record_loop_reported buf :
  forall fuel recordPtr recordBytes fileTable deleted,
    Forall deleted_reported deleted ->
    Forall deleted_reported
      (snd (record_loop fuel buf recordPtr recordBytes fileTable deleted)).
Proof.
  induction fuel as [| fuel IH]; intros recordPtr recordBytes fileTable deleted Hd;
    [exact Hd |].
  cbn [record_loop].
  destruct (0 <? recordBytes); [| exact Hd].
  destruct (recordBytes <? USN_RECORD_V2.sizeof); [exact Hd |].
  destruct (_ || _); [exact Hd |].
  cbv zeta. apply IH.
  destruct (Z.eqb_spec (Z.land (USN_RECORD_V2.Reason buf recordPtr) USN_REASON_FILE_DELETE) 0)
    as [Hz | Hnz]; cbn [negb]; [exact Hd |].
  apply Forall_app. split; [exact Hd |]. constructor; [| constructor].
  unfold deleted_reported, reported.
  cbn [DeletedRecord.fileRef DeletedRecord.timestampMs DeletedRecord.reason].
  split; [exact Hnz |]. split.
  - pose proof (rdLE_range 8 buf (recordPtr + 8)) as Hr.
    unfold USN_RECORD_V2.FileReferenceNumber, rd64.
    change (8 * Z.of_nat 8) with 64 in Hr. exact Hr.
  - apply FileTimeToUnixMilliseconds_range. unfold USN_RECORD_V2.TimeStamp.
    apply wrap_i64_range.
Qed.

Lemma enum_loop_reported os volumePath :
  forall fuel st st',
    enum_loop fuel os volumePath st = Some (Done st') ->
    Forall deleted_reported (ScanState.deleted st) ->
    Forall deleted_reported (ScanState.deleted st').
Proof.
  induction fuel as [| fuel IH]; intros st st' Hrun Hd; [discriminate |].
  cbn [enum_loop] in Hrun. unfold enum_step in Hrun.
  destruct (Os.EnumUsnData os volumePath (ScanState.StartFileReferenceNumber st))
    as [[bytesReturned buffer] | err].
  - destruct (bytesReturned <=? 8); [now apply (IH st) |].
    cbv zeta in Hrun.
    pose proof (record_loop_reported buffer (Z.to_nat (bytesReturned - 8)) 8
                  (bytesReturned - 8) (ScanState.fileTable st) (ScanState.deleted st) Hd)
      as Hstep.
    destruct (record_loop _ _ _ _ _ _) as [fileTable deleted].
    apply (IH _ _ Hrun). exact Hstep.
  - destruct (err =? ERROR_HANDLE_EOF); [| discriminate].
    injection Hrun as <-. exact Hd.
Qed.

Lemma ScanUsnWorker_Execute_reported fuel os drive_ results :
  ScanUsnWorker_Execute fuel os drive_ = Some (Done results) ->
  Forall (fun r => reported (ScanResult.fileRef r) (ScanResult.timestampMs r)
                     (ScanResult.reason r)) results.
Proof.
  unfold ScanUsnWorker_Execute. destruct drive_ as [| c rest]; [discriminate |].
  destruct (Os.OpenVolume os _); [| discriminate].
  destruct (enum_loop _ _ _ _) as [[st | msg] |] eqn:Hloop; try discriminate.
  intros [= <-].
  pose proof (enum_loop_reported _ _ _ _ _ Hloop (List.Forall_nil _)) as Hd.
  clear Hloop.
  induction Hd as [| r rs Hr _ IH]; cbn [map]; [constructor |].
  constructor; [exact Hr | exact IH].
Qed.

(** X14: a scan that ends well reports only records whose reason carries
    the delete bit; the reference of each is a 64-bit unsigned value and its
    time in milliseconds lies strictly between [-2^53] and [2^53], so that
    its conversion to a double loses nothing. *)
Theorem scan_reports (fuel : nat) (os : Os.t) (drive_ : string)
    (results : list ScanResult.t) :
  ScanUsnWorker_Execute fuel os drive_ = Some (Done results) ->
  Forall (fun r => reported (ScanResult.fileRef r) (ScanResult.timestampMs r)
                     (ScanResult.reason r)) results.
Proof. apply ScanUsnWorker_Execute_reported. Qed.

Lemma scan_reports_witness :
  exists results,
    ScanUsnWorker_Execute 3 (one_batch_os scenario_batch) "c" = Some (Done results)
    /\ results <> []
    /\ Forall (fun r => reported (ScanResult.fileRef r) (ScanResult.timestampMs r)
                          (ScanResult.reason r)) results.
Proof.
  destruct (ScanUsnWorker_Execute 3 (one_batch_os scenario_batch) "c")
    as [[results | msg] |] eqn:Hrun; try (vm_compute in Hrun; discriminate).
  exists results. split; [reflexivity |]. split.
  - intros ->. vm_compute in Hrun. discriminate.
  - exact (scan_reports 3 (one_batch_os scenario_batch) "c" results Hrun).
Defined.

Lemma stoull_to_string n :
  0 <= n < 2 ^ 64 -> stoull (to_string n) = Converted n (string_size (to_string n)).
Proof.
  intros Hn. unfold stoull. rewrite parse_integer_to_string.
  destruct (Z.leb_spec (2 ^ 64) (Z.abs n)); [lia |].
  destruct (Z.ltb_spec n 0); [lia |]. f_equal. lia.
Qed.

(** X15: every object a scan hands to its callback can be passed on to the
    file-record entry point: its [drive] and [fileReferenceNumber]
    properties are accepted there and queue the request for the scanned
    drive and for the reference the text was written from. *)
Theorem scan_references_accepted (fuel : nat) (os : Os.t) (drive : string)
    (rest : list JsValue) (items : list JsValue) :
  scan fuel os (JsString drive :: JsFunction :: rest) = Some (Queues (Done (JsArray items))) ->
  Forall (fun obj =>
            exists fileRef,
              Get obj "fileReferenceNumber" = JsString (to_string fileRef)
              /\ GetFileRecord [Get obj "drive"; Get obj "fileReferenceNumber"; JsFunction]
                 = Queues (drive, fileRef)) items.
Proof.
  unfold scan. cbn [ScanUsn IsString IsFunction negb].
  destruct (ScanUsnWorker_Execute fuel os drive) as [[results | msg] |] eqn:Hrun;
    try discriminate.
  intros [= <-].
  pose proof (ScanUsnWorker_Execute_reported _ _ _ _ Hrun) as Hrep. clear Hrun.
  induction Hrep as [| r rs (_ & Href & _) _ IH]; cbn [map]; [constructor |].
  constructor; [| exact IH].
  exists (ScanResult.fileRef r). split; [reflexivity |].
  change (Get (scan_object drive r) "drive") with (JsString drive).
  change (Get (scan_object drive r) "fileReferenceNumber")
    with (JsString (to_string (ScanResult.fileRef r))).
  unfold GetFileRecord. cbn [IsString IsFunction negb].
  rewrite stoull_to_string by exact Href. reflexivity.
Qed.

Lemma scan_references_accepted_witness :
  exists items,
    scan 3 (one_batch_os scenario_batch) [JsString "c"; JsFunction]
    = Some (Queues (Done (JsArray items)))
    /\ Forall (fun obj =>
                 exists fileRef,
                   Get obj "fileReferenceNumber" = JsString (to_string fileRef)
                   /\ GetFileRecord [Get obj "drive"; Get obj "fileReferenceNumber"; JsFunction]
                      = Queues ("c"%string, fileRef)) items.
Proof.
  destruct (scan 3 (one_batch_os scenario_batch) [JsString "c"; JsFunction])
    as [[msg | [value | msg]] |] eqn:Hrun; try (vm_compute in Hrun; discriminate).
  destruct value as [| | | | | | items |]; try (vm_compute in Hrun; discriminate).
  exists items. split; [reflexivity |].
  exact (scan_references_accepted 3 (one_batch_os scenario_batch) "c" [] items Hrun).
Defined.

(** ** Text after a number *)

Lemma string_size_app a b : string_size (a ++ b) = string_size a + string_size b.
Proof.
  unfold string_size. induction a as [| c a IH]; [reflexivity |].
  rewrite string_app_cons. cbn [String.length]. lia.
Qed.

Lemma read_digits_stop s acc count :
  starts_with_digit s = false -> read_digits s acc count = (acc, count).
Proof.
  destruct s as [| c s]; [reflexivity |]. cbn [starts_with_digit read_digits].
  destruct (digit_of c); [discriminate | reflexivity].
Qed.

Lemma read_digits_uint_app d suffix :
  starts_with_digit suffix = false ->
  forall acc count,
    read_digits (NilEmpty.string_of_uint d ++ suffix) acc count
    = (uint_value d acc, count + string_size (NilEmpty.string_of_uint d)).
Proof.
  intros Hs. unfold string_size.
  induction d as [| d IH | d IH | d IH | d IH | d IH | d IH | d IH | d IH | d IH | d IH];
    intros acc count; cbn [NilEmpty.string_of_uint uint_value String.length];
    [rewrite string_app_nil_l, read_digits_stop by exact Hs; f_equal; lia | ..];
    rewrite string_app_cons; erewrite read_digits_step by reflexivity;
    rewrite IH; f_equal; lia.
Qed.

Lemma parse_integer_digits_app d suffix :
  d <> Decimal.Nil -> starts_with_digit suffix = false ->
  parse_integer (NilEmpty.string_of_uint d ++ suffix)
  = Some (false, uint_value d 0, string_size (NilEmpty.string_of_uint d)).
Proof.
  intros Hd Hs.
  assert (Hlen : 0 < string_size (NilEmpty.string_of_uint d)).
  { unfold string_size. destruct d; [congruence | ..];
      cbn [NilEmpty.string_of_uint String.length]; lia. }
  unfold parse_integer.
  assert (Hskip : skip_space (NilEmpty.string_of_uint d ++ suffix) 0
                  = (NilEmpty.string_of_uint d ++ suffix, 0)%string).
  { destruct d; [congruence | ..]; reflexivity. }
  rewrite Hskip.
  assert (Hsign : match (NilEmpty.string_of_uint d ++ suffix)%string with
                  | String c rest =>
                      if Ascii.eqb c "-" then (true, rest, 0 + 1)
                      else if Ascii.eqb c "+" then (false, rest, 0 + 1)
                      else (false, (NilEmpty.string_of_uint d ++ suffix)%string, 0)
                  | EmptyString => (false, (NilEmpty.string_of_uint d ++ suffix)%string, 0)
                  end = (false, (NilEmpty.string_of_uint d ++ suffix)%string, 0)).
  { destruct d; [congruence | ..]; reflexivity. }
  rewrite Hsign. rewrite read_digits_uint_app by exact Hs.
  destruct (Z.eqb_spec (0 + string_size (NilEmpty.string_of_uint d)) 0); [lia |].
  reflexivity.
Qed.

Lemma stoull_text_then suffix n :
  0 <= n < 2 ^ 64 -> starts_with_digit suffix = false ->
  stoull (to_string n ++ suffix) = Converted n (string_size (to_string n)).
Proof.
  intros Hn Hs. unfold stoull, to_string. destruct n as [| p | p]; [| | lia].
  - cbn [Z.to_int NilZero.string_of_int NilZero.string_of_uint].
    change "0"%string with (NilEmpty.string_of_uint (Decimal.D0 Decimal.Nil)).
    rewrite parse_integer_digits_app by (congruence || exact Hs). reflexivity.
  - cbn [Z.to_int NilZero.string_of_int]. unfold NilZero.string_of_uint.
    pose proof (Unsigned.to_uint_nonnil p) as Hnn.
    pose proof (parse_integer_digits_app (Pos.to_uint p) suffix Hnn Hs) as Hp.
    rewrite uint_value_to_uint in Hp.
    destruct (Pos.to_uint p) eqn:Hd; [congruence | ..]; rewrite Hp;
      (destruct (Z.leb_spec (2 ^ 64) (Z.pos p)); [lia | reflexivity]).
Qed.

(** X16: the file-record entry point takes the number at the head of its
    reference text and disregards what follows it, where the parser of the
    recovery entry point refuses such a text: for a 64-bit unsigned [n] and
    a text that does not begin with a digit, [n] followed by the text queues
    the request for [n], while [TryParseUnsigned] stores [n] and answers
    whether the text is empty. *)
Theorem GetFileRecord_ignores_trailing_text (drive suffix : string) (n output : Z) :
  0 <= n < 2 ^ 64 ->
  starts_with_digit suffix = false ->
  GetFileRecord [JsString drive; JsString (to_string n ++ suffix); JsFunction]
  = Queues (drive, n)
  /\ TryParseUnsigned (to_string n ++ suffix) output = (string_empty suffix, n).
Proof.
  intros Hn Hs. split.
  - unfold GetFileRecord. cbn [IsString IsFunction negb].
    rewrite stoull_text_then by assumption. reflexivity.
  - unfold TryParseUnsigned. rewrite stoull_text_then by assumption.
    f_equal. rewrite string_size_app.
    destruct suffix as [| c suffix]; cbn [string_empty].
    + unfold string_size. cbn [String.length]. apply Z.eqb_eq. lia.
    + unfold string_size. cbn [String.length]. apply Z.eqb_neq. lia.
Qed.

Lemma GetFileRecord_ignores_trailing_text_witness :
  GetFileRecord [JsString "C"; JsString (to_string 42 ++ "abc"); JsFunction]
  = Queues ("C"%string, 42)
  /\ TryParseUnsigned (to_string 42 ++ "abc") 0 = (false, 42).
Proof.
  apply (GetFileRecord_ignores_trailing_text "C" "abc" 42 0); [lia | reflexivity].
Defined.

(** ** The size of the recovered file *)

Lemma write_zeros_length os zeroBuffer :
  forall fuel bytesToCopy produced output r,
    0 <= produced <= bytesToCopy -> bytesToCopy < 2 ^ 64 ->
    write_zeros fuel os zeroBuffer bytesToCopy produced output = Some r ->
    match r with
    | Copied output' =>
        Z.of_nat (length output') = Z.of_nat (length output) + (bytesToCopy - produced)
    | CopyFailed _ output' =>
        Z.of_nat (length output) <= Z.of_nat (length output')
        <= Z.of_nat (length output) + (bytesToCopy - produced)
    end.
Proof.
  induction fuel as [| fuel IH]; intros bytesToCopy produced output r Hp Hb Hrun;
    [discriminate |].
  cbn [write_zeros] in Hrun.
  destruct (Z.ltb_spec produced bytesToCopy) as [Hlt | Hge];
    [| injection Hrun as <-; lia].
  set (chunk := Z.min (bytesToCopy - produced) (Z.of_nat (length zeroBuffer))) in *.
  pose proof (wrap_u32_le chunk ltac:(lia)) as Hchunk.
  unfold WriteFile in Hrun.
  destruct (Os.WriteCount os _ _) as [count | err]; [| injection Hrun as <-; lia].
  set (written := Z.max 0 (Z.min count (wrap_u32 chunk))) in *.
  assert (Hw : 0 <= written <= chunk) by lia.
  rewrite wrap_u64_small in Hrun by lia.
  apply IH in Hrun; [| lia | lia].
  rewrite length_app, length_take in Hrun. destruct r; lia.
Qed.

Lemma copy_clusters_length os bufferSize :
  0 <= bufferSize ->
  forall fuel bytesToCopy processed pos output r,
    0 <= processed <= bytesToCopy -> bytesToCopy < 2 ^ 64 ->
    copy_clusters fuel os bufferSize bytesToCopy processed pos output = Some r ->
    match r with
    | Copied output' =>
        Z.of_nat (length output') = Z.of_nat (length output) + (bytesToCopy - processed)
    | CopyFailed _ output' =>
        Z.of_nat (length output) <= Z.of_nat (length output')
        <= Z.of_nat (length output) + (bytesToCopy - processed)
    end.
Proof.
  intros Hbuf.
  induction fuel as [| fuel IH]; intros bytesToCopy processed pos output r Hp Hb Hrun;
    [discriminate |].
  cbn [copy_clusters] in Hrun.
  destruct (Z.ltb_spec processed bytesToCopy) as [Hlt | Hge];
    [| injection Hrun as <-; lia].
  set (chunk := Z.min (bytesToCopy - processed) bufferSize) in *.
  pose proof (wrap_u32_le chunk ltac:(lia)) as Hchunk.
  unfold ReadFile in Hrun.
  destruct (Os.ReadCount os pos _) as [count | err]; [| injection Hrun as <-; lia].
  set (read := Z.max 0 (Z.min count (wrap_u32 chunk))) in *.
  fold (volume_bytes os pos read) in Hrun.
  assert (Hread : 0 <= read <= chunk) by lia.
  pose proof (length_volume_bytes os pos read ltac:(lia)) as Hlen.
  rewrite Hlen in Hrun.
  destruct (read =? 0); [injection Hrun as <-; lia |].
  unfold WriteFile in Hrun.
  destruct (Os.WriteCount os _ _) as [count' | err]; [| injection Hrun as <-; lia].
  set (written := Z.max 0 (Z.min count' read)) in *.
  assert (Hw : 0 <= written <= read) by lia.
  destruct (Z.eqb_spec written read) as [Heq | Hne]; cbn [negb] in Hrun.
  - rewrite wrap_u64_small in Hrun by lia.
    apply IH in Hrun; [| lia | lia].
    rewrite length_app, length_take in Hrun. destruct r; lia.
  - injection Hrun as <-. rewrite length_app, length_take. lia.
Qed.

Lemma copy_runs_length fuel os clusterSize_ zeroBuffer runs :
  forall remaining output r,
    0 <= remaining < 2 ^ 64 ->
    copy_runs fuel os clusterSize_ zeroBuffer runs remaining output = Some r ->
    match r with
    | Copied (remaining', output') =>
        0 <= remaining' <= remaining
        /\ Z.of_nat (length output') + remaining' = Z.of_nat (length output) + remaining
    | CopyFailed _ output' =>
        Z.of_nat (length output) <= Z.of_nat (length output')
        <= Z.of_nat (length output) + remaining
    end.
Proof.
  induction runs as [| run runs IH]; intros remaining output r Hr Hrun.
  - cbn in Hrun. injection Hrun as <-. lia.
  - cbn [copy_runs] in Hrun.
    destruct (Z.eqb_spec remaining 0) as [-> | Hnz]; [injection Hrun as <-; lia |].
    destruct (Z.leb_spec (seg_length run) 0) as [Hskip | Hpos]; [now apply IH |].
    cbv zeta in Hrun.
    set (runBytesTotal := wrap_u64 (wrap_u64 (seg_length run) * clusterSize_)) in *.
    assert (Htotal : 0 <= runBytesTotal < 2 ^ 64)
      by (unfold runBytesTotal, wrap_u64; apply Z.mod_pos_bound; lia).
    set (toCopy := Z.min runBytesTotal remaining) in *.
    assert (HtoCopy : 0 <= toCopy <= remaining) by lia.
    destruct (sparse run || (lcn run <=? 0)).
    + destruct (write_zeros fuel os zeroBuffer toCopy 0 output) as [r1 |] eqn:Hz;
        [| discriminate].
      apply write_zeros_length in Hz; [| lia | lia].
      destruct r1 as [output1 | msg output1].
      * apply IH in Hrun; [| lia]. destruct r as [[remaining' output'] | msg output']; lia.
      * injection Hrun as <-. lia.
    + destruct (Os.SetFilePointerEx os _); [| injection Hrun as <-; lia].
      destruct (copy_clusters fuel os _ toCopy 0 _ output) as [r1 |] eqn:Hc;
        [| discriminate].
      apply copy_clusters_length in Hc; [| lia | lia | lia].
      destruct r1 as [output1 | msg output1].
      * apply IH in Hrun; [| lia]. destruct r as [[remaining' output'] | msg output']; lia.
      * injection Hrun as <-. lia.
Qed.

Lemma write_padding_length os zeroBuffer :
  forall fuel remaining output r,
    0 <= remaining < 2 ^ 64 ->
    write_padding fuel os zeroBuffer remaining output = Some r ->
    match r with
    | Copied output' => Z.of_nat (length output') = Z.of_nat (length output) + remaining
    | CopyFailed _ output' =>
        Z.of_nat (length output) <= Z.of_nat (length output')
        <= Z.of_nat (length output) + remaining
    end.
Proof.
  induction fuel as [| fuel IH]; intros remaining output r Hr Hrun; [discriminate |].
  cbn [write_padding] in Hrun.
  destruct (Z.ltb_spec 0 remaining) as [Hlt | Hge]; [| injection Hrun as <-; lia].
  set (chunk := Z.min remaining (Z.of_nat (length zeroBuffer))) in *.
  pose proof (wrap_u32_le chunk ltac:(lia)) as Hchunk.
  unfold WriteFile in Hrun.
  destruct (Os.WriteCount os _ _) as [count | err]; [| injection Hrun as <-; lia].
  set (written := Z.max 0 (Z.min count (wrap_u32 chunk))) in *.
  assert (Hw : 0 <= written <= chunk) by lia.
  rewrite wrap_u64_small in Hrun by lia.
  apply IH in Hrun; [| lia].
  rewrite length_app, length_take in Hrun. destruct r; lia.
Qed.

(** X17: whatever the runs, the cluster size and the answers of the system,
    a recovery that succeeds leaves a file of exactly the size asked for, and
    one that fails after creating the file leaves at most that many bytes:
    no overflow of a product and no short read or write makes it write
    more. *)
Theorem recovery_output_size (fuel : nat) (os : Os.t) (w : DataRunRecoveryWorker.t)
    (result : recovery_result) :
  0 <= DataRunRecoveryWorker.fileSize_ w < 2 ^ 64 ->
  DataRunRecoveryWorker_Execute fuel os w = Some result ->
  output_size_ok (DataRunRecoveryWorker.fileSize_ w) result.
Proof.
  intros Hfs Hrun. unfold DataRunRecoveryWorker_Execute in Hrun.
  destruct (DataRunRecoveryWorker.drive_ w) as [| c drive]; [injection Hrun as <-; exact I |].
  destruct (_ =? 0); [injection Hrun as <-; exact I |].
  destruct (_ =? 0); [injection Hrun as <-; exact I |].
  destruct (is_nil _); [injection Hrun as <-; exact I |].
  destruct (Os.OpenVolume os _); [| injection Hrun as <-; exact I].
  destruct (Os.CreateOutput os _); [| injection Hrun as <-; exact I].
  cbv zeta in Hrun.
  destruct (copy_runs _ _ _ _ _ _ _) as [r1 |] eqn:Hc; [| discriminate].
  apply copy_runs_length in Hc; [| exact Hfs].
  destruct r1 as [[remaining output1] | msg output1].
  - destruct (write_padding _ _ _ _ _) as [r2 |] eqn:Hp; [| discriminate].
    apply write_padding_length in Hp; [| lia].
    destruct r2 as [output2 | msg output2]; injection Hrun as <-;
      cbn [output_size_ok length] in *; lia.
  - injection Hrun as <-. cbn [output_size_ok length] in *. lia.
Qed.

Lemma recovery_output_size_witness :
  output_size_ok 512 (Recovered (zeros 512)).
Proof.
  apply (recovery_output_size 100 (fixture_os [] numbered_volume)
           (recovery_worker [overflowing_run] 512 512)).
  - cbn. lia.
  - vm_compute. reflexivity.
Defined.

(** ** Runs that are not read, and runs that are skipped *)

Lemma copy_runs_unmapped fuel os clusterSize_ (k : nat) runs :
  Forall unmapped runs ->
  forall remaining output remaining' output',
    0 <= remaining < 2 ^ 64 ->
    copy_runs fuel os clusterSize_ (repeat x00 k) runs remaining output
      = Some (Copied (remaining', output')) ->
    0 <= remaining' <= remaining
    /\ output' = output ++ zeros (remaining - remaining').
Proof.
  induction 1 as [| run runs Hrun _ IH]; intros remaining output remaining' output' Hr Hc.
  - cbn in Hc. injection Hc as <- <-. rewrite Z.sub_diag. cbn. now rewrite app_nil_r.
  - cbn [copy_runs] in Hc.
    destruct (Z.eqb_spec remaining 0) as [-> | Hnz].
    { injection Hc as <- <-. cbn. now rewrite app_nil_r. }
    destruct (Z.leb_spec (seg_length run) 0) as [Hskip | Hpos]; [now apply IH |].
    cbv zeta in Hc.
    set (runBytesTotal := wrap_u64 (wrap_u64 (seg_length run) * clusterSize_)) in *.
    assert (Htotal : 0 <= runBytesTotal < 2 ^ 64)
      by (unfold runBytesTotal, wrap_u64; apply Z.mod_pos_bound; lia).
    set (toCopy := Z.min runBytesTotal remaining) in *.
    assert (HtoCopy : 0 <= toCopy <= remaining) by lia.
    assert (Hun : sparse run || (lcn run <=? 0) = true).
    { destruct Hrun as [-> | Hl]; [reflexivity |].
      apply orb_true_iff. right. now apply Z.leb_le. }
    rewrite Hun in Hc.
    destruct (write_zeros fuel os (repeat x00 k) toCopy 0 output)
      as [[output1 | msg output1] |] eqn:Hz; try discriminate.
    apply write_zeros_content in Hz; [| lia | lia].
    apply IH in Hc; [| lia]. destruct Hc as [Hr' ->]. split; [lia |].
    rewrite Hz, <- app_assoc. f_equal. rewrite <- zeros_add by lia. f_equal. lia.
Qed.

Lemma WriteFile_with_volume os seek read volume err output data n :
  WriteFile (with_volume os seek read volume err) output data n = WriteFile os output data n.
Proof. reflexivity. Qed.

Lemma write_zeros_with_volume os seek read volume err zeroBuffer :
  forall fuel bytesToCopy produced output,
    write_zeros fuel (with_volume os seek read volume err) zeroBuffer bytesToCopy produced output
    = write_zeros fuel os zeroBuffer bytesToCopy produced output.
Proof.
  induction fuel as [| fuel IH]; intros bytesToCopy produced output; [reflexivity |].
  cbn [write_zeros]. rewrite WriteFile_with_volume.
  destruct (produced <? bytesToCopy); [| reflexivity].
  destruct (WriteFile os _ _ _) as [[written output'] | e]; [apply IH | reflexivity].
Qed.

Lemma write_padding_with_volume os seek read volume err zeroBuffer :
  forall fuel remaining output,
    write_padding fuel (with_volume os seek read volume err) zeroBuffer remaining output
    = write_padding fuel os zeroBuffer remaining output.
Proof.
  induction fuel as [| fuel IH]; intros remaining output; [reflexivity |].
  cbn [write_padding]. rewrite WriteFile_with_volume.
  destruct (0 <? remaining); [| reflexivity].
  destruct (WriteFile os _ _ _) as [[written output'] | e]; [apply IH | reflexivity].
Qed.

Lemma copy_runs_with_volume fuel os seek read volume err clusterSize_ zeroBuffer runs :
  Forall unmapped runs ->
  forall remaining output,
    copy_runs fuel (with_volume os seek read volume err) clusterSize_ zeroBuffer runs
      remaining output
    = copy_runs fuel os clusterSize_ zeroBuffer runs remaining output.
Proof.
  induction 1 as [| run runs Hrun _ IH]; intros remaining output; [reflexivity |].
  cbn [copy_runs].
  destruct (remaining =? 0); [reflexivity |].
  destruct (seg_length run <=? 0); [apply IH |].
  cbv zeta.
  assert (Hun : sparse run || (lcn run <=? 0) = true).
  { destruct Hrun as [-> | Hl]; [reflexivity |].
    apply orb_true_iff. right. now apply Z.leb_le. }
  rewrite Hun, write_zeros_with_volume.
  destruct (write_zeros fuel os zeroBuffer _ 0 output) as [[output1 | msg output1] |];
    [apply IH | reflexivity | reflexivity].
Qed.

(** X18: a file all of whose runs are sparse or have a cluster address that
    is not positive is recovered without the volume: other answers to
    seeking and reading, failures among them, another content of the volume
    and another last-error value leave the outcome of the worker as it is;
    and a recovery that succeeds has written [fileSize] zero bytes. *)
Theorem recovery_of_unmapped_runs (fuel : nat) (os : Os.t) (w : DataRunRecoveryWorker.t) :
  Forall unmapped (DataRunRecoveryWorker.runs_ w) ->
  0 <= DataRunRecoveryWorker.fileSize_ w < 2 ^ 64 ->
  (forall seek read volume err,
      DataRunRecoveryWorker_Execute fuel (with_volume os seek read volume err) w
      = DataRunRecoveryWorker_Execute fuel os w)
  /\ (forall output,
        DataRunRecoveryWorker_Execute fuel os w = Some (Recovered output) ->
        output = zeros (DataRunRecoveryWorker.fileSize_ w)).
Proof.
  intros Hruns Hfs. split.
  - intros seek read volume err. unfold DataRunRecoveryWorker_Execute.
    change (Os.OpenVolume (with_volume os seek read volume err)) with (Os.OpenVolume os).
    change (Os.CreateOutput (with_volume os seek read volume err)) with (Os.CreateOutput os).
    destruct (DataRunRecoveryWorker.drive_ w) as [| c drive]; [reflexivity |].
    destruct (_ =? 0); [reflexivity |].
    destruct (_ =? 0); [reflexivity |].
    destruct (is_nil _); [reflexivity |].
    destruct (Os.OpenVolume os _); [| reflexivity].
    destruct (Os.CreateOutput os _); [| reflexivity].
    cbv zeta. rewrite copy_runs_with_volume by exact Hruns.
    destruct (copy_runs _ _ _ _ _ _ _) as [[[remaining output1] | msg output1] |];
      [| reflexivity | reflexivity].
    rewrite write_padding_with_volume. reflexivity.
  - intros output Hrun. unfold DataRunRecoveryWorker_Execute in Hrun.
    destruct (DataRunRecoveryWorker.drive_ w) as [| c drive]; [discriminate |].
    destruct (_ =? 0); [discriminate |].
    destruct (_ =? 0); [discriminate |].
    destruct (is_nil _); [discriminate |].
    destruct (Os.OpenVolume os _); [| discriminate].
    destruct (Os.CreateOutput os _); [| discriminate].
    cbv zeta in Hrun.
    destruct (copy_runs _ _ _ _ _ _ _) as [[[remaining output1] | msg output1] |] eqn:Hc;
      try discriminate.
    apply copy_runs_unmapped in Hc; [| assumption | lia].
    destruct Hc as [Hr Hout].
    destruct (write_padding _ _ _ _ _) as [[output2 | msg output2] |] eqn:Hp;
      try discriminate.
    apply write_padding_content in Hp; [| lia].
    injection Hrun as <-. rewrite Hp, Hout. cbn [app].
    rewrite <- zeros_add by lia. f_equal. lia.
Qed.

Lemma recovery_of_unmapped_runs_witness :
  DataRunRecoveryWorker_Execute 100
    (with_volume (fixture_os [] numbered_volume)
       (fun _ => IoFail 5) (fun _ _ => IoFail 5) (fun _ => xff) 5)
    (recovery_worker [data_run 7 1 true; data_run (-3) 1 false; data_run 0 1 false] 512 600)
  = Some (Recovered (zeros 600)).
Proof.
  destruct (recovery_of_unmapped_runs 100 (fixture_os [] numbered_volume)
              (recovery_worker [data_run 7 1 true; data_run (-3) 1 false; data_run 0 1 false]
                 512 600)) as [Hsame Hzeros].
  - repeat constructor; unfold unmapped; cbn; lia.
  - cbn. lia.
  - rewrite Hsame. vm_compute. reflexivity.
Defined.

Lemma copy_runs_nothing_left fuel os clusterSize_ zeroBuffer runs output :
  copy_runs fuel os clusterSize_ zeroBuffer runs 0 output = Some (Copied (0, output)).
Proof. destruct runs; reflexivity. Qed.

Lemma copy_runs_positive fuel os clusterSize_ zeroBuffer runs :
  forall remaining output,
    copy_runs fuel os clusterSize_ zeroBuffer (positive_runs runs) remaining output
    = copy_runs fuel os clusterSize_ zeroBuffer runs remaining output.
Proof.
  unfold positive_runs.
  induction runs as [| run runs IH]; intros remaining output; [reflexivity |].
  cbn [List.filter copy_runs].
  destruct (Z.ltb_spec 0 (seg_length run)) as [Hpos | Hskip].
  - cbn [copy_runs].
    destruct (remaining =? 0); [reflexivity |].
    destruct (Z.leb_spec (seg_length run) 0); [lia |].
    cbv zeta.
    destruct (if sparse run || (lcn run <=? 0) then _ else _) as [[output1 | msg output1] |];
      [apply IH | reflexivity | reflexivity].
  - destruct (Z.leb_spec (seg_length run) 0); [| lia].
    destruct (Z.eqb_spec remaining 0) as [-> | _]; [apply copy_runs_nothing_left | apply IH].
Qed.

(** X19: runs whose length is zero or negative take no part in a recovery:
    leaving them out of the list changes nothing of what the worker does. *)
Theorem recovery_skips_empty_runs (fuel : nat) (os : Os.t) (w : DataRunRecoveryWorker.t) :
  DataRunRecoveryWorker_Execute fuel os
    {| DataRunRecoveryWorker.drive_ := DataRunRecoveryWorker.drive_ w;
       DataRunRecoveryWorker.runs_ := positive_runs (DataRunRecoveryWorker.runs_ w);
       DataRunRecoveryWorker.clusterSize_ := DataRunRecoveryWorker.clusterSize_ w;
       DataRunRecoveryWorker.fileSize_ := DataRunRecoveryWorker.fileSize_ w;
       DataRunRecoveryWorker.outputPath_ := DataRunRecoveryWorker.outputPath_ w |}
  = DataRunRecoveryWorker_Execute fuel os w.
Proof.
  unfold DataRunRecoveryWorker_Execute.
  cbn [DataRunRecoveryWorker.drive_ DataRunRecoveryWorker.runs_
       DataRunRecoveryWorker.clusterSize_ DataRunRecoveryWorker.fileSize_
       DataRunRecoveryWorker.outputPath_].
  rewrite copy_runs_positive. reflexivity.
Qed.

(** ** The recovery ends *)

(** X20: on a system where every call succeeds and every read and write
    transfers what is asked, a request the entry point accepts, with a drive
    and an output path that are not empty, positive sizes, buffers below
    4 GiB and products that do not overflow, ends well once the fuel exceeds
    the file size, and the file written is the content the runs describe. *)
Theorem recoverDataRuns_completes (fuel : nat) (os : Os.t) (info : list JsValue)
    (w : DataRunRecoveryWorker.t) :
  RecoverDataRuns info = Queued w ->
  cooperative os ->
  DataRunRecoveryWorker.drive_ w <> EmptyString ->
  DataRunRecoveryWorker.outputPath_ w <> [] ->
  0 < DataRunRecoveryWorker.clusterSize_ w ->
  DataRunRecoveryWorker.clusterSize_ w * 16 < 2 ^ 32 ->
  0 < DataRunRecoveryWorker.fileSize_ w ->
  Forall (products_fit (DataRunRecoveryWorker.clusterSize_ w))
    (DataRunRecoveryWorker.runs_ w) ->
  (Z.to_nat (DataRunRecoveryWorker.fileSize_ w) < fuel)%nat ->
  recoverDataRuns fuel os info
  = Some (Worker (Recovered
                    (expected_content os (DataRunRecoveryWorker.clusterSize_ w)
                       (DataRunRecoveryWorker.runs_ w)
                       (DataRunRecoveryWorker.fileSize_ w)))).
Proof.
  intros Hq Hos Hdrive Hpath Hcs Hbuf Hfs Hfit Hfuel.
  destruct (RecoverDataRuns_queued _ _ Hq) as (Hcs64 & Hfs64 & Hlen).
  assert (Hruns : Forall (run_in_range (DataRunRecoveryWorker.clusterSize_ w))
                    (DataRunRecoveryWorker.runs_ w)).
  { rewrite Forall_forall in *. intros run Hin.
    destruct (Hfit run Hin) as [Hbytes Hoff].
    repeat split; auto. }
  unfold recoverDataRuns. rewrite Hq.
  rewrite Execute_succeeds; try assumption; [reflexivity | lia].
Qed.

Lemma recoverDataRuns_completes_witness :
  recoverDataRuns 601 (fixture_os [] numbered_volume)
    [ JsString "c"; JsArray [js_run "0" "7" "1" false];
      JsString "512"; JsString "600"; JsString "out.bin"; JsFunction ]
  = Some (Worker (Recovered
                    (expected_content (fixture_os [] numbered_volume) 512
                       [data_run 7 1 false] 600))).
Proof.
  apply (recoverDataRuns_completes 601 (fixture_os [] numbered_volume)
           [ JsString "c"; JsArray [js_run "0" "7" "1" false];
             JsString "512"; JsString "600"; JsString "out.bin"; JsFunction ]
           (recovery_worker [data_run 7 1 false] 512 600)).
  - vm_compute. reflexivity.
  - apply fixture_os_cooperative.
  - discriminate.
  - discriminate.
  - cbn. lia.
  - cbn. lia.
  - cbn. lia.
  - apply List.Forall_cons; [| apply List.Forall_nil].
    unfold products_fit. cbn. lia.
  - cbn. lia.
Defined.

(** ** Sizes as text and as numbers *)

(** X21: the recovery entry point takes a cluster size above 0 and a file
    size from 0, both below [2^64], alike as decimal text and as a number:
    the two calls throw the same error or queue the same worker. *)
Theorem RecoverDataRuns_text_or_number (info0 info1 info4 info5 : JsValue)
    (rest : list JsValue) (clusterSize fileSize : Z) :
  0 < clusterSize < 2 ^ 64 ->
  0 <= fileSize < 2 ^ 64 ->
  RecoverDataRuns (info0 :: info1 :: JsString (to_string clusterSize)
                   :: JsString (to_string fileSize) :: info4 :: info5 :: rest)
  = RecoverDataRuns (info0 :: info1 :: JsNumber (inject_Z clusterSize)
                     :: JsNumber (inject_Z fileSize) :: info4 :: info5 :: rest).
Proof.
  intros Hcs Hfs. unfold RecoverDataRuns.
  rewrite !TryParseUnsigned_text by lia.
  assert (Hpos : Qle_bool (inject_Z clusterSize) 0 = false).
  { unfold Qle_bool, inject_Z. cbn [Qnum Qden]. apply Z.leb_gt. lia. }
  assert (Hnonneg : Qle_bool 0 (inject_Z fileSize) = true).
  { unfold Qle_bool, inject_Z. cbn [Qnum Qden]. apply Z.leb_le. lia. }
  rewrite Hpos, Hnonneg. cbn [negb].
  assert (Hconv : forall z, double_to_u64 (inject_Z z) = wrap_u64 z).
  { intros z. unfold double_to_u64, truncate, inject_Z. cbn [Qnum Qden].
    now rewrite Z.quot_1_r. }
  rewrite !Hconv. reflexivity.
Qed.

Lemma RecoverDataRuns_text_or_number_witness :
  RecoverDataRuns [ JsString "c"; JsArray []; JsString (to_string 4096);
                    JsString (to_string 0); JsString "out.bin"; JsFunction ]
  = RecoverDataRuns [ JsString "c"; JsArray []; JsNumber (inject_Z 4096);
                      JsNumber (inject_Z 0); JsString "out.bin"; JsFunction ].
Proof.
  apply (RecoverDataRuns_text_or_number (JsString "c") (JsArray []) (JsString "out.bin")
           JsFunction [] 4096 0); lia.
Defined.

(** ** What the file-record parser reads *)

(** X22: the bound of a resident value is checked in 32-bit arithmetic: when
    the sum of [ValueOffset] and [ValueLength] passes [2^32] and its low 32
    bits are at most [Length], the parser takes all [ValueLength] bytes as
    the value although they end beyond the record. *)
Theorem resident_value_bound_wraps (buf : list byte) (p : Z) :
  AttributeRecordHeader.NonResident buf p = 0 ->
  2 ^ 32 <= AttributeRecordHeader.ValueOffset buf p + AttributeRecordHeader.ValueLength buf p ->
  AttributeRecordHeader.ValueOffset buf p + AttributeRecordHeader.ValueLength buf p - 2 ^ 32
    <= AttributeRecordHeader.Length buf p ->
  AttributeInfo.residentData (parse_attribute buf p)
  = read_bytes buf (p + AttributeRecordHeader.ValueOffset buf p)
      (AttributeRecordHeader.ValueLength buf p)
  /\ Z.of_nat (length (AttributeInfo.residentData (parse_attribute buf p)))
     = AttributeRecordHeader.ValueLength buf p
  /\ AttributeRecordHeader.Length buf p
     < AttributeRecordHeader.ValueOffset buf p + AttributeRecordHeader.ValueLength buf p.
Proof.
  intros Hres Hwrap Hfit.
  pose proof (rdLE_range 4 buf (p + 4)) as Hr.
  pose proof (rdLE_range 2 buf (p + 20)) as Ho.
  pose proof (rdLE_range 4 buf (p + 16)) as Hv.
  fold rd32 in Hr, Hv. fold rd16 in Ho.
  fold (AttributeRecordHeader.Length buf p) in Hr.
  fold (AttributeRecordHeader.ValueOffset buf p) in Ho.
  fold (AttributeRecordHeader.ValueLength buf p) in Hv.
  change (8 * Z.of_nat 4) with 32 in *. change (8 * Z.of_nat 2) with 16 in *.
  assert (Hdata : AttributeInfo.residentData (parse_attribute buf p)
                  = read_bytes buf (p + AttributeRecordHeader.ValueOffset buf p)
                      (AttributeRecordHeader.ValueLength buf p)).
  { unfold parse_attribute. rewrite Hres. cbn [Z.eqb negb AttributeInfo.residentData].
    assert (Hw : wrap_u32 (AttributeRecordHeader.ValueOffset buf p
                           + AttributeRecordHeader.ValueLength buf p)
                 = AttributeRecordHeader.ValueOffset buf p
                   + AttributeRecordHeader.ValueLength buf p - 2 ^ 32).
    { unfold wrap_u32. Z.to_euclidean_division_equations. lia. }
    rewrite Hw.
    destruct (Z.leb_spec (AttributeRecordHeader.ValueOffset buf p
                          + AttributeRecordHeader.ValueLength buf p - 2 ^ 32)
                (AttributeRecordHeader.Length buf p)); [| lia].
    destruct (Z.ltb_spec 0 (AttributeRecordHeader.ValueLength buf p)); [| lia].
    reflexivity. }
  split; [exact Hdata |]. split; [| lia].
  rewrite Hdata, length_read_bytes. lia.
Qed.

Lemma resident_value_bound_wraps_witness :
  Z.of_nat (length (AttributeInfo.residentData
                      (parse_attribute wrapping_resident_attribute 0)))
  = AttributeRecordHeader.ValueLength wrapping_resident_attribute 0
  /\ AttributeRecordHeader.ValueLength wrapping_resident_attribute 0 = 4294967295
  /\ AttributeRecordHeader.Length wrapping_resident_attribute 0 = 24.
Proof.
  split; [| split; vm_compute; reflexivity].
  apply (resident_value_bound_wraps wrapping_resident_attribute 0).
  - vm_compute. reflexivity.
  - vm_compute. discriminate.
  - vm_compute. discriminate.
Defined.

Lemma agree_on_sub lo hi lo' hi' buf buf' :
  agree_on lo hi buf buf' -> lo <= lo' -> hi' <= hi -> agree_on lo' hi' buf buf'.
Proof. intros Hag Hlo Hhi off Hoff. apply Hag. lia. Qed.

Lemma parse_attribute_core_agree buf buf' p :
  agree_on p (p + Z.max 72 (AttributeRecordHeader.Length buf p)) buf buf' ->
  attribute_core (parse_attribute buf p) = attribute_core (parse_attribute buf' p).
Proof.
  intros Hag.
  assert (Hhead : agree_on p (p + 72) buf buf') by (apply (agree_on_sub _ _ _ _ _ _ Hag); lia).
  assert (Hruns : ParseRunList buf p = ParseRunList buf' p).
  { apply ParseRunList_agree. apply (agree_on_sub _ _ _ _ _ _ Hag); lia. }
  unfold parse_attribute, attribute_core.
  unfold AttributeRecordHeader.NonResident, AttributeRecordHeader.Type_,
    AttributeRecordHeader.DataSize, AttributeRecordHeader.AllocatedSize,
    AttributeRecordHeader.ValueLength, rd32, rd64 in *.
  rewrite <- (Hhead (p + 8)) by lia.
  rewrite <- (rdLE_agree _ _ _ _ Hhead 4%nat p) by lia.
  rewrite <- (rdLE_agree _ _ _ _ Hhead 8%nat (p + 48)) by lia.
  rewrite <- (rdLE_agree _ _ _ _ Hhead 8%nat (p + 40)) by lia.
  rewrite <- (rdLE_agree _ _ _ _ Hhead 4%nat (p + 16)) by lia.
  destruct (negb (rd8 buf (p + 8) =? 0));
    cbn [AttributeInfo.type AttributeInfo.nonResident AttributeInfo.dataSize
         AttributeInfo.allocatedSize AttributeInfo.runs];
    [rewrite Hruns |]; reflexivity.
Qed.

Lemma attribute_loop_core_agree lo buf buf' end_ :
  agree_on lo end_ buf buf' ->
  forall fuel attrPtr, lo <= attrPtr ->
    map attribute_core (attribute_loop fuel buf end_ attrPtr)
    = map attribute_core (attribute_loop fuel buf' end_ attrPtr).
Proof.
  intros Hag. induction fuel as [| fuel IH]; intros attrPtr Hlo; [reflexivity |].
  cbn [attribute_loop].
  destruct (Z.leb_spec (attrPtr + AttributeRecordHeader.sizeof) end_) as [Hhdr | _];
    [| reflexivity].
  unfold AttributeRecordHeader.sizeof in Hhdr.
  assert (Hty : AttributeRecordHeader.Type_ buf' attrPtr = AttributeRecordHeader.Type_ buf attrPtr).
  { unfold AttributeRecordHeader.Type_, rd32. symmetry. apply (rdLE_agree _ _ _ _ Hag); lia. }
  assert (Hlen : AttributeRecordHeader.Length buf' attrPtr
                 = AttributeRecordHeader.Length buf attrPtr).
  { unfold AttributeRecordHeader.Length, rd32. symmetry. apply (rdLE_agree _ _ _ _ Hag); lia. }
  rewrite Hty, Hlen.
  destruct (_ || _); [reflexivity |].
  destruct (Z.ltb_spec end_ (attrPtr + AttributeRecordHeader.Length buf attrPtr))
    as [_ | Hend]; [reflexivity |].
  cbn [map]. f_equal.
  - apply parse_attribute_core_agree. apply (agree_on_sub _ _ _ _ _ _ Hag); lia.
  - apply IH.
    pose proof (rdLE_range 4 buf (attrPtr + 4)) as Hr.
    unfold AttributeRecordHeader.Length, rd32. lia.
Qed.

(** X23: whether a file record parses, its header fields, and of every
    attribute the type, the residency, the two sizes and the run list depend
    on the bytes of the record alone: two memories that agree over the
    [length] bytes of the record give the same of these, whatever lies
    outside it. *)
Theorem ParseFileRecord_local (buf buf' : list byte) (buffer length : Z) :
  agree_on buffer (buffer + length) buf buf' ->
  option_map record_core (ParseFileRecord buf buffer length)
  = option_map record_core (ParseFileRecord buf' buffer length).
Proof.
  intros Hag. unfold ParseFileRecord.
  destruct (Z.ltb_spec length FileRecordHeader.sizeof) as [| Hlen]; [reflexivity |].
  unfold FileRecordHeader.sizeof in Hlen.
  assert (Hhead : agree_on buffer (buffer + 48) buf buf')
    by (apply (agree_on_sub _ _ _ _ _ _ Hag); lia).
  unfold FileRecordHeader.Magic, FileRecordHeader.Flags,
    FileRecordHeader.FirstAttributeOffset, FileRecordHeader.BaseFileRecord,
    FileRecordHeader.HardLinkCount, rd16, rd32, rd64.
  rewrite <- (rdLE_agree _ _ _ _ Hhead 4%nat buffer) by lia.
  rewrite <- (rdLE_agree _ _ _ _ Hhead 2%nat (buffer + 22)) by lia.
  rewrite <- (rdLE_agree _ _ _ _ Hhead 2%nat (buffer + 20)) by lia.
  rewrite <- (rdLE_agree _ _ _ _ Hhead 8%nat (buffer + 32)) by lia.
  rewrite <- (rdLE_agree _ _ _ _ Hhead 2%nat (buffer + 18)) by lia.
  destruct (negb (rdLE 4 buf buffer =? 1162627398)); [reflexivity |].
  cbv zeta. cbn [option_map]. unfold record_core.
  cbn [FileRecordDetails.inUse FileRecordDetails.isDirectory FileRecordDetails.baseReference
       FileRecordDetails.hardLinkCount FileRecordDetails.flags FileRecordDetails.attributes].
  do 2 f_equal.
  apply (attribute_loop_core_agree buffer); [exact Hag |].
  pose proof (rdLE_range 2 buf (buffer + 20)). lia.
Qed.

Lemma ParseFileRecord_local_witness :
  option_map record_core (ParseFileRecord empty_streams_record 0 1024)
  = option_map record_core (ParseFileRecord (empty_streams_record ++ [xff; xff]) 0 1024).
Proof.
  apply (ParseFileRecord_local empty_streams_record (empty_streams_record ++ [xff; xff]) 0 1024).
  intros off Hoff. apply rd8_app_l.
  assert (Hlen : Z.of_nat (List.length empty_streams_record) = 1024) by (vm_compute; reflexivity).
  rewrite Hlen. lia.
Defined.

(** ** Names of attribute types *)

Lemma AttributeTypeToString_known t :
  AttributeTypeToString t <> "Unknown"%string -> In t known_types.
Proof.
  intros H. destruct t as [| p | p]; [now contradict H | | now contradict H].
  do 9 (try (destruct p as [p | p |]; try (now contradict H))); cbn; tauto.
Qed.

(** X24: the names of the attribute types identify them: a type whose name
    is not [Unknown] is one of the sixteen types 0x10, 0x20, ..., 0x100, and
    no other type has its name. *)
Theorem AttributeTypeToString_names (t1 t2 : Z) :
  AttributeTypeToString t1 <> "Unknown"%string ->
  In t1 known_types
  /\ (AttributeTypeToString t1 = AttributeTypeToString t2 -> t1 = t2).
Proof.
  intros H1. split; [now apply AttributeTypeToString_known |]. intros Heq.
  assert (H2 : AttributeTypeToString t2 <> "Unknown"%string) by (now rewrite <- Heq).
  apply AttributeTypeToString_known in H1, H2.
  unfold known_types in *. cbn [In] in *.
  repeat (destruct H1 as [<- | H1]); try contradiction;
    repeat (destruct H2 as [<- | H2]); try contradiction; try reflexivity; discriminate.
Qed.

Lemma AttributeTypeToString_names_witness :
  In 128 known_types
  /\ (AttributeTypeToString 128 = AttributeTypeToString 128 -> 128 = 128).
Proof. apply (AttributeTypeToString_names 128 128). discriminate. Defined.

(** ** Text between the host and the platform *)

Lemma L_cons c s : L (String c s) = char_code c :: L s.
Proof. reflexivity. Qed.

Lemma ascii_of_byte_of_code c : ascii_of_byte (byte_of_Z (char_code c)) = c.
Proof.
  destruct c as [[] [] [] [] [] [] [] []]; reflexivity.
Qed.

Lemma is_ascii_cons c s :
  is_ascii (String c s) = true -> char_code c < 128 /\ is_ascii s = true.
Proof.
  unfold is_ascii. cbn [list_ascii_of_string forallb]. intros H.
  apply andb_true_iff in H. destruct H as [Hc Hs]. apply Z.ltb_lt in Hc. auto.
Qed.

Lemma char_code_nonneg c : 0 <= char_code c.
Proof. unfold char_code. lia. Qed.

Lemma utf16_to_utf8_ascii s :
  is_ascii s = true -> string_of_bytes (utf16_to_utf8 (L s)) = s.
Proof.
  induction s as [| c s IH]; intros Hs; [reflexivity |].
  apply is_ascii_cons in Hs. destruct Hs as [Hc Hs].
  pose proof (char_code_nonneg c) as H0.
  rewrite L_cons. cbn [utf16_to_utf8].
  unfold is_high_surrogate, is_low_surrogate.
  destruct (Z.leb_spec 55296 (char_code c)); [lia |]. cbn [andb].
  destruct (Z.leb_spec 56320 (char_code c)); [lia |]. cbn [andb].
  unfold utf8_encode. destruct (Z.ltb_spec (char_code c) 128); [| lia].
  cbn [app]. unfold string_of_bytes in *. cbn [string_of_list_byte].
  unfold string_of_list_byte in *. cbn [map string_of_list_ascii].
  rewrite ascii_of_byte_of_code, IH by exact Hs. reflexivity.
Qed.

Lemma utf8_to_utf16_ascii bytes :
  Forall (fun b => 0 <= b < 128) bytes ->
  forall fuel, (length bytes <= fuel)%nat -> utf8_to_utf16 fuel bytes = bytes.
Proof.
  induction 1 as [| b bytes Hb _ IH]; intros fuel Hfuel.
  - destruct fuel; reflexivity.
  - destruct fuel as [| fuel]; [cbn [length] in Hfuel; lia |].
    cbn [utf8_to_utf16]. destruct (Z.ltb_spec b 128); [| lia].
    rewrite IH by (cbn [length] in Hfuel; lia). reflexivity.
Qed.

(** X25: a text of 7-bit characters passes both conversions unchanged: the
    output path of a recovery reaches the system as the same characters, and
    a name of such characters read from the volume is reported as it is. *)
Theorem ascii_text_unchanged (s : string) :
  is_ascii s = true ->
  Utf8ToWide s = L s /\ WideToUtf8 (L s) = s.
Proof.
  intros Hs. split.
  - unfold Utf8ToWide. cbv zeta.
    assert (Hmap : map char_code (list_ascii_of_string s) = L s) by reflexivity.
    rewrite Hmap. apply utf8_to_utf16_ascii; [| lia].
    clear Hmap. induction s as [| c s IH]; [constructor |].
    apply is_ascii_cons in Hs. destruct Hs as [Hc Hs].
    rewrite L_cons. constructor; [| now apply IH].
    pose proof (char_code_nonneg c). lia.
  - unfold WideToUtf8. destruct s as [| c s]; [reflexivity |].
    rewrite L_cons. rewrite <- L_cons. now apply utf16_to_utf8_ascii.
Qed.

Lemma ascii_text_unchanged_witness :
  Utf8ToWide "C:\out\note.txt" = L "C:\out\note.txt"
  /\ WideToUtf8 (L "C:\out\note.txt") = "C:\out\note.txt"%string.
Proof. apply (ascii_text_unchanged "C:\out\note.txt"). reflexivity. Defined.
